(** * nod: signals and slots (include/nod/nod.hpp)

    A shallow embedding of the signal/slot library and the properties of
    its connection and disconnection protocol.

    - A slot is a [std::function<R(A...)>]: either empty or a callable.
      Slot bodies have side effects, so a callable is a function of the
      arguments and of the world [W] it acts on. A slot body does not
      call back into the signal that runs it: the library holds its
      mutex during the call and documents this as the caller's duty.
    - A signal owns a vector of slots, its embedded disconnector and the
      [shared_ptr] to it; connections hold a [weak_ptr] and an index.
      Shared and weak pointers are references to control blocks, which
      count their strong owners.
    - Operations that touch several objects run in a small state and
      failure monad over the memory of live signals and control blocks.
      A run fails on the [assert] of [signal_type::disconnect], on the
      use of a destroyed signal, and when a destructor would wait for
      ever.
    - Indices and sizes are [std::size_t] in the source and [nat] here:
      a vector never holds more elements than [std::size_t] counts.
    - One thread at a time, except in the last two parts of the
      definitions. In the first the destructor of a signal and
      [connection::disconnect] run as two threads whose steps
      interleave; in the second two threads call [connect],
      [operator()] or [connection::disconnect] on one signal, under
      either threading policy. A step is a statement of the source, an
      iteration of a loop, or an operation on a control block; memory
      is sequentially consistent. *)

From stdpp Require Import base option list gmap.
From Stdlib Require Import Sorted.

Set Default Proof Using "Type".

(** ** Slots and the slot vector *)

(** The implicit conversions between the type [T] of the initial value
    of an accumulation and [result_type], the type
    [std::result_of<F(T, R)>::type] of a call of the accumulation
    function [F]. The source needs both: [to_value] is the conversion
    in the assignment [value = func( value, slot( args... ) )], where
    [value] is a [T], and [to_result] the one in [return value;], where
    the function returns [result_type]. *)
Record conversions (T U : Type) : Type := Conversions {
  to_value : U → T;
  to_result : T → U
}.
Arguments to_value {T U} _ _.
Arguments to_result {T U} _ _.

(** [result_type] is [T]: no value is converted. *)
Definition same_type (T : Type) : conversions T T :=
  {| to_value := λ value, value; to_result := λ value, value |}.

Section Slots.
Context {A R W : Type}.

(** The target of a non-empty [std::function<R(A...)>]. *)
Definition callable : Type := A → W → R * W.

(** [slot_type = std::function<R(A...)>]; [None] is the empty function
    [slot_type{}], which the signal also uses as a tombstone. *)
Definition slot_type : Type := option callable.

(** [explicit operator bool] of [std::function]. *)
Definition slot_bool (slot : slot_type) : bool :=
  match slot with Some _ => true | None => false end.

(** [_slots.back()] on a non-empty vector, [None] for [size() == 0]. *)
Definition back (slots : list slot_type) : option slot_type := last slots.

(** [_slots.pop_back()]. *)
Definition pop_back (slots : list slot_type) : list slot_type :=
  removelast slots.

(** [_slots.push_back(slot)]. *)
Definition push_back (slots : list slot_type) (slot : slot_type)
  : list slot_type := slots ++ [slot].

(** The loop of [signal_type::disconnect]:
    [while( _slots.size()>0 && !_slots.back() ) _slots.pop_back();]
    Every iteration pops one element, so [length slots] iterations are
    enough (see [trim_loop_exit]). *)
Fixpoint trim_loop (fuel : nat) (slots : list slot_type) : list slot_type :=
  match fuel with
  | 0 => slots
  | S fuel' =>
      match back slots with
      | Some slot =>
          if negb (slot_bool slot) then trim_loop fuel' (pop_back slots)
          else slots
      | None => slots
      end
  end.

Definition trim_back (slots : list slot_type) : list slot_type :=
  trim_loop (length slots) slots.

(** The loop of [signal_type::operator()]:
    [for( auto const& slot : _slots ) if( slot ) slot( args... );] *)
Fixpoint call_slots (slots : list slot_type) (args : A) (w : W) : W :=
  match slots with
  | [] => w
  | slot :: rest =>
      match slot with
      | Some f => call_slots rest args (f args w).2
      | None => call_slots rest args w
      end
  end.

(** The loop of [signal_type::trigger_with_accumulator]:
    [for( auto const& slot : _slots )
       if( slot ) value = func( value, slot( args... ) );]
    [value] is a [T] and [func( value, slot( args... ) )] a
    [result_type], here [U]: the assignment converts it to [T] in
    every iteration. *)
Fixpoint accumulate_slots {T U : Type} (cv : conversions T U)
    (slots : list slot_type) (value : T) (func : T → R → U) (args : A)
    (w : W) : T * W :=
  match slots with
  | [] => (value, w)
  | slot :: rest =>
      match slot with
      | Some f =>
          let '(r, w') := f args w in
          accumulate_slots cv rest (to_value cv (func value r)) func args w'
      | None => accumulate_slots cv rest value func args w
      end
  end.

(** *** What the specification says is called *)

(** The non-empty slots with their indices, in ascending index order,
    counting indices from [i]. *)
Fixpoint live_from (i : nat) (slots : list slot_type)
  : list (nat * callable) :=
  match slots with
  | [] => []
  | Some f :: rest => (i, f) :: live_from (S i) rest
  | None :: rest => live_from (S i) rest
  end.

Definition live_slots (slots : list slot_type) : list (nat * callable) :=
  live_from 0 slots.

(** Calling a list of callables one after the other on the same
    arguments. *)
Definition call_each (calls : list (nat * callable)) (args : A) (w : W) : W :=
  foldl (λ w c, (c.2 args w).2) w calls.

(** Left fold of [func] over the values the callables return, each one
    run in the world its predecessors left, every result converted to
    the type of the initial value. *)
Definition fold_each {T U : Type} (cv : conversions T U)
    (calls : list (nat * callable)) (value : T) (func : T → R → U)
    (args : A) (w : W) : T * W :=
  foldl (λ vw c, (to_value cv (func vw.1 (c.2 args vw.2).1),
                  (c.2 args vw.2).2))
        (value, w) calls.

(** The fold the specification describes,
    [op(...op(op(init, s0), s1)..., sN)] for the values [s0 ... sN]:
    every result of [op] is the first argument of the next call. *)
Definition left_fold {V : Type} (op : V → R → V) (init : V)
    (results : list R) : V :=
  foldl op init results.

(** The values returned by the callables, in call order. *)
Fixpoint returned (calls : list (nat * callable)) (args : A) (w : W)
  : list R :=
  match calls with
  | [] => []
  | c :: rest => (c.2 args w).1 :: returned rest args (c.2 args w).2
  end.

End Slots.

Arguments callable : clear implicits.
Arguments slot_type : clear implicits.

(** ** Objects: control blocks, connections, signals *)

(** The control block of the [shared_ptr<detail::disconnector>] a signal
    creates in [connect]. [use_count] is the number of strong owners;
    [pointee] is the address of the signal whose embedded [_disconnector]
    the pointer refers to. The deleter is [detail::no_delete], so nothing
    happens to the pointee when the count reaches zero. *)
Record control_block : Type := ControlBlock {
  use_count : nat;
  pointee : nat
}.

(** [signal_type::disconnector]: [_ptr] is [nullptr] or the signal. *)
Record disconnector : Type := Disconnector {
  _ptr : option nat
}.

(** [class connection]: a [weak_ptr] (empty, or naming a control block)
    and the slot index. *)
Record connection : Type := Connection {
  _weak_disconnector : option nat;
  _index : nat
}.

(** [class scoped_connection]. *)
Record scoped_connection : Type := ScopedConnection {
  _connection : connection
}.

(** What can stop a run: the [assert] of [signal_type::disconnect], the
    use of a signal whose storage is gone, and the wait loop of the
    destructor when nobody will ever release the disconnector. *)
Inductive failure : Type :=
  | assertion_failed
  | use_after_free
  | spins_forever.

Inductive result (X : Type) : Type :=
  | Done (x : X)
  | Failed (e : failure).
Arguments Done {X} x.
Arguments Failed {X} e.

(** *** [std::weak_ptr] *)

(** [weak_ptr::use_count()]. *)
Definition weak_use_count (blocks : list control_block) (weak : option nat)
  : nat :=
  match weak with
  | Some cb => match blocks !! cb with Some b => use_count b | None => 0 end
  | None => 0
  end.

(** [weak_ptr::expired()]. *)
Definition expired (blocks : list control_block) (weak : option nat) : bool :=
  Nat.eqb (weak_use_count blocks weak) 0.

(** [weak_ptr::lock()]: the control block when it still has an owner,
    [None] for [nullptr]. The strong reference the caller gets is dropped
    again at the end of the caller's scope, so the count it leaves behind
    is the one it found. *)
Definition lock (blocks : list control_block) (weak : option nat)
  : option nat :=
  if expired blocks weak then None else weak.

(** [shared_ptr::reset()] seen from the control block: one owner less. *)
Definition release_owner (blocks : list control_block) (shared : option nat)
  : list control_block :=
  match shared with
  | Some cb =>
      match blocks !! cb with
      | Some b =>
          <[cb := {| use_count := use_count b - 1; pointee := pointee b |}]>
            blocks
      | None => blocks
      end
  | None => blocks
  end.

(** *** [connection]: construction and moves *)

(** A connection after [_weak_disconnector.reset()]. *)
Definition cleared (c : connection) : connection :=
  {| _weak_disconnector := None; _index := _index c |}.

(** [connection() : _index() {}]. *)
Definition connection_default : connection :=
  {| _weak_disconnector := None; _index := 0 |}.

(** [connection( connection&& other )]: the new object and [other] as the
    move leaves it (a moved-from [weak_ptr] is empty, the index is only
    copied). *)
Definition connection_move (other : connection) : connection * connection :=
  ({| _weak_disconnector := _weak_disconnector other;
      _index := _index other |},
   {| _weak_disconnector := None; _index := _index other |}).

(** [connection& operator=( connection&& other )] between two distinct
    objects: [this] and [other] afterwards. *)
Definition connection_move_assign (this other : connection)
  : connection * connection :=
  ({| _weak_disconnector := _weak_disconnector other;
      _index := _index other |},
   {| _weak_disconnector := None; _index := _index other |}).

Section Memory.
Context {A R W : Type}.

(** [signal_type<P,R(A...)>] without its mutex. *)
Record signal_type : Type := SignalType {
  _slots : list (slot_type A R W);
  _disconnector : disconnector;
  _shared_disconnector : option nat
}.

(** The live signals by address, every control block ever created (a
    block is never reused), and the world the slot bodies act on. *)
Record memory : Type := Memory {
  signals : gmap nat signal_type;
  blocks : list control_block;
  world : W
}.

(** *** The state and failure monad *)

Definition M (X : Type) : Type := memory → result (X * memory).

Definition ret {X : Type} (x : X) : M X := λ m, Done (x, m).

Definition bind {X Y : Type} (c : M X) (k : X → M Y) : M Y :=
  λ m, match c m with
       | Done (x, m') => k x m'
       | Failed e => Failed e
       end.

Definition fail {X : Type} (e : failure) : M X := λ _, Failed e.

(** Access to the signal stored at an address. *)
Definition get_signal (a : nat) : M signal_type :=
  λ m, match signals m !! a with
       | Some sg => Done (sg, m)
       | None => Failed use_after_free
       end.

Definition put_signal (a : nat) (sg : signal_type) : M unit :=
  λ m, Done (tt, {| signals := <[a := sg]> (signals m);
                    blocks := blocks m; world := world m |}).

End Memory.

Arguments signal_type : clear implicits.
Arguments memory : clear implicits.
Arguments M : clear implicits.

Notation "'let*' x := c 'in' k" := (bind c (λ x, k))
  (at level 10, x name, c at level 100, k at level 200,
   format "'[v' 'let*'  x  :=  c  'in' '/' k ']'").
Notation "'run' c 'in' k" := (bind c (λ _, k))
  (at level 10, c at level 100, k at level 200,
   format "'[v' 'run'  c  'in' '/' k ']'").

(** ** The operations of the library *)

Section Operations.
Context {A R W : Type}.

#[local] Abbreviation slot_type := (slot_type A R W).
#[local] Abbreviation signal_type := (signal_type A R W).
#[local] Abbreviation memory := (memory A R W).
#[local] Abbreviation M := (M A R W).

(** *** [signal_type] *)

(** [signal_type() = default]: no slots, a disconnector bound to
    nothing, no shared pointer. *)
Definition signal_default : signal_type :=
  {| _slots := []; _disconnector := {| _ptr := None |};
     _shared_disconnector := None |}.

(** Construction of a signal in free storage; the result is its
    address. *)
Definition signal_new : M nat :=
  λ m, let a := fresh (dom (signals m)) in
       Done (a, {| signals := <[a := signal_default]> (signals m);
                   blocks := blocks m; world := world m |}).

(** [connection signal_type::connect( T&& slot )] on the signal at
    address [this]. *)
Definition connect (this : nat) (slot : slot_type) : M connection :=
  let* sg := get_signal this in
  let slots := push_back (_slots sg) slot in
  let index := length slots - 1 in
  match _shared_disconnector sg with
  | None =>
      λ m, let cb := length (blocks m) in
           Done ({| _weak_disconnector := Some cb; _index := index |},
                 {| signals :=
                      <[this := {| _slots := slots;
                                   _disconnector := {| _ptr := Some this |};
                                   _shared_disconnector := Some cb |}]>
                        (signals m);
                    blocks :=
                      blocks m ++ [{| use_count := 1; pointee := this |}];
                    world := world m |})
  | Some cb =>
      run put_signal this {| _slots := slots;
                             _disconnector := _disconnector sg;
                             _shared_disconnector := Some cb |} in
      ret {| _weak_disconnector := Some cb; _index := index |}
  end.

(** [void signal_type::operator()( A const&... args ) const]. *)
Definition signal_call (this : nat) (args : A) : M unit :=
  let* sg := get_signal this in
  λ m, Done (tt, {| signals := signals m; blocks := blocks m;
                    world := call_slots (_slots sg) args (world m) |}).

(** [typename signal_accumulator<signal_type, T, F, A...>::result_type
    signal_type::trigger_with_accumulator( T value, F& func,
    A const&... args ) const]: the function returns a [result_type],
    so [return value;] converts the [T]. *)
Definition trigger_with_accumulator {T U : Type} (cv : conversions T U)
    (this : nat) (value : T) (func : T → R → U) (args : A) : M U :=
  let* sg := get_signal this in
  λ m, let '(v, w) :=
         accumulate_slots cv (_slots sg) value func args (world m) in
       Done (to_result cv v,
             {| signals := signals m; blocks := blocks m; world := w |}).

(** [class signal_accumulator]: a reference to the signal, the initial
    value and the accumulation function, whose calls on a [T] and an [R]
    have the type [U]. *)
Record signal_accumulator (T U : Type) : Type := SignalAccumulator {
  _signal : nat;
  _init : T;
  _func : T → R → U
}.
Arguments _signal {T U} _.
Arguments _init {T U} _.
Arguments _func {T U} _.

(** [signal_type::accumulate( T init, F op ) const]. *)
Definition accumulate {T U : Type} (this : nat) (init : T)
    (op : T → R → U) : signal_accumulator T U :=
  {| _signal := this; _init := init; _func := op |}.

(** [result_type signal_accumulator::operator()( A&&... args ) const]. *)
Definition accumulator_call {T U : Type} (cv : conversions T U)
    (acc : signal_accumulator T U) (args : A) : M U :=
  trigger_with_accumulator cv (_signal acc) (_init acc) (_func acc) args.

(** [void signal_type::disconnect( std::size_t index )]. *)
Definition signal_disconnect (this : nat) (index : nat) : M unit :=
  let* sg := get_signal this in
  if decide (index < length (_slots sg)) return M unit then
    put_signal this
      {| _slots := trim_back (<[index := (None : slot_type)]> (_slots sg));
         _disconnector := _disconnector sg;
         _shared_disconnector := _shared_disconnector sg |}
  else fail assertion_failed.

(** [void disconnector::operator()( std::size_t index ) const]. *)
Definition disconnector_call (d : disconnector) (index : nat) : M unit :=
  match _ptr d with
  | Some ptr => signal_disconnect ptr index
  | None => ret tt
  end.

(** [signal_type::~signal_type()]. The sequential reading of the wait
    loop: [yield_thread] changes nothing, so the loop is left at once
    when the weak pointer no longer locks and never otherwise. After
    the body the members are destroyed and the storage is gone. *)
Definition signal_destroy (this : nat) : M unit :=
  let* sg := get_signal this in
  let weak := _shared_disconnector sg in
  λ m, let blocks' := release_owner (blocks m) (_shared_disconnector sg) in
       match lock blocks' weak with
       | Some _ => Failed spins_forever
       | None =>
           Done (tt, {| signals := delete this (signals m);
                        blocks := blocks'; world := world m |})
       end.

(** *** [connection] *)

(** [bool connection::connected() const]. *)
Definition connected (c : connection) (m : memory) : bool :=
  negb (expired (blocks m) (_weak_disconnector c)).

(** [void connection::disconnect()]: the connection afterwards. A
    [ptr] that is not null names an existing block, whose pointee is the
    [disconnector] embedded in a signal; [ptr] is released at the end,
    which leaves the count of owners as it was. *)
Definition connection_disconnect (c : connection) : M connection :=
  λ m,
    (let* _ :=
       match lock (blocks m) (_weak_disconnector c) with
       | Some cb =>
           match blocks m !! cb with
           | Some b =>
               let* sg := get_signal (pointee b) in
               disconnector_call (_disconnector sg) (_index c)
           | None => ret tt
           end
       | None => ret tt
       end in
     ret (cleared c)) m.

(** *** [scoped_connection] *)

(** [scoped_connection() = default]. *)
Definition scoped_default : scoped_connection :=
  {| _connection := connection_default |}.

(** [scoped_connection( connection&& c )]: the new object and [c]
    afterwards. *)
Definition scoped_from (c : connection) : scoped_connection * connection :=
  let '(held, c') := connection_move c in
  ({| _connection := held |}, c').

(** [scoped_connection( scoped_connection&& other )]. *)
Definition scoped_move (other : scoped_connection)
  : scoped_connection * scoped_connection :=
  let '(held, moved) := connection_move (_connection other) in
  ({| _connection := held |}, {| _connection := moved |}).

(** [bool scoped_connection::connected() const]. *)
Definition scoped_connected (sc : scoped_connection) (m : memory) : bool :=
  connected (_connection sc) m.

(** [void scoped_connection::disconnect()]. *)
Definition scoped_disconnect (sc : scoped_connection) : M scoped_connection :=
  let* c := connection_disconnect (_connection sc) in
  ret {| _connection := c |}.

(** [scoped_connection::~scoped_connection()]. *)
Definition scoped_destroy (sc : scoped_connection) : M unit :=
  run scoped_disconnect sc in ret tt.

(** [void scoped_connection::reset( connection&& c = {} )]: the scoped
    connection and [c] afterwards. *)
Definition scoped_reset (sc : scoped_connection) (c : connection)
  : M (scoped_connection * connection) :=
  let* sc' := scoped_disconnect sc in
  let '(held, c') := connection_move_assign (_connection sc') c in
  ret ({| _connection := held |}, c').

(** [scoped_connection& operator=( connection&& c )]. *)
Definition scoped_assign (sc : scoped_connection) (c : connection)
  : M (scoped_connection * connection) :=
  scoped_reset sc c.

(** [connection scoped_connection::release()]: the returned connection
    and the scoped connection afterwards. *)
Definition scoped_release (sc : scoped_connection)
  : connection * scoped_connection :=
  let '(c, moved) := connection_move (_connection sc) in
  let '(held, _) := connection_move_assign moved connection_default in
  (c, {| _connection := held |}).

End Operations.

Arguments signal_accumulator : clear implicits.
Arguments _signal {R T U} _.
Arguments _init {R T U} _.
Arguments _func {R T U} _.

(** ** Memories the library can produce *)

Section Protocol.
Context {A R W : Type}.
#[local] Abbreviation memory_ := (memory A R W).

(** What holding a [shared_ptr] means: a signal whose
    [_shared_disconnector] is not null is the one owner of its control
    block, the block points back at the signal, and the embedded
    disconnector is bound to the signal; a block that still has an
    owner is owned by a live signal. *)
Definition wf_memory (m : memory_) : Prop :=
  (∀ a sg cb,
      signals m !! a = Some sg → _shared_disconnector sg = Some cb →
      blocks m !! cb = Some {| use_count := 1; pointee := a |}
      ∧ _disconnector sg = {| _ptr := Some a |})
  ∧ (∀ cb b,
      blocks m !! cb = Some b → use_count b ≠ 0 →
      ∃ sg, signals m !! pointee b = Some sg
            ∧ _shared_disconnector sg = Some cb).

(** The memory before any signal exists. *)
Definition empty_memory (w : W) : memory_ :=
  {| signals := ∅; blocks := []; world := w |}.

(** One completed call of an operation of the library, whatever the
    connection or the arguments it is called with. *)
Inductive step : memory_ → memory_ → Prop :=
  | step_new m a m' :
      signal_new m = Done (a, m') → step m m'
  | step_connect m this slot c m' :
      connect this slot m = Done (c, m') → step m m'
  | step_call m this args m' :
      signal_call this args m = Done (tt, m') → step m m'
  | step_accumulate (T U : Type) (cv : conversions T U) m
      (acc : signal_accumulator R T U) args v m' :
      accumulator_call cv acc args m = Done (v, m') → step m m'
  | step_disconnect m c c' m' :
      connection_disconnect c m = Done (c', m') → step m m'
  | step_destroy m this m' :
      signal_destroy this m = Done (tt, m') → step m m'.

(** Any number of completed calls. *)
Definition steps : memory_ → memory_ → Prop := rtc step.

End Protocol.

(** ** Client code *)

Section Clients.
Context {A R W : Type}.

(** [connect] the slots one after the other on the same signal and
    keep the connections, first one first. A slot is any
    [std::function], empty or not: [connect] takes what it is given. *)
Fixpoint connect_all (this : nat) (slots : list (slot_type A R W))
  : M A R W (list connection) :=
  match slots with
  | [] => ret []
  | slot :: slots' =>
      let* c := connect this slot in
      let* cs := connect_all this slots' in
      ret (c :: cs)
  end.

(** Call [disconnect()] on the connections of [cs] at the positions
    listed in [order], in that order; every connection object is kept
    as its [disconnect] left it. *)
Fixpoint disconnect_in_order (cs : list connection) (order : list nat)
  : M A R W (list connection) :=
  match order with
  | [] => ret cs
  | i :: order' =>
      match cs !! i with
      | Some c =>
          let* c' := connection_disconnect c in
          disconnect_in_order (<[i := c']> cs) order'
      | None => disconnect_in_order cs order'
      end
  end.

(** The signal at [this] owns block [cb], its slot vector does not end
    in a tombstone, and [cs] are connections it minted, kept at the
    position of their index: the ones that have not disconnected yet
    are exactly the non-empty slots. *)
Definition tracks (this cb : nat) (cs : list connection)
    (m : memory A R W) : Prop :=
  wf_memory m
  ∧ ∃ sg,
      signals m !! this = Some sg
      ∧ _shared_disconnector sg = Some cb
      ∧ back (_slots sg) ≠ Some None
      ∧ (∀ i c, cs !! i = Some c →
                c = Connection (Some cb) i ∨ c = Connection None i)
      ∧ (∀ i, cs !! i = Some (Connection (Some cb) i) →
              ∃ f, _slots sg !! i = Some (Some f))
      ∧ (∀ i f, _slots sg !! i = Some (Some f) →
                cs !! i = Some (Connection (Some cb) i)).

End Clients.

(** ** Programs over the public interface *)

Section Programs.
Context {A R W : Type}.

(** A variable of the client holds a connection or a scoped
    connection. *)
Inductive object : Type :=
  | Plain (c : connection)
  | Scoped (sc : scoped_connection).

(** The connection inside a variable. *)
Definition held (o : object) : connection :=
  match o with
  | Plain c => c
  | Scoped sc => _connection sc
  end.

(** The state of a client: the memory of the library and the client's
    own variables. *)
Record client : Type := Client {
  heap : memory A R W;
  objects : gmap nat object
}.

Definition initial_client (w : W) : client :=
  {| heap := empty_memory w; objects := ∅ |}.

(** What a client can do with the public interface. Signals are named by
    address, variables by number; [connect] is given a callable. *)
Inductive event : Type :=
  (** [signal_type s;] *)
  | new_signal
  (** the signal at [s] goes out of scope *)
  | destroy_signal (s : nat)
  (** [connection x = s.connect( f );], or [x = s.connect( f );] when
      [x] exists *)
  | call_connect (s : nat) (f : callable A R W) (x : nat)
  (** [s( args );] *)
  | call_signal (s : nat) (args : A)
  (** [s.accumulate( init, op )( args );] for an initial value of type
      [T] and an operator whose calls have the type [U] *)
  | call_accumulate (T U : Type) (cv : conversions T U) (s : nat)
      (init : T) (op : T → R → U) (args : A)
  (** [connection x;] *)
  | declare_connection (x : nat)
  (** [scoped_connection y;] *)
  | declare_scoped (y : nat)
  (** [x.connected();] *)
  | call_connected (x : nat)
  (** [x.disconnect();] *)
  | call_disconnect (x : nat)
  (** [connection y( std::move(x) );], or [y = std::move(x);] when the
      connection [y] exists; [scoped_connection y( std::move(x) );] when
      [x] is a scoped connection *)
  | move_to (x y : nat)
  (** [scoped_connection y( std::move(x) );] for a connection [x] *)
  | scoped_of (x y : nat)
  (** [y.reset( std::move(x) );] and [y = std::move(x);] for a scoped
      connection [y] and a connection [x] *)
  | call_reset (y x : nat)
  (** [y.reset();] *)
  | call_reset_default (y : nat)
  (** [connection x = y.release();], or [x = y.release();] when [x]
      exists *)
  | call_release (y x : nat)
  (** the variable [x] goes out of scope *)
  | end_of_scope (x : nat).

(** Running an operation of the library on the client's memory. *)
Definition on_heap {X : Type} (cl : client) (c : M A R W X)
    (k : X → memory A R W → client) : result client :=
  match c (heap cl) with
  | Done (x, m) => Done (k x m)
  | Failed e => Failed e
  end.

(** One event. [None] when the program is not a program: it names a
    signal that is not alive, a variable that does not exist or has the
    wrong type, declares a variable twice, or moves a variable into
    itself. *)
Definition client_step (ev : event) (cl : client) : option (result client) :=
  let m := heap cl in
  let objs := objects cl in
  match ev with
  | new_signal =>
      Some (on_heap cl signal_new (λ _ m', Client m' objs))
  | destroy_signal s =>
      match signals m !! s with
      | Some _ => Some (on_heap cl (signal_destroy s) (λ _ m', Client m' objs))
      | None => None
      end
  | call_connect s f x =>
      match signals m !! s, objs !! x with
      | Some _, None =>
          Some (on_heap cl (connect s (Some f))
                  (λ c m', Client m' (<[x := Plain (connection_move c).1]> objs)))
      | Some _, Some (Plain old) =>
          Some (on_heap cl (connect s (Some f))
                  (λ c m', Client m'
                     (<[x := Plain (connection_move_assign old c).1]> objs)))
      | Some _, Some (Scoped sc) =>
          Some (on_heap cl
                  (let* c := connect s (Some f) in scoped_assign sc c)
                  (λ r m', Client m' (<[x := Scoped r.1]> objs)))
      | None, _ => None
      end
  | call_signal s args =>
      match signals m !! s with
      | Some _ => Some (on_heap cl (signal_call s args) (λ _ m', Client m' objs))
      | None => None
      end
  | call_accumulate T U cv s init op args =>
      match signals m !! s with
      | Some _ =>
          Some (on_heap cl (accumulator_call cv (accumulate s init op) args)
                  (λ _ m', Client m' objs))
      | None => None
      end
  | declare_connection x =>
      match objs !! x with
      | None => Some (Done (Client m (<[x := Plain connection_default]> objs)))
      | Some _ => None
      end
  | declare_scoped y =>
      match objs !! y with
      | None => Some (Done (Client m (<[y := Scoped scoped_default]> objs)))
      | Some _ => None
      end
  | call_connected x =>
      match objs !! x with
      | Some _ => Some (Done cl)
      | None => None
      end
  | call_disconnect x =>
      match objs !! x with
      | Some (Plain c) =>
          Some (on_heap cl (connection_disconnect c)
                  (λ c' m', Client m' (<[x := Plain c']> objs)))
      | Some (Scoped sc) =>
          Some (on_heap cl (scoped_disconnect sc)
                  (λ sc' m', Client m' (<[x := Scoped sc']> objs)))
      | None => None
      end
  | move_to x y =>
      if decide (x = y) then None else
      match objs !! x, objs !! y with
      | Some (Plain c), None =>
          let '(new, c') := connection_move c in
          Some (Done (Client m (<[y := Plain new]> (<[x := Plain c']> objs))))
      | Some (Plain c), Some (Plain old) =>
          let '(new, c') := connection_move_assign old c in
          Some (Done (Client m (<[y := Plain new]> (<[x := Plain c']> objs))))
      | Some (Scoped sc), None =>
          let '(new, sc') := scoped_move sc in
          Some (Done (Client m (<[y := Scoped new]> (<[x := Scoped sc']> objs))))
      | _, _ => None
      end
  | scoped_of x y =>
      if decide (x = y) then None else
      match objs !! x, objs !! y with
      | Some (Plain c), None =>
          let '(new, c') := scoped_from c in
          Some (Done (Client m (<[y := Scoped new]> (<[x := Plain c']> objs))))
      | _, _ => None
      end
  | call_reset y x =>
      if decide (x = y) then None else
      match objs !! y, objs !! x with
      | Some (Scoped sc), Some (Plain c) =>
          Some (on_heap cl (scoped_reset sc c)
                  (λ r m', Client m'
                     (<[y := Scoped r.1]> (<[x := Plain r.2]> objs))))
      | _, _ => None
      end
  | call_reset_default y =>
      match objs !! y with
      | Some (Scoped sc) =>
          Some (on_heap cl (scoped_reset sc connection_default)
                  (λ r m', Client m' (<[y := Scoped r.1]> objs)))
      | _ => None
      end
  | call_release y x =>
      if decide (x = y) then None else
      match objs !! y, objs !! x with
      | Some (Scoped sc), None =>
          let '(c, sc') := scoped_release sc in
          Some (Done (Client m
                  (<[x := Plain (connection_move c).1]>
                     (<[y := Scoped sc']> objs))))
      | Some (Scoped sc), Some (Plain old) =>
          let '(c, sc') := scoped_release sc in
          Some (Done (Client m
                  (<[x := Plain (connection_move_assign old c).1]>
                     (<[y := Scoped sc']> objs))))
      | _, _ => None
      end
  | end_of_scope x =>
      match objs !! x with
      | Some (Plain _) => Some (Done (Client m (delete x objs)))
      | Some (Scoped sc) =>
          Some (on_heap cl (scoped_destroy sc)
                  (λ _ m', Client m' (delete x objs)))
      | None => None
      end
  end.

(** A program is a list of events; it stops at the first event that
    fails or is not one. *)
Fixpoint run_events (evs : list event) (cl : client)
  : option (result client) :=
  match evs with
  | [] => Some (Done cl)
  | ev :: evs' =>
      match client_step ev cl with
      | Some (Done cl') => run_events evs' cl'
      | other => other
      end
  end.

(** The invariant of the protocol: the memory is well-formed; every
    connection a variable holds names a control block that exists; while
    the block has an owner, the index of the connection addresses a
    non-empty slot of the signal the block points to; and no two
    variables hold the same block and index. *)
Definition client_inv (cl : client) : Prop :=
  wf_memory (heap cl)
  ∧ (∀ x o cb,
        objects cl !! x = Some o →
        _weak_disconnector (held o) = Some cb →
        ∃ b, blocks (heap cl) !! cb = Some b
             ∧ (use_count b ≠ 0 →
                ∃ sg f, signals (heap cl) !! pointee b = Some sg
                        ∧ _slots sg !! _index (held o) = Some (Some f)))
  ∧ (∀ x y ox oy cb,
        objects cl !! x = Some ox → objects cl !! y = Some oy →
        _weak_disconnector (held ox) = Some cb →
        _weak_disconnector (held oy) = Some cb →
        _index (held ox) = _index (held oy) →
        x = y).

End Programs.

Arguments object : clear implicits.
Arguments client : clear implicits.
Arguments event : clear implicits.

Section Trimmed.
Context {A R W : Type}.

(** No slot vector ends in an empty slot. *)
Definition trimmed (m : memory A R W) : Prop :=
  ∀ a sg, signals m !! a = Some sg → back (_slots sg) ≠ Some None.

End Trimmed.

(** ** Two threads: the destructor against [connection::disconnect] *)

Section Teardown.
Context {A R W : Type}.

(** [weak_ptr::lock()] as one atomic step on the control blocks: when the
    block still has an owner the caller becomes one more. *)
Definition acquire (blocks : list control_block) (weak : option nat)
  : option nat * list control_block :=
  match lock blocks weak with
  | Some cb =>
      match blocks !! cb with
      | Some b =>
          (Some cb,
           <[cb := {| use_count := S (use_count b); pointee := pointee b |}]>
             blocks)
      | None => (None, blocks)
      end
  | None => (None, blocks)
  end.

(** Where the thread running [signal_type::~signal_type()] stands; the
    local [weak] and the temporary of the loop condition are kept with
    the position. *)
Inductive destructor_at : Type :=
  (** before [std::weak_ptr<detail::disconnector> weak{_shared_disconnector};] *)
  | d_start
  (** before [_shared_disconnector.reset();] *)
  | d_reset (weak : option nat)
  (** before the [weak.lock()] of the loop condition *)
  | d_lock (weak : option nat)
  (** the temporary is compared with [nullptr] and destroyed *)
  | d_test (weak : option nat) (tmp : option nat)
  (** before [thread_policy::yield_thread();] *)
  | d_yield (weak : option nat)
  (** the body is left; the members are destroyed next *)
  | d_members
  (** the storage of the signal is gone *)
  | d_done.

(** Where the thread running [connection::disconnect()] stands, with the
    local [ptr]. *)
Inductive disconnect_at : Type :=
  (** before [auto ptr = _weak_disconnector.lock();] *)
  | c_start
  (** before [if( ptr )] *)
  | c_test (ptr : option nat)
  (** before the call of [*ptr] on [_index]: [disconnector::operator()] reads [_ptr] *)
  | c_call (ptr : nat)
  (** in [signal_type::disconnect]: the lock guard takes [_mutex] *)
  | c_mutex (ptr : nat) (sig : nat)
  (** the [assert], the assignment and the trim loop, under the mutex *)
  | c_body (ptr : nat) (sig : nat)
  (** the lock guard releases [_mutex] *)
  | c_unlock (ptr : nat) (sig : nat)
  (** before [_weak_disconnector.reset();] *)
  | c_reset (ptr : option nat)
  (** [ptr] goes out of scope *)
  | c_release (ptr : option nat)
  | c_done.

(** The two threads and what they share. *)
Record threads : Type := Threads {
  shared_memory : memory A R W;
  destroyed : nat;
  destructor : destructor_at;
  handle : connection;
  disconnecting : disconnect_at
}.

Definition with_memory (st : threads) (m : memory A R W) : threads :=
  {| shared_memory := m; destroyed := destroyed st;
     destructor := destructor st; handle := handle st;
     disconnecting := disconnecting st |}.

Definition with_blocks (st : threads) (bs : list control_block) : threads :=
  with_memory st {| signals := signals (shared_memory st); blocks := bs;
                    world := world (shared_memory st) |}.

Definition destructor_to (st : threads) (at_ : destructor_at) : threads :=
  {| shared_memory := shared_memory st; destroyed := destroyed st;
     destructor := at_; handle := handle st;
     disconnecting := disconnecting st |}.

Definition disconnect_to (st : threads) (at_ : disconnect_at) : threads :=
  {| shared_memory := shared_memory st; destroyed := destroyed st;
     destructor := destructor st; handle := handle st;
     disconnecting := at_ |}.

(** One step of the destructor of the signal at [destroyed st]. Every
    use of a member of the signal needs its storage. *)
Definition destructor_step (st : threads) : option (result threads) :=
  let m := shared_memory st in
  let this := destroyed st in
  match destructor st with
  | d_start =>
      Some match signals m !! this with
           | Some sg => Done (destructor_to st (d_reset (_shared_disconnector sg)))
           | None => Failed use_after_free
           end
  | d_reset weak =>
      Some match signals m !! this with
           | Some sg =>
               Done (destructor_to
                       (with_memory st
                          {| signals :=
                               <[this := {| _slots := _slots sg;
                                            _disconnector := _disconnector sg;
                                            _shared_disconnector := None |}]>
                                 (signals m);
                             blocks :=
                               release_owner (blocks m)
                                 (_shared_disconnector sg);
                             world := world m |})
                       (d_lock weak))
           | None => Failed use_after_free
           end
  | d_lock weak =>
      let '(tmp, bs) := acquire (blocks m) weak in
      Some (Done (destructor_to (with_blocks st bs) (d_test weak tmp)))
  | d_test weak tmp =>
      Some (Done (destructor_to
                    (with_blocks st (release_owner (blocks m) tmp))
                    (match tmp with
                     | Some _ => d_yield weak
                     | None => d_members
                     end)))
  | d_yield weak => Some (Done (destructor_to st (d_lock weak)))
  | d_members =>
      Some (Done (destructor_to
                    (with_memory st
                       {| signals := delete this (signals m);
                          blocks := blocks m; world := world m |})
                    d_done))
  | d_done => None
  end.

(** One step of [handle st . disconnect()]. *)
Definition disconnect_step (st : threads) : option (result threads) :=
  let m := shared_memory st in
  let c := handle st in
  match disconnecting st with
  | c_start =>
      let '(ptr, bs) := acquire (blocks m) (_weak_disconnector c) in
      Some (Done (disconnect_to (with_blocks st bs) (c_test ptr)))
  | c_test ptr =>
      Some (Done (disconnect_to st match ptr with
                                   | Some p => c_call p
                                   | None => c_reset None
                                   end))
  | c_call p =>
      Some match blocks m !! p with
           | Some b =>
               match signals m !! pointee b with
               | Some sg =>
                   Done (disconnect_to st
                           match _ptr (_disconnector sg) with
                           | Some sig => c_mutex p sig
                           | None => c_reset (Some p)
                           end)
               | None => Failed use_after_free
               end
           | None => Failed use_after_free
           end
  | c_mutex p sig =>
      Some match signals m !! sig with
           | Some _ => Done (disconnect_to st (c_body p sig))
           | None => Failed use_after_free
           end
  | c_body p sig =>
      Some match signal_disconnect sig (_index c) m with
           | Done (_, m') => Done (disconnect_to (with_memory st m') (c_unlock p sig))
           | Failed e => Failed e
           end
  | c_unlock p sig =>
      Some match signals m !! sig with
           | Some _ => Done (disconnect_to st (c_reset (Some p)))
           | None => Failed use_after_free
           end
  | c_reset ptr =>
      Some (Done {| shared_memory := m; destroyed := destroyed st;
                    destructor := destructor st; handle := cleared c;
                    disconnecting := c_release ptr |})
  | c_release ptr =>
      Some (Done (disconnect_to
                    (with_blocks st (release_owner (blocks m) ptr)) c_done))
  | c_done => None
  end.

(** The scheduler picks either thread for the next step. *)
Inductive interleaved : threads → threads → Prop :=
  | destructor_runs st st' :
      destructor_step st = Some (Done st') → interleaved st st'
  | disconnect_runs st st' :
      disconnect_step st = Some (Done st') → interleaved st st'.

(** The strong reference each thread holds at a position. *)
Definition destructor_holds (at_ : destructor_at) : option nat :=
  match at_ with
  | d_test _ tmp => tmp
  | _ => None
  end.

Definition disconnect_holds (at_ : disconnect_at) : option nat :=
  match at_ with
  | c_test ptr | c_reset ptr | c_release ptr => ptr
  | c_call p | c_mutex p _ | c_body p _ | c_unlock p _ => Some p
  | c_start | c_done => None
  end.

(** The signal still has its own reference: [reset()] has not run. *)
Definition signal_holds (at_ : destructor_at) : bool :=
  match at_ with
  | d_start | d_reset _ => true
  | _ => false
  end.

(** The destructor has seen [weak.lock()] return [nullptr]. *)
Definition wait_is_over (at_ : destructor_at) : bool :=
  match at_ with
  | d_test _ None | d_members | d_done => true
  | _ => false
  end.

(** [disconnect] has not yet emptied its slot. *)
Definition slot_pending (at_ : disconnect_at) : bool :=
  match at_ with
  | c_start | c_test _ | c_call _ | c_mutex _ _ | c_body _ _ => true
  | _ => false
  end.

(** [disconnect] is inside the signal: it reads [_disconnector], holds
    [_mutex] or works on [_slots]. *)
Definition inside_signal (at_ : disconnect_at) : bool :=
  match at_ with
  | c_call _ | c_mutex _ _ | c_body _ _ | c_unlock _ _ => true
  | _ => false
  end.

Definition one_if {X : Type} (o : option X) : nat :=
  match o with Some _ => 1 | None => 0 end.

(** What holds in every state the two threads can reach, for the
    control block [cb] of the signal and the slot vector [slots] it
    has when they start. *)
Definition teardown_inv (cb : nat) (slots : list (slot_type A R W))
    (st : threads) : Prop :=
  let m := shared_memory st in
  let this := destroyed st in
  (∃ b, blocks m !! cb = Some b
        ∧ pointee b = this
        ∧ use_count b
          = (if signal_holds (destructor st) then 1 else 0)
            + one_if (disconnect_holds (disconnecting st))
            + one_if (destructor_holds (destructor st)))
  ∧ match destructor st with
    | d_done => signals m !! this = None
    | _ =>
        ∃ sg, signals m !! this = Some sg
              ∧ _disconnector sg = {| _ptr := Some this |}
              ∧ _shared_disconnector sg
                = (if signal_holds (destructor st) then Some cb else None)
              ∧ (slot_pending (disconnecting st) = true →
                 _slots sg = slots)
    end
  ∧ (∀ p, disconnect_holds (disconnecting st) = Some p → p = cb)
  ∧ (∀ p, destructor_holds (destructor st) = Some p → p = cb)
  ∧ match destructor st with
    | d_reset w | d_lock w | d_test w _ | d_yield w => w = Some cb
    | _ => True
    end
  ∧ (wait_is_over (destructor st) = true →
     disconnect_holds (disconnecting st) = None)
  ∧ (∀ p, _weak_disconnector (handle st) = Some p → p = cb)
  ∧ match disconnecting st with
    | c_mutex _ sig | c_body _ sig | c_unlock _ sig => sig = this
    | c_release _ | c_done => _weak_disconnector (handle st) = None
    | _ => True
    end.

(** A schedule names the thread that takes each step: [true] for the
    destructor, [false] for [disconnect]. It runs as long as the chosen
    thread has a step that succeeds. *)
Fixpoint run_schedule (schedule : list bool) (st : threads)
  : option threads :=
  match schedule with
  | [] => Some st
  | pick :: rest =>
      match (if pick then destructor_step st else disconnect_step st) with
      | Some (Done st') => run_schedule rest st'
      | _ => None
      end
  end.

(** The states before either thread has started: the signal at [this]
    is alive in a well-formed memory and [c] is a connection it
    returned. *)
Definition teardown_start (m : memory A R W) (this : nat) (c : connection)
  : threads :=
  {| shared_memory := m; destroyed := this; destructor := d_start;
     handle := c; disconnecting := c_start |}.

End Teardown.

Arguments threads : clear implicits.

(** ** Two threads on one signal: the threading policies *)

(** The policy [P] of [signal_type<P,R(A...)>]: [signal] is
    [signal_type<multithread_policy,T>] and [unsafe_signal] is
    [signal_type<singlethread_policy,T>]. *)
Inductive policy : Type :=
  (** [mutex_type = std::mutex], [mutex_lock_type = std::lock_guard] *)
  | multithread_policy
  (** a dummy mutex and a lock whose constructor does nothing *)
  | singlethread_policy.

(** [mutex_lock_type lock{ _mutex }] on the mutex of the signal at
    [this], given the mutexes that are held: [std::lock_guard] takes
    the mutex when it is free and cannot go on while it is held; the
    lock of [singlethread_policy] never waits and takes nothing. *)
Definition lock_guard (P : policy) (this : nat) (taken : gset nat)
  : option (gset nat) :=
  match P with
  | multithread_policy =>
      if decide (this ∈ taken) then None else Some ({[this]} ∪ taken)
  | singlethread_policy => Some taken
  end.

(** The destructor of the lock at the end of the scope. *)
Definition unlock_guard (P : policy) (this : nat) (taken : gset nat)
  : gset nat :=
  match P with
  | multithread_policy => taken ∖ {[this]}
  | singlethread_policy => taken
  end.

(** What stops a thread for good: the [assert] of
    [signal_type::disconnect], the use of a member of a signal whose
    storage is gone, and [_slots[ index ]] outside the vector. *)
Inductive fault : Type :=
  | fault_assert
  | fault_storage
  | fault_bounds.

(** Where a thread stands in [signal_type::connect]. *)
Inductive connect_at : Type :=
  (** before [mutex_lock_type lock{ _mutex };] *)
  | k_lock
  (** before [_slots.push_back( std::forward<T>(slot) );] *)
  | k_push
  (** before [std::size_t index = _slots.size()-1;] *)
  | k_index
  (** before [if( _shared_disconnector == nullptr )] *)
  | k_test (index : nat)
  (** before [_disconnector = disconnector{ this };] *)
  | k_bind (index : nat)
  (** before [_shared_disconnector = std::shared_ptr<detail::disconnector>{&_disconnector, detail::no_delete};] *)
  | k_share (index : nat)
  (** before [return connection{ _shared_disconnector, index };] *)
  | k_return (index : nat)
  (** the result is built; the lock guard is destroyed next *)
  | k_unlock (c : connection)
  (** returned *)
  | k_done (c : connection).

(** Where a thread stands in [signal_type::operator()]. *)
Inductive call_at : Type :=
  (** before [mutex_lock_type lock{ _mutex };] *)
  | t_lock
  (** the range-for stands at element [i]: the end test, [if( slot )]
      and the call *)
  | t_loop (i : nat)
  (** the lock guard is destroyed next *)
  | t_unlock
  | t_done.

(** Where a thread stands in [connection::disconnect], with the local
    [ptr] and, inside [signal_type::disconnect], the signal it works
    on. *)
Inductive erase_at : Type :=
  (** before [auto ptr = _weak_disconnector.lock();] *)
  | p_start
  (** before [if( ptr )] *)
  | p_test (ptr : option nat)
  (** before the call of [*ptr] on [_index]: [disconnector::operator()]
      reads [_ptr] *)
  | p_call (ptr : nat)
  (** in [signal_type::disconnect], before
      [mutex_lock_type lock( _mutex );] *)
  | p_lock (ptr : nat) (sig : nat)
  (** before [assert( _slots.size() > index );] *)
  | p_assert (ptr : nat) (sig : nat)
  (** before [_slots[ index ] = slot_type{};] *)
  | p_assign (ptr : nat) (sig : nat)
  (** at the condition of the [while] loop; one iteration is the test
      and [_slots.pop_back();] *)
  | p_trim (ptr : nat) (sig : nat)
  (** the lock guard is destroyed next *)
  | p_unlock (ptr : nat) (sig : nat)
  (** before [_weak_disconnector.reset();] *)
  | p_reset (ptr : option nat)
  (** [ptr] goes out of scope *)
  | p_release (ptr : option nat)
  | p_done.

Section Pool.
Context {A R W : Type}.

(** Replacing the signal stored at an address. *)
Definition set_signal (m : memory A R W) (this : nat)
    (sg : signal_type A R W) : memory A R W :=
  {| signals := <[this := sg]> (signals m); blocks := blocks m;
     world := world m |}.

(** A signal with another slot vector. *)
Definition with_slots (sg : signal_type A R W)
    (slots : list (slot_type A R W)) : signal_type A R W :=
  {| _slots := slots; _disconnector := _disconnector sg;
     _shared_disconnector := _shared_disconnector sg |}.

(** What a thread is running: a call of [connect], of [operator()] or
    of [connection::disconnect], with the arguments of the call (the
    connection object for [disconnect]) and the position in it. *)
Inductive task : Type :=
  | in_connect (this : nat) (slot : slot_type A R W) (at_ : connect_at)
  | in_call (this : nat) (args : A) (at_ : call_at)
  | in_disconnect (c : connection) (at_ : erase_at).

(** A step of a thread either goes on, with the task, the memory and
    the mutexes as it leaves them, or breaks. *)
Inductive outcome : Type :=
  | Goes (t : task) (m : memory A R W) (taken : gset nat)
  | Breaks (what : fault).

(** Every use of a member of a signal needs its storage. *)
Definition on_signal (m : memory A R W) (this : nat)
    (k : signal_type A R W → outcome) : outcome :=
  match signals m !! this with
  | Some sg => k sg
  | None => Breaks fault_storage
  end.

(** One step of a task. [None]: the thread cannot take a step now, it
    has returned or waits for a mutex. *)
Definition task_step (P : policy) (t : task) (m : memory A R W)
    (taken : gset nat) : option outcome :=
  match t with
  | in_connect this slot at_ =>
      match at_ with
      | k_lock =>
          match signals m !! this with
          | Some _ =>
              match lock_guard P this taken with
              | Some held' => Some (Goes (in_connect this slot k_push) m held')
              | None => None
              end
          | None => Some (Breaks fault_storage)
          end
      | k_push =>
          Some (on_signal m this (λ sg,
            Goes (in_connect this slot k_index)
                 (set_signal m this
                    (with_slots sg (push_back (_slots sg) slot)))
                 taken))
      | k_index =>
          Some (on_signal m this (λ sg,
            Goes (in_connect this slot (k_test (length (_slots sg) - 1)))
                 m taken))
      | k_test index =>
          Some (on_signal m this (λ sg,
            Goes (in_connect this slot
                    match _shared_disconnector sg with
                    | None => k_bind index
                    | Some _ => k_return index
                    end)
                 m taken))
      | k_bind index =>
          Some (on_signal m this (λ sg,
            Goes (in_connect this slot (k_share index))
                 (set_signal m this
                    {| _slots := _slots sg;
                       _disconnector := {| _ptr := Some this |};
                       _shared_disconnector := _shared_disconnector sg |})
                 taken))
      | k_share index =>
          Some (on_signal m this (λ sg,
            Goes (in_connect this slot (k_return index))
                 {| signals :=
                      <[this := {| _slots := _slots sg;
                                   _disconnector := _disconnector sg;
                                   _shared_disconnector :=
                                     Some (length (blocks m)) |}]>
                        (signals m);
                    blocks :=
                      release_owner (blocks m) (_shared_disconnector sg)
                      ++ [{| use_count := 1; pointee := this |}];
                    world := world m |}
                 taken))
      | k_return index =>
          Some (on_signal m this (λ sg,
            Goes (in_connect this slot
                    (k_unlock {| _weak_disconnector := _shared_disconnector sg;
                                 _index := index |}))
                 m taken))
      | k_unlock c =>
          Some (on_signal m this (λ _,
            Goes (in_connect this slot (k_done c)) m
                 (unlock_guard P this taken)))
      | k_done _ => None
      end
  | in_call this args at_ =>
      match at_ with
      | t_lock =>
          match signals m !! this with
          | Some _ =>
              match lock_guard P this taken with
              | Some held' => Some (Goes (in_call this args (t_loop 0)) m held')
              | None => None
              end
          | None => Some (Breaks fault_storage)
          end
      | t_loop i =>
          Some (on_signal m this (λ sg,
            match _slots sg !! i with
            | Some (Some f) =>
                Goes (in_call this args (t_loop (S i)))
                     {| signals := signals m; blocks := blocks m;
                        world := (f args (world m)).2 |}
                     taken
            | Some None => Goes (in_call this args (t_loop (S i))) m taken
            | None => Goes (in_call this args t_unlock) m taken
            end))
      | t_unlock =>
          Some (on_signal m this (λ _,
            Goes (in_call this args t_done) m (unlock_guard P this taken)))
      | t_done => None
      end
  | in_disconnect c at_ =>
      match at_ with
      | p_start =>
          let '(ptr, bs) := acquire (blocks m) (_weak_disconnector c) in
          Some (Goes (in_disconnect c (p_test ptr))
                     {| signals := signals m; blocks := bs; world := world m |}
                     taken)
      | p_test ptr =>
          Some (Goes (in_disconnect c match ptr with
                                      | Some p => p_call p
                                      | None => p_reset None
                                      end)
                     m taken)
      | p_call p =>
          Some match blocks m !! p with
               | Some b =>
                   on_signal m (pointee b) (λ sg,
                     Goes (in_disconnect c
                             match _ptr (_disconnector sg) with
                             | Some sig => p_lock p sig
                             | None => p_reset (Some p)
                             end)
                          m taken)
               | None => Breaks fault_storage
               end
      | p_lock p sig =>
          match signals m !! sig with
          | Some _ =>
              match lock_guard P sig taken with
              | Some held' =>
                  Some (Goes (in_disconnect c (p_assert p sig)) m held')
              | None => None
              end
          | None => Some (Breaks fault_storage)
          end
      | p_assert p sig =>
          Some (on_signal m sig (λ sg,
            if decide (_index c < length (_slots sg))
            then Goes (in_disconnect c (p_assign p sig)) m taken
            else Breaks fault_assert))
      | p_assign p sig =>
          Some (on_signal m sig (λ sg,
            if decide (_index c < length (_slots sg))
            then Goes (in_disconnect c (p_trim p sig))
                      (set_signal m sig
                         (with_slots sg (<[_index c := None]> (_slots sg))))
                      taken
            else Breaks fault_bounds))
      | p_trim p sig =>
          Some (on_signal m sig (λ sg,
            match back (_slots sg) with
            | Some None =>
                Goes (in_disconnect c (p_trim p sig))
                     (set_signal m sig (with_slots sg (pop_back (_slots sg))))
                     taken
            | _ => Goes (in_disconnect c (p_unlock p sig)) m taken
            end))
      | p_unlock p sig =>
          Some (on_signal m sig (λ _,
            Goes (in_disconnect c (p_reset (Some p))) m
                 (unlock_guard P sig taken)))
      | p_reset ptr =>
          Some (Goes (in_disconnect (cleared c) (p_release ptr)) m taken)
      | p_release ptr =>
          Some (Goes (in_disconnect c p_done)
                     {| signals := signals m;
                        blocks := release_owner (blocks m) ptr;
                        world := world m |}
                     taken)
      | p_done => None
      end
  end.

(** Two threads, the memory they share and the mutexes that are
    held. *)
Record pool : Type := Pool {
  pool_memory : memory A R W;
  mutexes : gset nat;
  first : task;
  second : task
}.

(** One step of a thread of the pool: [false] names the first thread,
    [true] the second. *)
Definition thread_step (P : policy) (who : bool) (st : pool)
  : option (fault + pool) :=
  match task_step P (if who then second st else first st)
          (pool_memory st) (mutexes st) with
  | Some (Goes t m taken) =>
      Some (inr {| pool_memory := m; mutexes := taken;
                   first := if who then first st else t;
                   second := if who then t else second st |})
  | Some (Breaks what) => Some (inl what)
  | None => None
  end.

(** The scheduler picks a thread that can take a step. *)
Definition pool_step (P : policy) (st st' : pool) : Prop :=
  ∃ who, thread_step P who st = Some (inr st').

(** A schedule names the thread that takes each step; it runs as long
    as the chosen thread has a step that goes on. *)
Fixpoint run_pool (P : policy) (schedule : list bool) (st : pool)
  : option pool :=
  match schedule with
  | [] => Some st
  | who :: rest =>
      match thread_step P who st with
      | Some (inr st') => run_pool P rest st'
      | _ => None
      end
  end.

(** The call a task is a position of, run in one piece by the
    sequential operations; the result is the task as it returns. *)
Definition atomically (t : task) : M A R W task :=
  match t with
  | in_connect this slot _ =>
      let* c := connect this slot in ret (in_connect this slot (k_done c))
  | in_call this args _ =>
      run signal_call this args in ret (in_call this args t_done)
  | in_disconnect c _ =>
      let* c' := connection_disconnect c in ret (in_disconnect c' p_done)
  end.

(** The task at the start of its call. *)
Definition restart (t : task) : task :=
  match t with
  | in_connect this slot _ => in_connect this slot k_lock
  | in_call this args _ => in_call this args t_lock
  | in_disconnect c _ => in_disconnect c p_start
  end.

(** The task has returned. *)
Definition has_returned (t : task) : bool :=
  match t with
  | in_connect _ _ (k_done _) | in_call _ _ t_done
  | in_disconnect _ p_done => true
  | _ => false
  end.

End Pool.

Arguments task : clear implicits.
Arguments outcome : clear implicits.
Arguments pool : clear implicits.

(** *** What holds while two threads run under [multithread_policy] *)

Section PoolInvariant.
Context {A R W : Type}.

(** The thread is between the constructor and the destructor of its
    lock guard. *)
Definition is_inside (t : task A R W) : bool :=
  match t with
  | in_connect _ _ at_ =>
      match at_ with k_lock | k_done _ => false | _ => true end
  | in_call _ _ at_ =>
      match at_ with t_lock | t_done => false | _ => true end
  | in_disconnect _ at_ =>
      match at_ with
      | p_assert _ _ | p_assign _ _ | p_trim _ _ | p_unlock _ _ => true
      | _ => false
      end
  end.

(** The lock guard of the thread has been destroyed. *)
Definition is_after (t : task A R W) : bool :=
  match t with
  | in_connect _ _ (k_done _) | in_call _ _ t_done => true
  | in_disconnect _ (p_reset _ | p_release _ | p_done) => true
  | _ => false
  end.

(** The strong reference the thread holds in its local [ptr]. *)
Definition task_holds (t : task A R W) : option nat :=
  match t with
  | in_disconnect _ at_ =>
      match at_ with
      | p_test ptr | p_reset ptr | p_release ptr => ptr
      | p_call p | p_lock p _ | p_assert p _ | p_assign p _
      | p_trim p _ | p_unlock p _ => Some p
      | p_start | p_done => None
      end
  | _ => None
  end.

(** The memory of the pool without the references the threads hold in
    their locals: what the memory is once they have dropped them. *)
Definition settled (st : pool A R W) : memory A R W :=
  {| signals := signals (pool_memory st);
     blocks := release_owner
                 (release_owner (blocks (pool_memory st))
                    (task_holds (first st)))
                 (task_holds (second st));
     world := world (pool_memory st) |}.

(** The task as it returns, once its lock guard has been destroyed. *)
Definition as_returned (t : task A R W) : task A R W :=
  match t with
  | in_disconnect c (p_reset _) => in_disconnect (cleared c) p_done
  | in_disconnect c (p_release _) => in_disconnect c p_done
  | _ => t
  end.

(** The connection is one of the signal and its slot is not empty. *)
Definition addresses (c : connection) (sg : signal_type A R W) : Prop :=
  ∃ cb f, _weak_disconnector c = Some cb
          ∧ _shared_disconnector sg = Some cb
          ∧ _slots sg !! _index c = Some (Some f).

(** Two calls of [disconnect] are calls on connections of different
    slots. *)
Definition apart (t1 t2 : task A R W) : Prop :=
  match t1, t2 with
  | in_disconnect c1 _, in_disconnect c2 _ => _index c1 ≠ _index c2
  | _, _ => True
  end.

(** The task is a call on the signal at [this], or on a connection of
    one of its non-empty slots. *)
Definition ready (m : memory A R W) (this : nat) (t : task A R W) : Prop :=
  match t with
  | in_connect s _ _ | in_call s _ _ => s = this
  | in_disconnect c _ =>
      ∃ sg, signals m !! this = Some sg ∧ addresses c sg
  end.

(** What the position of a task says about the signal at [this]. *)
Definition task_ok (this : nat) (sg : signal_type A R W) (t : task A R W)
  : Prop :=
  match t with
  | in_connect s _ _ | in_call s _ _ => s = this
  | in_disconnect c at_ =>
      match at_ with
      | p_start => addresses c sg
      | p_test ptr => addresses c sg ∧ ptr = _weak_disconnector c
      | p_call p => addresses c sg ∧ Some p = _weak_disconnector c
      | p_lock p sig | p_assert p sig | p_assign p sig =>
          addresses c sg ∧ Some p = _weak_disconnector c ∧ sig = this
      | p_trim p sig | p_unlock p sig =>
          _shared_disconnector sg = Some p ∧ sig = this
      | p_reset ptr | p_release ptr =>
          ∃ p, ptr = Some p ∧ _shared_disconnector sg = Some p
      | p_done => True
      end
  end.

(** [disconnect] on [c] reaches the slot of [c] in the signal at
    [this]. *)
Definition live_in (c : connection) (this : nat) (mb : memory A R W)
  : Prop :=
  ∃ cb sg f,
    _weak_disconnector c = Some cb
    ∧ blocks mb !! cb = Some {| use_count := 1; pointee := this |}
    ∧ signals mb !! this = Some sg
    ∧ _disconnector sg = {| _ptr := Some this |}
    ∧ _slots sg !! _index c = Some (Some f).

(** The memory [b] a thread has made of the memory [mb] in which it
    took the mutex, position by position. *)
Definition midway (this : nat) (t : task A R W) (mb b : memory A R W)
  : Prop :=
  match t with
  | in_connect s slot at_ =>
      ∃ sg, signals mb !! this = Some sg ∧
      match at_ with
      | k_push => b = mb
      | k_index =>
          b = set_signal mb this (with_slots sg (_slots sg ++ [slot]))
      | k_test index =>
          b = set_signal mb this (with_slots sg (_slots sg ++ [slot]))
          ∧ index = length (_slots sg)
      | k_bind index =>
          b = set_signal mb this (with_slots sg (_slots sg ++ [slot]))
          ∧ index = length (_slots sg)
          ∧ _shared_disconnector sg = None
      | k_share index =>
          b = set_signal mb this
                {| _slots := _slots sg ++ [slot];
                   _disconnector := {| _ptr := Some this |};
                   _shared_disconnector := None |}
          ∧ index = length (_slots sg)
          ∧ _shared_disconnector sg = None
      | k_return index =>
          ∃ c, connect this slot mb = Done (c, b) ∧ _index c = index
      | k_unlock c => connect this slot mb = Done (c, b)
      | k_lock | k_done _ => False
      end
  | in_call s args at_ =>
      ∃ sg, signals mb !! this = Some sg ∧
      match at_ with
      | t_loop i =>
          b = {| signals := signals mb; blocks := blocks mb;
                 world := call_slots (take i (_slots sg)) args (world mb) |}
      | t_unlock => signal_call this args mb = Done (tt, b)
      | t_lock | t_done => False
      end
  | in_disconnect c at_ =>
      match at_ with
      | p_assert _ _ | p_assign _ _ => b = mb ∧ live_in c this mb
      | p_trim _ _ =>
          live_in c this mb
          ∧ ∃ sg slots k,
              signals mb !! this = Some sg
              ∧ b = set_signal mb this (with_slots sg slots)
              ∧ <[_index c := None]> (_slots sg) = slots ++ replicate k None
      | p_unlock _ _ => connection_disconnect c mb = Done (cleared c, b)
      | _ => False
      end
  end.

(** The calls whose lock guard has been destroyed have taken effect one
    after the other, from the memory [m0] the threads started in:
    [mb] is what they have made of it, and each has the result of its
    sequential run. [j1] and [j2] are the calls at their start. *)
Definition committed (m0 : memory A R W) (j1 j2 t1 t2 : task A R W)
    (mb : memory A R W) : Prop :=
  match is_after t1, is_after t2 with
  | false, false => mb = m0
  | true, false => atomically j1 m0 = Done (as_returned t1, mb)
  | false, true => atomically j2 m0 = Done (as_returned t2, mb)
  | true, true =>
      (∃ ma, atomically j1 m0 = Done (as_returned t1, ma)
             ∧ atomically j2 ma = Done (as_returned t2, mb))
      ∨ (∃ ma, atomically j2 m0 = Done (as_returned t2, ma)
               ∧ atomically j1 ma = Done (as_returned t1, mb))
  end.

(** The invariant of two threads working on the signal at [this]. *)
Definition pool_inv (m0 : memory A R W) (this : nat) (j1 j2 : task A R W)
    (st : pool A R W) : Prop :=
  let t1 := first st in
  let t2 := second st in
  let b := settled st in
  apart t1 t2
  ∧ mutexes st = (if is_inside t1 || is_inside t2 then {[this]} else ∅)
  ∧ is_inside t1 && is_inside t2 = false
  ∧ (is_after t1 = false → restart t1 = j1)
  ∧ (is_after t2 = false → restart t2 = j2)
  ∧ (∃ sg, signals b !! this = Some sg
           ∧ (∀ cb, _shared_disconnector sg = Some cb →
                    blocks b !! cb = Some {| use_count := 1; pointee := this |}
                    ∧ _disconnector sg = {| _ptr := Some this |})
           ∧ task_ok this sg t1 ∧ task_ok this sg t2)
  ∧ (∃ mb, committed m0 j1 j2 t1 t2 mb
           ∧ if is_inside t1 then midway this t1 mb b
             else if is_inside t2 then midway this t2 mb b
             else b = mb).

(** The pool with its threads exchanged. *)
Definition swap (st : pool A R W) : pool A R W :=
  {| pool_memory := pool_memory st; mutexes := mutexes st;
     first := second st; second := first st |}.

End PoolInvariant.

(** *** How long two threads can run *)

Section Work.
Context {A R W : Type}.

(** A bound on the steps a task still takes when the vector of its
    signal holds [n] slots. A [connect] that has not pushed yet counts
    for the iteration its slot adds to a loop of the other thread. *)
Definition steps_left (t : task A R W) (n : nat) : nat :=
  match t with
  | in_connect _ _ at_ =>
      match at_ with
      | k_lock => 10
      | k_push => 9
      | k_index => 7
      | k_test _ => 6
      | k_bind _ => 5
      | k_share _ => 4
      | k_return _ => 3
      | k_unlock _ => 2
      | k_done _ => 0
      end
  | in_call _ _ at_ =>
      match at_ with
      | t_lock => n + 3
      | t_loop i => (n - i) + 2
      | t_unlock => 1
      | t_done => 0
      end
  | in_disconnect _ at_ =>
      match at_ with
      | p_start => n + 10
      | p_test _ => n + 9
      | p_call _ => n + 8
      | p_lock _ _ => n + 7
      | p_assert _ _ => n + 6
      | p_assign _ _ => n + 5
      | p_trim _ _ => n + 4
      | p_unlock _ _ => 3
      | p_reset _ => 2
      | p_release _ => 1
      | p_done => 0
      end
  end.

(** The steps the two threads of a pool still take on the signal at
    [this]. *)
Definition pool_work (this : nat) (st : pool A R W) : nat :=
  let n := match signals (pool_memory st) !! this with
           | Some sg => length (_slots sg)
           | None => 0
           end in
  steps_left (first st) n + steps_left (second st) n.

End Work.

(** ** A small signal to run the operations on *)

(** A slot of a [signal<nat(nat)>] whose body appends its tag to a log
    and returns the tag plus its argument. *)
Definition tagged_slot (tag : nat) : callable nat nat (list nat) :=
  λ a log, (tag + a, log ++ [tag]).

(** A slot that returns a constant and touches nothing. *)
Definition constant_slot (r : nat) : callable nat nat (list nat) :=
  λ _ log, (r, log).

(** A signal at address 0 after three [connect]s and the disconnection of
    the middle slot. *)
Definition holed_signal : signal_type nat nat (list nat) :=
  {| _slots := [Some (tagged_slot 1); None; Some (tagged_slot 3)];
     _disconnector := {| _ptr := Some 0 |};
     _shared_disconnector := Some 0 |}.

Definition holed_memory : memory nat nat (list nat) :=
  {| signals := {[0 := holed_signal]};
     blocks := [{| use_count := 1; pointee := 0 |}];
     world := [] |}.

(** A signal at address 0 with three slots returning 1, 2 and 3. *)
Definition counting_signal : signal_type nat nat (list nat) :=
  {| _slots := [Some (constant_slot 1); Some (constant_slot 2);
                Some (constant_slot 3)];
     _disconnector := {| _ptr := Some 0 |};
     _shared_disconnector := Some 0 |}.

Definition counting_memory : memory nat nat (list nat) :=
  {| signals := {[0 := counting_signal]};
     blocks := [{| use_count := 1; pointee := 0 |}];
     world := [] |}.

(** A [signal<unsigned(unsigned)>] at address 0 with two slots
    returning 200 and 100; [unsigned] has 32 bits. *)
Definition unsigned_slot (r : Z) : callable Z Z unit := λ _ w, (r, w).

Definition wide_signal : signal_type Z Z unit :=
  {| _slots := [Some (unsigned_slot 200); Some (unsigned_slot 100)];
     _disconnector := {| _ptr := Some 0 |};
     _shared_disconnector := Some 0 |}.

Definition wide_memory : memory Z Z unit :=
  {| signals := {[0 := wide_signal]};
     blocks := [{| use_count := 1; pointee := 0 |}];
     world := tt |}.

(** [[]( unsigned a, unsigned b ){ return a + b; }]. *)
Definition add_unsigned (a b : Z) : Z := ((a + b) mod 2 ^ 32)%Z.

(** An initial value of type [unsigned char] with an operator on
    [unsigned]: [T] is [unsigned char] and [result_type] is [unsigned].
    The conversion to [unsigned char] keeps the low 8 bits, the one to
    [unsigned] keeps the value. *)
Definition unsigned_char_unsigned : conversions Z Z :=
  {| to_value := λ u, (u mod 2 ^ 8)%Z; to_result := λ value, value |}.

(** A memory with one freshly constructed signal at address 0. *)
Definition fresh_memory : memory nat nat (list nat) :=
  {| signals := {[0 := signal_default]}; blocks := []; world := [] |}.

(** A scoped connection holding the connection of the last slot of
    [holed_signal]. *)
Definition holed_scoped : scoped_connection :=
  {| _connection := {| _weak_disconnector := Some 0; _index := 2 |} |}.

(** A schedule in which [disconnect] locks the weak pointer first, the
    destructor then resets its reference and goes round its wait loop
    while [disconnect] works inside the signal, and leaves the loop after
    [disconnect] has released its reference. *)
Definition crossing_schedule : list bool :=
  [false; true; true; true; false; true; false; false; true; false; true;
   false; true; false; false; true; true; true; true].

(** A schedule for two threads, the first in [connect] and the second
    in [disconnect]: the second locks its weak pointer and reads the
    disconnector while the first takes the mutex and pushes its slot;
    the first returns, then the second takes the mutex and goes on. *)
Definition mixed_schedule : list bool :=
  [true; false; true; false; true; false; false; false; false;
   true; true; true; true; true; true; true].

(** A schedule for two threads in [connect]: each takes its lock and
    pushes its slot, then each reads the size of the vector, then each
    goes on to the end. *)
Definition racing_connects : list bool :=
  [false; false; true; true; false; true;
   false; false; false; true; true; true].

(** A client that stays within callables:
    [[
      signal<nat(nat)> s;
      connection x0 = s.connect( tagged_slot 1 );
      connection x1 = s.connect( tagged_slot 2 );
      scoped_connection x2( std::move(x1) );
      s( 5 );
      x0.disconnect();
      x2.reset();
      connection x3 = s.connect( tagged_slot 3 );
      x0.disconnect();
    ]]
    followed by the end of the scope of [s]. *)
Definition callable_client : list (event nat nat (list nat)) :=
  [new_signal;
   call_connect 0 (tagged_slot 1) 0;
   call_connect 0 (tagged_slot 2) 1;
   scoped_of 1 2;
   call_signal 0 5;
   call_disconnect 0;
   call_reset_default 2;
   call_connect 0 (tagged_slot 3) 3;
   call_disconnect 0;
   destroy_signal 0].

(** A client that connects an empty [std::function] first:
    [[
      signal<nat(nat)> s;
      connection c0 = s.connect( std::function<nat(nat)>{} );
      connection c1 = s.connect( tagged_slot 1 );
      c1.disconnect();
    ]]
    The result is [c0], whose [disconnect] has not been called. *)
Definition empty_function_client : M nat nat (list nat) connection :=
  let* s := signal_new in
  let* c0 := connect s None in
  let* c1 := connect s (Some (tagged_slot 1)) in
  let* c1' := connection_disconnect c1 in
  ret c0.

(** The same client going on with
    [[
      connection c2 = s.connect( tagged_slot 2 );
    ]]
    The result is [c0] and [c2]; neither has disconnected. *)
Definition empty_function_alias_client
  : M nat nat (list nat) (connection * connection) :=
  let* s := signal_new in
  let* c0 := connect s None in
  let* c1 := connect s (Some (tagged_slot 1)) in
  let* c1' := connection_disconnect c1 in
  let* c2 := connect s (Some (tagged_slot 2)) in
  ret (c0, c2).

(** * Properties *)

(** ** The slot vector *)

Section SlotFacts.
Context {A R W : Type}.
Implicit Types (slots : list (slot_type A R W)) (f : callable A R W).

Lemma back_snoc slots (slot : slot_type A R W) :
  back (slots ++ [slot]) = Some slot.
Proof. apply last_snoc. Qed.

Lemma pop_back_snoc slots (slot : slot_type A R W) :
  pop_back (slots ++ [slot]) = slots.
Proof. apply removelast_last. Qed.

Lemma trim_back_nil : trim_back ([] : list (slot_type A R W)) = [].
Proof. reflexivity. Qed.

Lemma trim_back_snoc_empty slots :
  trim_back (slots ++ [None]) = trim_back slots.
Proof.
  unfold trim_back. rewrite length_app, Nat.add_1_r. simpl.
  by rewrite back_snoc, pop_back_snoc.
Qed.

Lemma trim_back_snoc_live slots f :
  trim_back (slots ++ [Some f]) = slots ++ [Some f].
Proof.
  unfold trim_back. rewrite length_app, Nat.add_1_r. simpl.
  by rewrite back_snoc.
Qed.

(** The loop only removes empty slots, and only from the tail. *)
Lemma trim_back_tail slots :
  ∃ k, slots = trim_back slots ++ replicate k None.
Proof.
  induction slots as [|slot slots IH] using rev_ind.
  - by exists 0.
  - destruct slot as [f|].
    + exists 0. by rewrite trim_back_snoc_live, app_nil_r.
    + destruct IH as [k IH]. exists (S k).
      rewrite trim_back_snoc_empty, replicate_S_end, app_assoc.
      by f_equal.
Qed.

(** The loop stops because its condition is false, not because the
    iteration bound was reached. *)
Lemma trim_loop_exit slots : back (trim_back slots) ≠ Some None.
Proof.
  induction slots as [|slot slots IH] using rev_ind; [done|].
  destruct slot as [f|].
  - rewrite trim_back_snoc_live, back_snoc. congruence.
  - by rewrite trim_back_snoc_empty.
Qed.

Lemma trim_back_prefix slots : trim_back slots `prefix_of` slots.
Proof. destruct (trim_back_tail slots) as [k Hk]. by exists (replicate k None). Qed.

Lemma trim_back_length slots : length (trim_back slots) ≤ length slots.
Proof. apply prefix_length, trim_back_prefix. Qed.

Lemma trim_back_lookup slots i (slot : slot_type A R W) :
  trim_back slots !! i = Some slot → slots !! i = Some slot.
Proof. intros Hi. eapply prefix_lookup_Some; [done|apply trim_back_prefix]. Qed.

Lemma trim_back_lookup_live slots i f :
  slots !! i = Some (Some f) → trim_back slots !! i = Some (Some f).
Proof.
  destruct (trim_back_tail slots) as [k Hk]. intros Hi.
  rewrite Hk in Hi. apply lookup_app_Some in Hi as [Hi|[_ Hi]]; [done|].
  apply lookup_replicate in Hi as [? _]. done.
Qed.

(** A vector of tombstones is trimmed away altogether. *)
Lemma trim_back_all_empty slots :
  (∀ i f, slots !! i ≠ Some (Some f)) → trim_back slots = [].
Proof.
  intros Hall. pose proof (trim_loop_exit slots) as Hexit.
  destruct (trim_back slots) as [|s l] eqn:E using rev_ind; [done|].
  clear IHl. rewrite back_snoc in Hexit. destruct s as [f|]; [|done].
  exfalso. apply (Hall (length l) f). apply trim_back_lookup.
  rewrite E. by apply list_lookup_middle.
Qed.

Lemma live_from_lookup slots n i f :
  (i, f) ∈ live_from n slots ↔ n ≤ i ∧ slots !! (i - n) = Some (Some f).
Proof.
  revert n. induction slots as [|slot slots IH]; intros n; simpl.
  - rewrite elem_of_nil, lookup_nil. split; [done|]. by intros [_ ?].
  - destruct slot as [g|].
    + rewrite elem_of_cons, IH. split.
      * intros [[= -> ->]|[Hle Hi]].
        -- split; [lia|]. by rewrite Nat.sub_diag.
        -- split; [lia|]. by replace (i - n) with (S (i - S n)) by lia.
      * intros [Hle Hi]. destruct (decide (i = n)) as [->|Hne].
        -- rewrite Nat.sub_diag in Hi. left. simpl in Hi. congruence.
        -- right. split; [lia|].
           by replace (i - n) with (S (i - S n)) in Hi by lia.
    + rewrite IH. split.
      * intros [Hle Hi]. split; [lia|].
        by replace (i - n) with (S (i - S n)) by lia.
      * intros [Hle Hi]. destruct (decide (i = n)) as [->|Hne].
        -- by rewrite Nat.sub_diag in Hi.
        -- split; [lia|].
           by replace (i - n) with (S (i - S n)) in Hi by lia.
Qed.

Lemma live_slots_lookup slots i f :
  (i, f) ∈ live_slots slots ↔ slots !! i = Some (Some f).
Proof.
  unfold live_slots. rewrite live_from_lookup, Nat.sub_0_r.
  split; [by intros [_ ?]|]. intros; split; [lia|done].
Qed.

Lemma live_from_lower slots n :
  Forall (λ i, n ≤ i) (live_from n slots).*1.
Proof.
  revert n. induction slots as [|[g|] slots IH]; intros n; simpl.
  - constructor.
  - constructor; [done|]. eapply Forall_impl; [apply IH|]. simpl; lia.
  - eapply Forall_impl; [apply IH|]. simpl; lia.
Qed.

Lemma live_from_ascending slots n :
  StronglySorted lt (live_from n slots).*1.
Proof.
  revert n. induction slots as [|[g|] slots IH]; intros n; simpl.
  - constructor.
  - constructor; [apply IH|].
    eapply Forall_impl; [apply live_from_lower|]. simpl; lia.
  - apply IH.
Qed.

Lemma call_slots_live_from slots n args (w : W) :
  call_slots slots args w = call_each (live_from n slots) args w.
Proof.
  revert n w. induction slots as [|[g|] slots IH]; intros n w; simpl.
  - done.
  - by rewrite (IH (S n)).
  - by rewrite (IH (S n)).
Qed.

Lemma accumulate_slots_live_from {T U} (cv : conversions T U) slots n
    (v : T) func args (w : W) :
  accumulate_slots cv slots v func args w
  = fold_each cv (live_from n slots) v func args w.
Proof.
  revert n v w. induction slots as [|[g|] slots IH]; intros n v w; simpl.
  - done.
  - destruct (g args w) as [r w'] eqn:E. rewrite (IH (S n)).
    unfold fold_each. simpl. by rewrite E.
  - by rewrite (IH (S n)).
Qed.

Lemma fold_each_returned {T U} (cv : conversions T U)
    (calls : list (nat * callable A R W)) (v : T) func args (w : W) :
  fold_each cv calls v func args w
  = (foldl (λ value r, to_value cv (func value r)) v
       (returned calls args w),
     call_each calls args w).
Proof.
  revert v w. induction calls as [|c calls IH]; intros v w; [done|].
  unfold fold_each, call_each in *. simpl. by rewrite IH.
Qed.

End SlotFacts.

(** ** Signals *)

Section SignalFacts.
Context {A R W : Type}.
#[local] Abbreviation slot_type' := (slot_type A R W).
#[local] Abbreviation signal_type' := (signal_type A R W).
#[local] Abbreviation memory' := (memory A R W).
Implicit Types (m : memory') (sg : signal_type') (c : connection).

Lemma get_signal_alive m this sg :
  signals m !! this = Some sg → get_signal this m = Done (sg, m).
Proof. unfold get_signal. by intros ->. Qed.

Lemma get_signal_Done m this sg m1 :
  get_signal this m = Done (sg, m1) → signals m !! this = Some sg ∧ m1 = m.
Proof.
  unfold get_signal. destruct (signals m !! this); [|done].
  by intros [= -> ->].
Qed.

Lemma signal_disconnect_in_bounds m this sg index :
  signals m !! this = Some sg → index < length (_slots sg) →
  signal_disconnect this index m
  = put_signal this
      {| _slots := trim_back (<[index := None]> (_slots sg));
         _disconnector := _disconnector sg;
         _shared_disconnector := _shared_disconnector sg |} m.
Proof.
  intros Hsg Hlt. unfold signal_disconnect, bind.
  rewrite (get_signal_alive _ _ _ Hsg). by rewrite decide_True.
Qed.

Lemma signal_disconnect_out_of_bounds m this sg index :
  signals m !! this = Some sg → length (_slots sg) ≤ index →
  signal_disconnect this index m = Failed assertion_failed.
Proof.
  intros Hsg Hge. unfold signal_disconnect, bind.
  rewrite (get_signal_alive _ _ _ Hsg). rewrite decide_False; [done|lia].
Qed.

(** What [connect] returns and what it leaves in memory. *)
Lemma connect_alive m this sg (slot : slot_type') :
  signals m !! this = Some sg →
  ∃ cb blocks',
    connect this slot m
    = Done ({| _weak_disconnector := Some cb;
               _index := length (_slots sg) |},
            {| signals :=
                 <[this := {| _slots := _slots sg ++ [slot];
                              _disconnector :=
                                match _shared_disconnector sg with
                                | Some _ => _disconnector sg
                                | None => {| _ptr := Some this |}
                                end;
                              _shared_disconnector := Some cb |}]>
                   (signals m);
               blocks := blocks'; world := world m |})
    ∧ cb = default (length (blocks m)) (_shared_disconnector sg)
    ∧ blocks' = match _shared_disconnector sg with
                | Some _ => blocks m
                | None => blocks m ++ [{| use_count := 1; pointee := this |}]
                end.
Proof.
  intros Hsg. unfold connect, bind. rewrite (get_signal_alive _ _ _ Hsg).
  unfold push_back. rewrite length_app, Nat.add_1_r. simpl.
  rewrite Nat.sub_0_r.
  destruct (_shared_disconnector sg) as [cb|]; simpl; eauto.
Qed.

(** Index stability, operation by operation. On a live signal and for an
    index in bounds, [disconnect] empties that slot and then pops empty
    slots off the tail until the vector is empty or ends in a live slot;
    every slot that is non-empty afterwards sits at the index it had
    before, and every other non-empty slot is still there; [connect]
    appends the new slot at the end and returns its index, moving
    nothing. So an index that addresses a non-empty slot keeps
    addressing the same callable across every [connect] and every
    [disconnect] of another index. *)
Theorem disconnect_and_connect_keep_indices m this sg j :
  signals m !! this = Some sg →
  j < length (_slots sg) →
  let slots := _slots sg in
  let slots' := trim_back (<[j := None]> slots) in
  signal_disconnect this j m
  = Done (tt, {| signals :=
                   <[this := {| _slots := slots';
                                _disconnector := _disconnector sg;
                                _shared_disconnector :=
                                  _shared_disconnector sg |}]> (signals m);
                 blocks := blocks m; world := world m |})
  ∧ (∃ k, <[j := None]> slots = slots' ++ replicate k None)
  ∧ back slots' ≠ Some None
  ∧ (∀ f, slots' !! j ≠ Some (Some f))
  ∧ (∀ i f, slots' !! i = Some (Some f) → slots !! i = Some (Some f))
  ∧ (∀ i f, i ≠ j → slots !! i = Some (Some f) →
            slots' !! i = Some (Some f))
  ∧ (∀ slot : slot_type', ∃ c m' sg',
        connect this slot m = Done (c, m')
        ∧ signals m' !! this = Some sg'
        ∧ _slots sg' = slots ++ [slot]
        ∧ _index c = length slots
        ∧ _slots sg' !! _index c = Some slot
        ∧ ∀ i x, slots !! i = Some x → _slots sg' !! i = Some x).
Proof.
  intros Hsg Hj slots slots'. repeat split.
  - by rewrite (signal_disconnect_in_bounds _ _ _ _ Hsg Hj).
  - apply trim_back_tail.
  - apply trim_loop_exit.
  - intros f Hf. apply trim_back_lookup in Hf.
    rewrite list_lookup_insert_eq in Hf by done. congruence.
  - intros i f Hi. apply trim_back_lookup in Hi.
    destruct (decide (i = j)) as [->|Hne].
    + rewrite list_lookup_insert_eq in Hi by done. congruence.
    + by rewrite list_lookup_insert_ne in Hi.
  - intros i f Hne Hi. apply trim_back_lookup_live.
    by rewrite list_lookup_insert_ne.
  - intros slot.
    destruct (connect_alive m this sg slot Hsg) as (cb & bs & -> & _ & _).
    eexists _, _, _. split; [done|]. simpl. rewrite lookup_insert_eq.
    split; [done|]. simpl. repeat split.
    + by apply list_lookup_middle.
    + intros i x Hi. by apply lookup_app_l_Some.
Qed.

(** C2. Triggering a live signal returns nothing and changes only the
    world: it calls the non-empty slots, each on the same arguments,
    one after the other in ascending index order; the calls are exactly
    the slots whose callable is non-empty. *)
Theorem trigger_calls_live_slots_in_order m this sg (args : A) :
  signals m !! this = Some sg →
  signal_call this args m
  = Done (tt, {| signals := signals m; blocks := blocks m;
                 world := call_each (live_slots (_slots sg)) args
                            (world m) |})
  ∧ (∀ i f, (i, f) ∈ live_slots (_slots sg)
            ↔ _slots sg !! i = Some (Some f))
  ∧ StronglySorted lt (live_slots (_slots sg)).*1.
Proof.
  intros Hsg. split; [|split].
  - unfold signal_call, bind. rewrite (get_signal_alive _ _ _ Hsg).
    by rewrite (call_slots_live_from _ 0).
  - intros i f. apply live_slots_lookup.
  - apply live_from_ascending.
Qed.

(** C3. Calling the proxy that [accumulate init op] returns calls the
    non-empty slots in ascending index order and keeps an accumulator
    of the type of [init]: it starts as [init], every call of [op] on
    it and on the value a slot returned is converted to that type and
    stored in it, and its last value is returned, converted to the type
    of the calls of [op]. Empty slots add nothing. Where the calls of
    [op] have the type of [init], this is the left fold of [op] over
    the returned values. *)
Theorem accumulate_folds_in_type_of_init {T U : Type}
    (cv : conversions T U) m this sg (init : T) (op : T → R → U)
    (args : A) :
  signals m !! this = Some sg →
  let calls := live_slots (_slots sg) in
  let results := returned calls args (world m) in
  let m' := {| signals := signals m; blocks := blocks m;
               world := call_each calls args (world m) |} in
  accumulator_call cv (accumulate this init op) args m
  = Done (to_result cv
            (foldl (λ value r, to_value cv (op value r)) init results),
          m')
  ∧ (∀ op' : T → R → T,
       accumulator_call (same_type T) (accumulate this init op') args m
       = Done (left_fold op' init results, m'))
  ∧ (∀ i f, (i, f) ∈ calls ↔ _slots sg !! i = Some (Some f))
  ∧ StronglySorted lt calls.*1.
Proof.
  intros Hsg calls results m'.
  assert (∀ V (cv' : conversions T V) (f : T → R → V),
            accumulator_call cv' (accumulate this init f) args m
            = Done (to_result cv'
                      (foldl (λ value r, to_value cv' (f value r)) init
                         results), m')) as Hrun.
  { intros V cv' f.
    unfold accumulator_call, accumulate, trigger_with_accumulator, bind.
    simpl. rewrite (get_signal_alive _ _ _ Hsg).
    rewrite (accumulate_slots_live_from _ _ 0), fold_each_returned.
    reflexivity. }
  split; [apply Hrun|]. split; [|split].
  - intros op'. apply (Hrun T (same_type T) op').
  - intros i f. apply live_slots_lookup.
  - apply live_from_ascending.
Qed.

End SignalFacts.

(** Case analysis on the [get_signal] a hypothesis starts with. *)
Ltac inv_get_signal H sg Hsg :=
  match type of H with
  | context [get_signal ?a ?m] =>
      let m1 := fresh "m" in
      let e := fresh "e" in
      let Hg := fresh "Hg" in
      destruct (get_signal a m) as [[sg m1]|e] eqn:Hg;
      [apply get_signal_Done in Hg as [Hsg ->] | done]
  end.

(** ** Connections *)

Section ConnectionFacts.
Context {A R W : Type}.
#[local] Abbreviation memory'' := (memory A R W).
#[local] Abbreviation signal_type'' := (signal_type A R W).
Implicit Types (m : memory'') (sg : signal_type'') (c : connection).

Lemma lock_Some blocks weak cb :
  lock blocks weak = Some cb →
  weak = Some cb ∧ ∃ b, blocks !! cb = Some b ∧ use_count b ≠ 0.
Proof.
  unfold lock, expired, weak_use_count. destruct weak as [cb'|]; [|done].
  destruct (blocks !! cb') as [b|] eqn:Hb; [|done].
  destruct (use_count b =? 0) eqn:Hz; [done|].
  intros [= ->]. apply Nat.eqb_neq in Hz. eauto.
Qed.

Lemma lock_None_empty blocks : lock blocks None = None.
Proof. reflexivity. Qed.

Lemma lock_owned blocks cb b :
  blocks !! cb = Some b → use_count b ≠ 0 → lock blocks (Some cb) = Some cb.
Proof.
  intros Hb Hn. unfold lock, expired, weak_use_count. rewrite Hb.
  apply Nat.eqb_neq in Hn. by rewrite Hn.
Qed.

Lemma connection_disconnect_expired c m :
  lock (blocks m) (_weak_disconnector c) = None →
  connection_disconnect c m = Done (cleared c, m).
Proof. intros Hl. unfold connection_disconnect, bind. by rewrite Hl. Qed.

Lemma connection_disconnect_locked c m cb b sg :
  lock (blocks m) (_weak_disconnector c) = Some cb →
  blocks m !! cb = Some b →
  signals m !! pointee b = Some sg →
  connection_disconnect c m
  = (run disconnector_call (_disconnector sg) (_index c) in
     ret (cleared c)) m.
Proof.
  intros Hl Hb Hsg. unfold connection_disconnect. rewrite Hl, Hb.
  unfold bind at 1 3. unfold bind at 1.
  by rewrite (get_signal_alive _ _ _ Hsg).
Qed.

(** On a well-formed memory a connection that locks reaches
    [signal_type::disconnect] of the signal that minted it. *)
Lemma connection_disconnect_live c m cb :
  wf_memory m →
  lock (blocks m) (_weak_disconnector c) = Some cb →
  ∃ this sg,
    blocks m !! cb = Some {| use_count := 1; pointee := this |}
    ∧ signals m !! this = Some sg
    ∧ _shared_disconnector sg = Some cb
    ∧ connection_disconnect c m
      = (run signal_disconnect this (_index c) in ret (cleared c)) m.
Proof.
  intros [Hown Hlive] Hl.
  destruct (lock_Some _ _ _ Hl) as (Hw & b & Hb & Hn).
  destruct (Hlive _ _ Hb Hn) as (sg & Hsg & Hsh).
  destruct (Hown _ _ _ Hsg Hsh) as [Hb' Hd].
  exists (pointee b), sg. split; [done|]. split; [done|]. split; [done|].
  rewrite (connection_disconnect_locked _ _ _ _ _ Hl Hb Hsg).
  unfold disconnector_call. by rewrite Hd.
Qed.

Lemma connection_disconnect_cleared c m c' m' :
  connection_disconnect c m = Done (c', m') → c' = cleared c.
Proof.
  unfold connection_disconnect. unfold bind at 1.
  match goal with |- context [match ?x with Done _ => _ | Failed _ => _ end] =>
    destruct x as [[[] m1]|e]; [|done] end.
  by intros [= <- <-].
Qed.

Lemma connection_disconnect_again c m :
  connection_disconnect (cleared c) m = Done (cleared c, m).
Proof. exact (connection_disconnect_expired (cleared c) m eq_refl). Qed.

Lemma connected_cleared c m : connected (cleared c) m = false.
Proof. reflexivity. Qed.

End ConnectionFacts.

(** ** Well-formed memories *)

Section MemoryFacts.
Context {A R W : Type}.
#[local] Abbreviation mem := (memory A R W).
#[local] Abbreviation sig := (signal_type A R W).
Implicit Types (m : mem) (sg : sig) (c : connection).

Lemma wf_empty (w : W) : wf_memory (empty_memory (A:=A) (R:=R) w).
Proof. split; intros *; simpl; [by rewrite lookup_empty|by rewrite lookup_nil]. Qed.

(** [wf_memory] does not look at the world. *)
Lemma wf_world m (w : W) :
  wf_memory m →
  wf_memory {| signals := signals m; blocks := blocks m; world := w |}.
Proof. done. Qed.

(** Replacing the slot vector of a signal keeps the memory
    well-formed. *)
Lemma wf_put_slots m this sg slots :
  wf_memory m → signals m !! this = Some sg →
  wf_memory
    {| signals :=
         <[this := {| _slots := slots; _disconnector := _disconnector sg;
                      _shared_disconnector := _shared_disconnector sg |}]>
           (signals m);
       blocks := blocks m; world := world m |}.
Proof.
  intros [Hown Hlive] Hsg. split; simpl.
  - intros a sg' cb. destruct (decide (a = this)) as [->|Hne].
    + rewrite lookup_insert_eq. intros [= <-]. simpl. by apply Hown.
    + rewrite lookup_insert_ne by done. apply Hown.
  - intros cb b Hb Hn. destruct (Hlive _ _ Hb Hn) as (sg' & Hsg' & Hsh).
    destruct (decide (pointee b = this)) as [Heq|Hne].
    + rewrite Heq in *. rewrite lookup_insert_eq. eexists. split; [done|].
      simpl. congruence.
    + rewrite lookup_insert_ne by done. eauto.
Qed.

Lemma wf_signal_new m a m' :
  wf_memory m → signal_new m = Done (a, m') → wf_memory m'.
Proof.
  intros [Hown Hlive]. unfold signal_new. intros [= <- <-].
  assert (signals m !! fresh (dom (signals m)) = None) as Hfresh.
  { apply not_elem_of_dom, is_fresh. }
  split; simpl.
  - intros a sg cb. destruct (decide (a = fresh (dom (signals m)))) as [->|Hne].
    + rewrite lookup_insert_eq. by intros [= <-].
    + rewrite lookup_insert_ne by done. apply Hown.
  - intros cb b Hb Hn. destruct (Hlive _ _ Hb Hn) as (sg & Hsg & Hsh).
    rewrite lookup_insert_ne by congruence. eauto.
Qed.

Lemma wf_connect m this slot c m' :
  wf_memory m → connect this slot m = Done (c, m') → wf_memory m'.
Proof.
  intros Hwf. unfold connect. unfold bind at 1.
  destruct (signals m !! this) as [sg|] eqn:Hsg;
    [rewrite (get_signal_alive _ _ _ Hsg)|by unfold get_signal; rewrite Hsg].
  destruct (_shared_disconnector sg) as [cb|] eqn:Hsh.
  - unfold bind, put_signal, ret. intros [= <- <-].
    rewrite <- Hsh. by apply (wf_put_slots m this sg).
  - intros [= <- <-]. destruct Hwf as [Hown Hlive]. split; simpl.
    + intros a sg' cb. destruct (decide (a = this)) as [->|Hne].
      * rewrite lookup_insert_eq. intros [= <-]. simpl. intros [= <-].
        split; [|done]. by apply list_lookup_middle.
      * rewrite lookup_insert_ne by done. intros Ha Hcb.
        destruct (Hown _ _ _ Ha Hcb) as [Hb Hd]. split; [|done].
        by apply lookup_app_l_Some.
    + intros cb b Hb Hn. apply lookup_app_Some in Hb as [Hb|[Hge Hb]].
      * destruct (Hlive _ _ Hb Hn) as (sg' & Hsg' & Hsh').
        rewrite lookup_insert_ne by congruence. eauto.
      * apply list_lookup_singleton_Some in Hb as [Hz <-]. simpl.
        rewrite lookup_insert_eq. eexists. split; [done|]. simpl.
        f_equal. lia.
Qed.

Lemma wf_signal_disconnect m this index m' :
  wf_memory m → signal_disconnect this index m = Done (tt, m') →
  wf_memory m'.
Proof.
  intros Hwf. unfold signal_disconnect. unfold bind at 1.
  destruct (signals m !! this) as [sg|] eqn:Hsg;
    [rewrite (get_signal_alive _ _ _ Hsg)|by unfold get_signal; rewrite Hsg].
  case_decide; [|done]. intros [= <-]. by apply wf_put_slots.
Qed.

Lemma wf_connection_disconnect m c c' m' :
  wf_memory m → connection_disconnect c m = Done (c', m') → wf_memory m'.
Proof.
  intros Hwf. destruct (lock (blocks m) (_weak_disconnector c)) as [cb|] eqn:Hl.
  - destruct (connection_disconnect_live c m cb Hwf Hl)
      as (this & sg & _ & _ & _ & ->).
    unfold bind, ret.
    destruct (signal_disconnect this (_index c) m) as [[[] m1]|e] eqn:Hd;
      [|done].
    intros [= <- <-]. by eapply wf_signal_disconnect.
  - rewrite (connection_disconnect_expired _ _ Hl). by intros [= <- <-].
Qed.

(** On a well-formed memory the destructor comes back: the signal is
    the only owner, so the weak pointer no longer locks after the
    reset. *)
Lemma signal_destroy_returns m this sg :
  wf_memory m → signals m !! this = Some sg →
  signal_destroy this m
  = Done (tt, {| signals := delete this (signals m);
                 blocks := release_owner (blocks m)
                             (_shared_disconnector sg);
                 world := world m |}).
Proof.
  intros [Hown _] Hsg. unfold signal_destroy, bind.
  rewrite (get_signal_alive _ _ _ Hsg).
  destruct (_shared_disconnector sg) as [cb|] eqn:Hsh; [|done].
  destruct (Hown _ _ _ Hsg Hsh) as [Hb _]. simpl. rewrite Hb. simpl.
  unfold lock, expired, weak_use_count.
  rewrite list_lookup_insert_eq by (by eapply lookup_lt_Some). done.
Qed.

Lemma release_owner_dead m this sg cb :
  wf_memory m → signals m !! this = Some sg →
  _shared_disconnector sg = Some cb →
  release_owner (blocks m) (Some cb)
  = <[cb := {| use_count := 0; pointee := this |}]> (blocks m).
Proof.
  intros [Hown _] Hsg Hsh. destruct (Hown _ _ _ Hsg Hsh) as [Hb _].
  simpl. by rewrite Hb.
Qed.

Lemma wf_signal_destroy m this m' :
  wf_memory m → signal_destroy this m = Done (tt, m') → wf_memory m'.
Proof.
  intros Hwf. destruct (signals m !! this) as [sg|] eqn:Hsg;
    [|by unfold signal_destroy, bind, get_signal; rewrite Hsg].
  rewrite (signal_destroy_returns _ _ _ Hwf Hsg). intros [= <-].
  pose proof Hwf as [Hown Hlive].
  destruct (_shared_disconnector sg) as [cb0|] eqn:Hsh.
  - rewrite (release_owner_dead _ _ _ _ Hwf Hsg Hsh).
    destruct (Hown _ _ _ Hsg Hsh) as [Hb0 _].
    split; simpl.
    + intros a sg' cb. destruct (decide (a = this)) as [->|Hne].
      * by rewrite lookup_delete_eq.
      * rewrite lookup_delete_ne by done. intros Ha Hcb.
        destruct (Hown _ _ _ Ha Hcb) as [Hb Hd]. split; [|done].
        rewrite list_lookup_insert_ne; [done|].
        intros ->. rewrite Hb0 in Hb. congruence.
    + intros cb b Hb Hn. destruct (decide (cb = cb0)) as [->|Hne].
      * rewrite list_lookup_insert_eq in Hb by (by eapply lookup_lt_Some).
        by injection Hb as <-.
      * rewrite list_lookup_insert_ne in Hb by done.
        destruct (Hlive _ _ Hb Hn) as (sg' & Hsg' & Hsh').
        rewrite lookup_delete_ne; [eauto|].
        intros Heq. rewrite <- Heq in Hsg'. congruence.
  - simpl. split; simpl.
    + intros a sg' cb. destruct (decide (a = this)) as [->|Hne].
      * by rewrite lookup_delete_eq.
      * rewrite lookup_delete_ne by done. apply Hown.
    + intros cb b Hb Hn. destruct (Hlive _ _ Hb Hn) as (sg' & Hsg' & Hsh').
      rewrite lookup_delete_ne; [eauto|].
      intros Heq. rewrite <- Heq in Hsg'. congruence.
Qed.

Lemma wf_step m m' : wf_memory m → step m m' → wf_memory m'.
Proof.
  intros Hwf Hstep. destruct Hstep as
    [m a m' H|m this slot c m' H|m this args m' H|T U cv m acc args v m' H
    |m c c' m' H|m this m' H].
  - by eapply wf_signal_new.
  - by eapply wf_connect.
  - unfold signal_call, bind in H.
    destruct (get_signal this m) as [[sg m1]|e] eqn:Hg; [|done].
    unfold get_signal in Hg. destruct (signals m !! this); [|done].
    injection Hg as <- <-. injection H as <-. by apply wf_world.
  - unfold accumulator_call, trigger_with_accumulator, bind in H.
    destruct (get_signal (_signal acc) m) as [[sg m1]|e] eqn:Hg; [|done].
    unfold get_signal in Hg. destruct (signals m !! _signal acc); [|done].
    injection Hg as <- <-.
    destruct (accumulate_slots _ _ _ _ _ _) as [v' w'].
    injection H as <- <-. by apply wf_world.
  - by eapply wf_connection_disconnect.
  - by eapply wf_signal_destroy.
Qed.

Lemma wf_steps m m' : wf_memory m → steps m m' → wf_memory m'.
Proof. intros Hwf Hs. induction Hs; eauto using wf_step. Qed.

(** *** A control block without owners stays that way *)

Lemma release_owner_length blocks shared :
  length (release_owner blocks shared) = length blocks.
Proof.
  destruct shared as [cb|]; [|done]. simpl.
  destruct (blocks !! cb); [|done]. by rewrite length_insert.
Qed.

Lemma release_owner_use_count blocks shared cb b :
  blocks !! cb = Some b →
  ∃ b', release_owner blocks shared !! cb = Some b'
        ∧ use_count b' ≤ use_count b ∧ pointee b' = pointee b.
Proof.
  intros Hb. destruct shared as [cb0|]; [|eauto]. simpl.
  destruct (blocks !! cb0) as [b0|] eqn:Hb0; [|eauto].
  destruct (decide (cb = cb0)) as [->|Hne].
  - rewrite list_lookup_insert_eq by (by eapply lookup_lt_Some).
    eexists. split; [done|]. simpl. split; [|congruence].
    replace b0 with b by congruence. lia.
  - rewrite list_lookup_insert_ne by done. eauto.
Qed.

Lemma step_use_count m m' cb b :
  step m m' → blocks m !! cb = Some b →
  ∃ b', blocks m' !! cb = Some b'
        ∧ use_count b' ≤ use_count b ∧ pointee b' = pointee b.
Proof.
  intros Hstep Hb. destruct Hstep as
    [m a m' H|m this slot c m' H|m this args m' H|T U cv m acc args v m' H
    |m c c' m' H|m this m' H].
  - unfold signal_new in H. injection H as <- <-. simpl. eauto.
  - unfold connect in H. unfold bind at 1 in H. inv_get_signal H sg Hsg.
    destruct (_shared_disconnector sg).
    + unfold bind, put_signal, ret in H. injection H as <- <-. simpl. eauto.
    + injection H as <- <-. simpl. exists b. split; [|done].
      by apply lookup_app_l_Some.
  - unfold signal_call, bind in H. inv_get_signal H sg Hsg.
    injection H as <-. simpl. eauto.
  - unfold accumulator_call, trigger_with_accumulator, bind in H.
    inv_get_signal H sg Hsg.
    destruct (accumulate_slots _ _ _ _ _ _) as [v' w'].
    injection H as <- <-. simpl. eauto.
  - unfold connection_disconnect in H. unfold bind at 1 in H.
    assert (∀ d i m1 m2, disconnector_call (A:=A) (R:=R) (W:=W) d i m1
                         = Done (tt, m2) → blocks m2 = blocks m1) as Hd.
    { intros d i m1 m2. unfold disconnector_call.
      destruct (_ptr d) as [p|]; [|by intros [= <-]].
      unfold signal_disconnect, bind. intros H'. inv_get_signal H' sg Hsg.
      case_decide; [|done]. by injection H' as <-. }
    destruct (lock (blocks m) (_weak_disconnector c)) as [cb'|].
    + destruct (blocks m !! cb') as [b'|].
      * unfold bind in H. inv_get_signal H sg Hsg.
        destruct (disconnector_call _ _ m) as [[[] m2]|e] eqn:Hc; [|done].
        injection H as <- <-. rewrite (Hd _ _ _ _ Hc). eauto.
      * injection H as <- <-. eauto.
    + injection H as <- <-. eauto.
  - unfold signal_destroy, bind in H. inv_get_signal H sg Hsg.
    destruct (lock _ _); [done|]. injection H as <-. simpl.
    by apply release_owner_use_count.
Qed.

Lemma steps_use_count m m' cb b :
  steps m m' → blocks m !! cb = Some b →
  ∃ b', blocks m' !! cb = Some b'
        ∧ use_count b' ≤ use_count b ∧ pointee b' = pointee b.
Proof.
  intros Hs. revert b. induction Hs as [|m1 m2 m3 H12 _ IH]; intros b Hb.
  - eauto.
  - destruct (step_use_count _ _ _ _ H12 Hb) as (b2 & Hb2 & Hle & Hp).
    destruct (IH _ Hb2) as (b3 & Hb3 & Hle3 & Hp3).
    exists b3. split; [done|]. split; [lia|congruence].
Qed.

(** Once expired, a weak pointer to an existing block never locks
    again, whatever is called afterwards. *)
Lemma expired_forever m m' c cb :
  _weak_disconnector c = Some cb → cb < length (blocks m) →
  connected c m = false → steps m m' → connected c m' = false.
Proof.
  intros Hw Hlt Hc Hs. unfold connected, expired, weak_use_count in *.
  rewrite Hw in *. apply lookup_lt_is_Some in Hlt as [b Hb].
  rewrite Hb in Hc. apply negb_false_iff, Nat.eqb_eq in Hc.
  destruct (steps_use_count _ _ _ _ Hs Hb) as (b' & -> & Hle & _).
  apply negb_false_iff, Nat.eqb_eq. lia.
Qed.

End MemoryFacts.

(** ** Connections and scoped connections *)

Section HandleFacts.
Context {A R W : Type}.
#[local] Abbreviation mem' := (memory A R W).
#[local] Abbreviation sig' := (signal_type A R W).
Implicit Types (m : mem') (sg : sig') (c : connection).

(** C4. [connection::disconnect] is idempotent. The first call locks
    the weak pointer; when that fails it leaves the memory alone, when
    it succeeds it calls the disconnector of the owning signal with the
    stored index; either way the weak pointer is cleared. Any later
    call on the same connection, in any memory, returns without
    touching the memory, so two calls in a row do what one does. *)
Theorem connection_disconnect_idempotent c m :
  (let* c' := connection_disconnect c in connection_disconnect c') m
  = connection_disconnect c m
  ∧ (lock (blocks m) (_weak_disconnector c) = None →
     connection_disconnect c m = Done (cleared c, m))
  ∧ (∀ cb b sg,
        lock (blocks m) (_weak_disconnector c) = Some cb →
        blocks m !! cb = Some b →
        signals m !! pointee b = Some sg →
        connection_disconnect c m
        = (run disconnector_call (_disconnector sg) (_index c) in
           ret (cleared c)) m)
  ∧ (∀ c' m',
        connection_disconnect c m = Done (c', m') →
        _weak_disconnector c' = None
        ∧ ∀ m'' : mem', connection_disconnect c' m'' = Done (c', m'')).
Proof.
  split; [|split; [|split]].
  - unfold bind.
    destruct (connection_disconnect c m) as [[c' m']|e] eqn:Hd; [|done].
    rewrite (connection_disconnect_cleared _ _ _ _ Hd).
    apply connection_disconnect_again.
  - apply connection_disconnect_expired.
  - apply connection_disconnect_locked.
  - intros c' m' Hd. rewrite (connection_disconnect_cleared _ _ _ _ Hd).
    split; [done|]. intros m''. apply connection_disconnect_again.
Qed.

(** C5. [connected()] follows the life of the signal. On a well-formed
    memory, the connection [connect] returns is connected, and its
    [disconnect] and the destructor of the signal both come back when
    called at once. After any further calls: once [disconnect] has
    returned on the connection it is not connected in any memory; once
    the signal at its address has been destroyed it is not connected
    whatever is called next, and its [disconnect] changes nothing. A
    default-constructed connection is never connected and its
    [disconnect] changes nothing. *)
Theorem connected_follows_signal_life m this sg (slot : slot_type A R W) :
  wf_memory m → signals m !! this = Some sg →
  ∃ c m1,
    connect this slot m = Done (c, m1)
    ∧ connected c m1 = true
    ∧ (∃ m2, connection_disconnect c m1 = Done (cleared c, m2))
    ∧ (∃ m2, signal_destroy this m1 = Done (tt, m2))
    ∧ (∀ m2 c' m3,
          steps m1 m2 → connection_disconnect c m2 = Done (c', m3) →
          ∀ m4 : mem', connected c' m4 = false)
    ∧ (∀ m2 m3,
          steps m1 m2 → signal_destroy this m2 = Done (tt, m3) →
          ∀ m4, steps m3 m4 →
                connected c m4 = false
                ∧ connection_disconnect c m4 = Done (cleared c, m4))
    ∧ (∀ m' : mem',
          connected connection_default m' = false
          ∧ connection_disconnect connection_default m'
            = Done (connection_default, m')).
Proof.
  intros Hwf Hsg.
  destruct (connect_alive m this sg slot Hsg) as (cb & bs & Hc & Hcb & Hbs).
  eexists _, _. split; [exact Hc|].
  assert (wf_memory
            {| signals :=
                 <[this := {| _slots := _slots sg ++ [slot];
                              _disconnector :=
                                match _shared_disconnector sg with
                                | Some _ => _disconnector sg
                                | None => {| _ptr := Some this |}
                                end;
                              _shared_disconnector := Some cb |}]>
                   (signals m);
               blocks := bs; world := world m |}) as Hwf1
    by (by eapply wf_connect).
  set (m1 := {| signals := _; blocks := bs; world := world m |}) in *.
  set (c := {| _weak_disconnector := Some cb;
               _index := length (_slots sg) |}) in *.
  assert (signals m1 !! this
          = Some {| _slots := _slots sg ++ [slot];
                    _disconnector :=
                      match _shared_disconnector sg with
                      | Some _ => _disconnector sg
                      | None => {| _ptr := Some this |}
                      end;
                    _shared_disconnector := Some cb |}) as Hsg1
    by (subst m1; simpl; by rewrite lookup_insert_eq).
  destruct Hwf1 as [Hown1 Hlive1].
  destruct (Hown1 _ _ _ Hsg1 eq_refl) as [Hb1 _].
  pose proof (conj Hown1 Hlive1 : wf_memory m1) as Hwf1.
  assert (lock (blocks m1) (Some cb) = Some cb) as Hlock1
    by (by eapply lock_owned).
  split; [|split; [|split; [|split; [|split]]]].
  - unfold connected, expired, weak_use_count.
    change (blocks m1 !! cb) with (bs !! cb) in Hb1. simpl. by rewrite Hb1.
  - destruct (connection_disconnect_live c m1 cb Hwf1 Hlock1)
      as (this' & sg' & Hb' & Hsg' & _ & ->).
    assert (this' = this) as -> by (rewrite Hb1 in Hb'; congruence).
    rewrite Hsg1 in Hsg'. injection Hsg' as <-.
    unfold bind. erewrite signal_disconnect_in_bounds; [|done|].
    + unfold put_signal, ret. eauto.
    + simpl. rewrite length_app. simpl. lia.
  - rewrite (signal_destroy_returns _ _ _ Hwf1 Hsg1). eauto.
  - intros m2 c' m3 _ Hd m4.
    by rewrite (connection_disconnect_cleared _ _ _ _ Hd).
  - intros m2 m3 Hs12 Hdes m4 Hs34.
    pose proof (wf_steps _ _ Hwf1 Hs12) as Hwf2.
    destruct (steps_use_count _ _ _ _ Hs12 Hb1) as (b2 & Hb2 & Hle2 & Hp2).
    simpl in Hle2, Hp2.
    assert (connected c m3 = false ∧ cb < length (blocks m3)) as [Hc3 Hlt3].
    { unfold signal_destroy, bind in Hdes. inv_get_signal Hdes sg2 Hsg2.
      match type of Hdes with context [lock ?bs0 ?w0] =>
        destruct (lock bs0 w0) eqn:Hl; [done|] end.
      injection Hdes as <-.
      unfold connected, expired, weak_use_count. simpl.
      rewrite release_owner_length.
      split; [|by eapply lookup_lt_Some].
      destruct (release_owner_use_count (blocks m2)
                  (_shared_disconnector sg2) cb b2 Hb2)
        as (b3 & Hb3 & Hle3 & _).
      rewrite Hb3. apply negb_false_iff, Nat.eqb_eq.
      destruct (decide (use_count b2 = 0)) as [Hz|Hnz]; [lia|].
      destruct Hwf2 as [Hown2 Hlive2].
      destruct (Hlive2 _ _ Hb2 Hnz) as (sg2' & Hsg2' & Hsh2').
      rewrite Hp2 in Hsg2'.
      assert (sg2' = sg2) as -> by congruence.
      rewrite Hsh2' in *. simpl in *. rewrite Hb2 in *.
      rewrite list_lookup_insert_eq in Hb3 by (by eapply lookup_lt_Some).
      injection Hb3 as <-. simpl. lia. }
    assert (connected c m4 = false) as Hc4
      by (by eapply (expired_forever m3 m4 c cb)).
    split; [done|]. apply connection_disconnect_expired.
    unfold connected in Hc4. apply negb_false_iff in Hc4.
    unfold lock. by rewrite Hc4.
  - intros m'. split; [done|].
    exact (connection_disconnect_expired connection_default m' eq_refl).
Qed.

(** C10. A connection that has been moved from, by the move
    constructor or by move assignment to another connection, is not
    connected and its [disconnect] changes no memory; the target of the
    move is the connection the source was: same weak pointer, same
    index, so the same [connected()] and the same [disconnect]. *)
Theorem moved_from_connection_is_disconnected (this other : connection) m :
  let constructed := connection_move other in
  let assigned := connection_move_assign this other in
  constructed.1 = other
  ∧ assigned.1 = other
  ∧ constructed.2 = cleared other
  ∧ assigned.2 = cleared other
  ∧ connected constructed.2 m = false
  ∧ connected assigned.2 m = false
  ∧ connection_disconnect constructed.2 m = Done (constructed.2, m)
  ∧ connection_disconnect assigned.2 m = Done (assigned.2, m)
  ∧ connected constructed.1 m = connected other m
  ∧ connected assigned.1 m = connected other m
  ∧ connection_disconnect constructed.1 m = connection_disconnect other m
  ∧ connection_disconnect assigned.1 m = connection_disconnect other m.
Proof.
  destruct other as [weak index]. simpl.
  repeat split; apply (connection_disconnect_again (Connection weak index)).
Qed.

End HandleFacts.

(** ** All connections disconnected *)

Section Settle.
Context {A R W : Type}.
#[local] Abbreviation mem_ := (memory A R W).
Implicit Types (m : mem_) (cs : list connection) (order : list nat).

Lemma call_slots_tombstones (slots : list (slot_type A R W)) args (w : W) :
  (∀ i f, slots !! i ≠ Some (Some f)) → call_slots slots args w = w.
Proof.
  induction slots as [|[f|] slots IH]; intros Hall; simpl.
  - done.
  - by destruct (Hall 0 f).
  - apply IH. intros i f. apply (Hall (S i) f).
Qed.

Lemma signal_call_tombstones m this sg args :
  signals m !! this = Some sg →
  (∀ i f, _slots sg !! i ≠ Some (Some f)) →
  signal_call this args m = Done (tt, m).
Proof.
  intros Hsg Hall. unfold signal_call, bind.
  rewrite (get_signal_alive _ _ _ Hsg), call_slots_tombstones by done.
  by destruct m.
Qed.

(** A vector that does not end in a tombstone and has no live slot is
    empty. *)
Lemma trimmed_tombstones (slots : list (slot_type A R W)) :
  back slots ≠ Some None → (∀ i f, slots !! i ≠ Some (Some f)) →
  slots = [].
Proof.
  intros Hback Hall. destruct slots as [|s l _] using rev_ind; [done|].
  rewrite back_snoc in Hback. destruct s as [f|]; [|done].
  destruct (Hall (length l) f). by apply list_lookup_middle.
Qed.

Lemma disconnect_in_order_nil order m :
  disconnect_in_order (A:=A) (R:=R) (W:=W) [] order m = Done ([], m).
Proof. induction order as [|i order IH]; [done|]. simpl. apply IH. Qed.

(** [connect_all] appends the callables and returns connections with
    consecutive indices on one control block. *)
Lemma connect_all_appends this (fs : list (callable A R W)) :
  ∀ m sg,
    wf_memory m → signals m !! this = Some sg →
    ∃ cb m1 sg1,
      connect_all this (Some <$> fs) m
      = Done (imap (λ k _, Connection (Some cb) (length (_slots sg) + k)) fs,
              m1)
      ∧ (fs = [] → m1 = m)
      ∧ wf_memory m1
      ∧ signals m1 !! this = Some sg1
      ∧ _slots sg1 = _slots sg ++ (Some <$> fs)
      ∧ (fs ≠ [] → _shared_disconnector sg1 = Some cb)
      ∧ (∀ cb0, _shared_disconnector sg = Some cb0 → cb = cb0).
Proof.
  induction fs as [|f fs IH]; intros m sg Hwf Hsg.
  - exists (default 0 (_shared_disconnector sg)), m, sg. simpl.
    rewrite app_nil_r. split_and!; try done.
    by intros cb0 ->.
  - destruct (connect_alive m this sg (Some f) Hsg)
      as (cb & bs & Hc & Hcb & Hbs).
    pose proof (wf_connect _ _ _ _ _ Hwf Hc) as Hwf1.
    match type of Hc with _ = Done (_, ?x) => set (m1 := x) in * end.
    assert (∃ sg1, signals m1 !! this = Some sg1
                   ∧ _slots sg1 = _slots sg ++ [Some f]
                   ∧ _shared_disconnector sg1 = Some cb)
      as (sg1 & Hsg1 & Hslots1 & Hsh1).
    { eexists. subst m1. simpl. rewrite lookup_insert_eq. done. }
    destruct (IH m1 sg1 Hwf1 Hsg1)
      as (cb' & m2 & sg2 & Hall & _ & Hwf2 & Hsg2 & Hslots2 & _ & Hsame).
    rewrite (Hsame _ Hsh1) in *. clear Hsame.
    exists cb, m2, sg2. split; [|split; [done|split; [done|split; [done|]]]].
    + rewrite fmap_cons. cbn [connect_all]. unfold bind at 1. rewrite Hc.
      unfold bind at 1. rewrite Hall.
      unfold ret. simpl. do 2 f_equal. rewrite Nat.add_0_r. f_equal.
      apply imap_ext. intros k x _. simpl. rewrite Hslots1, length_app.
      simpl. f_equal. lia.
    + split; [|split].
      * rewrite Hslots2, Hslots1, <- app_assoc. done.
      * intros _. destruct fs as [|f' fs'].
        -- simpl in Hall. injection Hall as <-. congruence.
        -- destruct (IH m1 sg1 Hwf1 Hsg1)
             as (cb2 & m3 & sg3 & Hall3 & _ & _ & Hsg3 & _ & Hsh3 & Hsame3).
           rewrite (Hsame3 _ Hsh1) in *. rewrite Hall in Hall3.
           injection Hall3 as <-. rewrite Hsg2 in Hsg3.
           injection Hsg3 as <-. by apply Hsh3.
      * intros cb0 Hcb0. rewrite Hcb0 in Hcb. done.
Qed.

(** The connections disconnect in any order without failing, and the
    ones that did are dead afterwards. *)
Lemma disconnect_in_order_tracks this cb order :
  ∀ cs m,
    tracks this cb cs m →
    ∃ cs' m',
      disconnect_in_order cs order m = Done (cs', m')
      ∧ tracks this cb cs' m'
      ∧ length cs' = length cs
      ∧ ∀ i, i < length cs →
             i ∈ order ∨ cs !! i = Some (Connection None i) →
             cs' !! i = Some (Connection None i).
Proof.
  induction order as [|i order IH]; intros cs m Htr.
  - exists cs, m. split; [done|]. split; [done|]. split; [done|].
    intros i _ [Hin|Hd]; [by apply elem_of_nil in Hin|done].
  - simpl. destruct (cs !! i) as [c|] eqn:Hci.
    + pose proof Htr as (Hwf & sg & Hsg & Hsh & Hback & Hform & Hlive & Hslot).
      destruct (Hform _ _ Hci) as [->| ->].
      * (* the connection still locks *)
        destruct Hwf as [Hown Hlv]. destruct (Hown _ _ _ Hsg Hsh) as [Hb _].
        pose proof (conj Hown Hlv : wf_memory m) as Hwf.
        assert (lock (blocks m) (Some cb) = Some cb) as Hl
          by (by eapply lock_owned).
        destruct (connection_disconnect_live
                    (Connection (Some cb) i) m cb Hwf Hl)
          as (this' & sg' & Hb' & Hsg' & _ & Hrun).
        assert (this' = this) as -> by (rewrite Hb in Hb'; congruence).
        assert (sg' = sg) as -> by congruence.
        destruct (Hlive _ Hci) as [f Hf].
        assert (i < length (_slots sg)) as Hlt by (by eapply lookup_lt_Some).
        unfold bind in Hrun. simpl in Hrun.
        rewrite (signal_disconnect_in_bounds _ _ _ _ Hsg Hlt) in Hrun.
        unfold put_signal, ret, cleared in Hrun. simpl in Hrun.
        unfold bind at 1. rewrite Hrun.
        match goal with |- context [disconnect_in_order ?cs1 order ?m1] =>
          destruct (IH cs1 m1) as (cs' & m' & Hrun' & Htr' & Hlen' & Hdead')
        end.
        { split; [by apply wf_put_slots|]. eexists. simpl.
          rewrite lookup_insert_eq. split; [done|]. simpl.
          split; [done|]. split; [apply trim_loop_exit|].
          split; [|split].
          - intros j c. destruct (decide (j = i)) as [->|Hne].
            + rewrite list_lookup_insert_eq by (by eapply lookup_lt_Some).
              intros [= <-]. by right.
            + rewrite list_lookup_insert_ne by done. apply Hform.
          - intros j. destruct (decide (j = i)) as [->|Hne].
            + by rewrite list_lookup_insert_eq by (by eapply lookup_lt_Some).
            + rewrite list_lookup_insert_ne by done. intros Hj.
              destruct (Hlive _ Hj) as [g Hg]. exists g.
              apply trim_back_lookup_live.
              by rewrite list_lookup_insert_ne.
          - intros j g Hg. apply trim_back_lookup in Hg.
            destruct (decide (j = i)) as [->|Hne].
            + rewrite list_lookup_insert_eq in Hg by done. congruence.
            + rewrite list_lookup_insert_ne in Hg by done.
              rewrite list_lookup_insert_ne by done. by eapply Hslot. }
        exists cs', m'. split; [done|]. split; [done|].
        rewrite length_insert in Hlen'. split; [done|].
        intros j Hj Hcase. apply Hdead'; [by rewrite length_insert|].
        destruct (decide (j = i)) as [->|Hne].
        -- right. by rewrite list_lookup_insert_eq.
        -- rewrite list_lookup_insert_ne by done.
           destruct Hcase as [Hin|Hd]; [|by right].
           left. apply elem_of_cons in Hin as [?|?]; done.
      * (* the connection has disconnected before *)
        unfold bind at 1.
        rewrite (connection_disconnect_expired (Connection None i) m eq_refl).
        change (cleared (Connection None i)) with (Connection None i).
        rewrite list_insert_id by done.
        destruct (IH cs m Htr) as (cs' & m' & Hrun' & Htr' & Hlen' & Hdead').
        exists cs', m'. split; [done|]. split; [done|]. split; [done|].
        intros j Hj Hcase. apply Hdead'; [done|].
        destruct Hcase as [Hin|Hd]; [|by right].
        apply elem_of_cons in Hin as [->|?]; [by right|by left].
    + destruct (IH cs m Htr) as (cs' & m' & Hrun' & Htr' & Hlen' & Hdead').
      exists cs', m'. split; [done|]. split; [done|]. split; [done|].
      intros j Hj Hcase. apply Hdead'; [done|].
      destruct Hcase as [Hin|Hd]; [|by right].
      apply elem_of_cons in Hin as [->|?]; [|by left].
      apply lookup_ge_None in Hci. lia.
Qed.

End Settle.

Section SettleClaim.
Context {A R W : Type}.
#[local] Abbreviation mem_s := (memory A R W).
Implicit Types (m : mem_s).

(** X17. Tombstones settle to zero when the connected slots are
    callables. Triggering a signal without slots changes nothing, and
    so does triggering one whose slots are all tombstones. When [N]
    non-empty functions are connected to a signal without slots and
    each of the [N] connections then calls [disconnect], in whatever
    order (any list that names each of them at least once, a
    permutation of their positions for one), every call returns, the
    slot vector is empty at the end, and a trigger changes nothing. *)
Theorem tombstones_settle_to_zero m this sg
    (fs : list (callable A R W)) (order : list nat) (args : A) :
  wf_memory m → signals m !! this = Some sg → _slots sg = [] →
  (∀ i, i < length fs → i ∈ order) →
  signal_call this args m = Done (tt, m)
  ∧ (∀ m0 this0 sg0,
        signals m0 !! this0 = Some sg0 →
        (∀ i f, _slots sg0 !! i ≠ Some (Some f)) →
        signal_call this0 args m0 = Done (tt, m0))
  ∧ ∃ cs m' sg',
      (let* cs := connect_all this (Some <$> fs) in
       disconnect_in_order cs order) m
      = Done (cs, m')
      ∧ signals m' !! this = Some sg'
      ∧ _slots sg' = []
      ∧ length (_slots sg') = 0
      ∧ signal_call this args m' = Done (tt, m').
Proof.
  intros Hwf Hsg Hnil Hall. split; [|split].
  - apply (signal_call_tombstones m this sg); [done|].
    intros i f. by rewrite Hnil, lookup_nil.
  - intros m0 this0 sg0. apply signal_call_tombstones.
  - assert (∃ cs m' sg',
               (let* cs := connect_all this (Some <$> fs) in
                disconnect_in_order cs order) m = Done (cs, m')
               ∧ signals m' !! this = Some sg' ∧ _slots sg' = [])
      as (cs & m' & sg' & Hrun & Hsg' & Hnil').
    { destruct (connect_all_appends this fs m sg Hwf Hsg)
        as (cb & m1 & sg1 & Hc & Hm1 & Hwf1 & Hsg1 & Hslots1 & Hsh1 & _).
      rewrite Hnil in Hc, Hslots1. simpl in Hc, Hslots1.
      unfold bind at 1. rewrite Hc.
      destruct fs as [|f0 fs0].
      { rewrite (Hm1 eq_refl). simpl. rewrite disconnect_in_order_nil.
        by exists [], m, sg. }
      set (fs := f0 :: fs0) in *.
      set (cs := imap (λ k _, Connection (Some cb) k) fs) in *.
      assert (∀ i, cs !! i = (λ _, Connection (Some cb) i) <$> fs !! i)
        as Hcs by (intros i; apply list_lookup_imap).
      assert (length cs = length fs) as Hlen by apply length_imap.
      assert (tracks this cb cs m1) as Htr.
      { split; [done|]. exists sg1. split; [done|].
        split; [by apply Hsh1|]. rewrite Hslots1.
        split; [|split; [|split]].
        - unfold back. rewrite fmap_last. by destruct (last fs).
        - intros i c. rewrite Hcs. destruct (fs !! i); [|done].
          intros [= <-]. by left.
        - intros i. rewrite Hcs, list_lookup_fmap.
          destruct (fs !! i) as [f|]; [|done]. eauto.
        - intros i f. rewrite Hcs, list_lookup_fmap.
          destruct (fs !! i) as [g|]; [|done]. done. }
      destruct (disconnect_in_order_tracks this cb order cs m1 Htr)
        as (cs' & m' & Hrun & Htr' & Hlen' & Hdead).
      destruct Htr' as (_ & sg' & Hsg' & _ & Hback & _ & _ & Hslot).
      exists cs', m', sg'. split; [done|]. split; [done|].
      apply trimmed_tombstones; [done|]. intros i f Hi.
      pose proof (Hslot _ _ Hi) as Hlive.
      assert (i < length cs) as Hlt
        by (rewrite <- Hlen'; by eapply lookup_lt_Some).
      rewrite Hdead in Hlive; [done|done|].
      left. apply Hall. by rewrite <- Hlen. }
    exists cs, m', sg'. split; [done|]. split; [done|]. split; [done|].
    split; [by rewrite Hnil'|].
    apply (signal_call_tombstones m' this sg'); [done|].
    intros i f. by rewrite Hnil', lookup_nil.
Qed.

End SettleClaim.

(** ** Programs that connect callables *)

Section ProgramFacts.
Context {A R W : Type}.
#[local] Abbreviation mem_p := (memory A R W).
#[local] Abbreviation client_p := (client A R W).
Implicit Types (m : mem_p) (objs : gmap nat object) (o : object)
  (c : connection).

Lemma inv_initial (w : W) : client_inv (initial_client (A:=A) (R:=R) w).
Proof.
  split; [apply wf_empty|]. split; simpl.
  - intros x o cb. by rewrite lookup_empty.
  - intros x y ox oy cb. by rewrite lookup_empty.
Qed.

(** The variables may be renamed, dropped and emptied: what matters is
    that every connection that still names a block comes from a variable
    of its own. *)
Lemma inv_relabel m objs objs' (g : nat → nat) :
  client_inv (Client m objs) →
  (∀ y o', objs' !! y = Some o' →
           _weak_disconnector (held o') = None
           ∨ ∃ o, objs !! g y = Some o ∧ held o = held o') →
  (∀ y1 y2 o1 o2,
      objs' !! y1 = Some o1 → objs' !! y2 = Some o2 →
      _weak_disconnector (held o1) ≠ None →
      _weak_disconnector (held o2) ≠ None →
      g y1 = g y2 → y1 = y2) →
  client_inv (Client m objs').
Proof.
  intros (Hwf & Hslot & Huniq) Hfrom Hinj. split; [done|]. split; simpl in *.
  - intros y o' cb Hy Hw.
    destruct (Hfrom _ _ Hy) as [Hn|(o & Ho & Heq)]; [congruence|].
    rewrite <- Heq in *. by eapply Hslot.
  - intros y1 y2 o1 o2 cb H1 H2 Hw1 Hw2 Hi.
    destruct (Hfrom _ _ H1) as [Hn|(o1' & Ho1 & Heq1)]; [congruence|].
    destruct (Hfrom _ _ H2) as [Hn|(o2' & Ho2 & Heq2)]; [congruence|].
    apply (Hinj y1 y2 o1 o2); [done|done|congruence|congruence|].
    apply (Huniq _ _ o1' o2' cb); congruence.
Qed.

(** The memory may change as long as blocks only lose owners and the
    slots the variables address stay where they are. *)
Lemma inv_heap m m' objs :
  client_inv (Client m objs) → wf_memory m' →
  (∀ cb b, blocks m !! cb = Some b →
           ∃ b', blocks m' !! cb = Some b'
                 ∧ use_count b' ≤ use_count b ∧ pointee b' = pointee b) →
  (∀ x o cb b' sg f,
      objs !! x = Some o → _weak_disconnector (held o) = Some cb →
      blocks m' !! cb = Some b' → use_count b' ≠ 0 →
      signals m !! pointee b' = Some sg →
      _slots sg !! _index (held o) = Some (Some f) →
      ∃ sg' f', signals m' !! pointee b' = Some sg'
                ∧ _slots sg' !! _index (held o) = Some (Some f')) →
  client_inv (Client m' objs).
Proof.
  intros (Hwf & Hslot & Huniq) Hwf' Hblocks Hkeep.
  split; [done|]. split; [|done]. simpl in *.
  intros x o cb Hx Hw. destruct (Hslot _ _ _ Hx Hw) as (b & Hb & Hlive).
  destruct (Hblocks _ _ Hb) as (b' & Hb' & Hle & Hp).
  exists b'. split; [done|]. intros Hn.
  destruct Hlive as (sg & f & Hsg & Hf); [lia|].
  rewrite <- Hp in Hsg. by eapply Hkeep.
Qed.

(** A new connection may be stored when its slot is live and no other
    variable has its block and index. *)
Lemma inv_insert_new m objs t o cb :
  client_inv (Client m objs) →
  _weak_disconnector (held o) = Some cb →
  (∃ b, blocks m !! cb = Some b
        ∧ (use_count b ≠ 0 →
           ∃ sg f, signals m !! pointee b = Some sg
                   ∧ _slots sg !! _index (held o) = Some (Some f))) →
  (∀ y oy, objs !! y = Some oy → y ≠ t →
           _weak_disconnector (held oy) = Some cb →
           _index (held oy) ≠ _index (held o)) →
  client_inv (Client m (<[t := o]> objs)).
Proof.
  intros (Hwf & Hslot & Huniq) Hw Hnew Hfresh.
  split; [done|]. split; simpl in *.
  - intros x ox cb'. destruct (decide (x = t)) as [->|Hne].
    + rewrite lookup_insert_eq. intros [= <-] Hw'.
      by replace cb' with cb by congruence.
    + rewrite lookup_insert_ne by done. apply Hslot.
  - intros x y ox oy cb'.
    destruct (decide (x = t)) as [->|Hx], (decide (y = t)) as [->|Hy];
      rewrite ?lookup_insert_eq, ?lookup_insert_ne by done; [done|..].
    + intros [= <-] Hy' Hwx Hwy Hi.
      destruct (Hfresh _ _ Hy' Hy); congruence.
    + intros Hx' [= <-] Hwx Hwy Hi.
      destruct (Hfresh _ _ Hx' Hx); congruence.
    + apply Huniq.
Qed.


Lemma inv_world m objs (w : W) :
  client_inv (Client m objs) →
  client_inv (Client {| signals := signals m; blocks := blocks m;
                        world := w |} objs).
Proof. done. Qed.

Lemma inv_signal_new m objs a m' :
  client_inv (Client m objs) → signal_new m = Done (a, m') →
  client_inv (Client m' objs).
Proof.
  intros Hinv Hnew. pose proof Hinv as (Hwf & _ & _). cbn [heap objects] in *.
  apply (inv_heap m m' objs Hinv).
  - by eapply wf_signal_new.
  - intros cb b Hb. eapply step_use_count; [by eapply step_new|done].
  - unfold signal_new in Hnew. injection Hnew as <- <-. simpl.
    intros x o cb b' sg f _ _ _ _ Hsg Hf. exists sg, f. split; [|done].
    rewrite lookup_insert_ne; [done|]. intros Heq.
    assert (signals m !! fresh (dom (signals m)) = None) as Hfresh
      by apply not_elem_of_dom, is_fresh.
    congruence.
Qed.

Lemma inv_signal_destroy m objs s sg :
  client_inv (Client m objs) → signals m !! s = Some sg →
  ∃ m', signal_destroy s m = Done (tt, m') ∧ client_inv (Client m' objs).
Proof.
  intros Hinv Hsg. pose proof Hinv as (Hwf & _ & _). cbn [heap objects] in *.
  pose proof (signal_destroy_returns m s sg Hwf Hsg) as Hd.
  eexists. split; [exact Hd|].
  apply (inv_heap m _ objs Hinv).
  - by eapply wf_signal_destroy.
  - intros cb b Hb. eapply step_use_count; [by eapply step_destroy|done].
  - simpl. intros x o cb b' sg' f _ _ Hb' Hn Hsg' Hf. exists sg', f.
    split; [|done]. rewrite lookup_delete_ne; [done|]. intros Heq.
    rewrite <- Heq in Hsg'. assert (sg' = sg) as -> by congruence.
    destruct Hwf as [Hown Hlive].
    assert (∃ b, blocks m !! cb = Some b ∧ use_count b ≠ 0 ∧ pointee b = s)
      as (b & Hb & Hnb & Hpb).
    { destruct (blocks m !! cb) as [b|] eqn:Hb.
      - destruct (release_owner_use_count (blocks m)
                    (_shared_disconnector sg) cb b Hb) as (b2 & Hb2 & Hle & Hp).
        exists b. split; [done|].
        assert (b2 = b') as -> by congruence. split; [lia|congruence].
      - apply lookup_ge_None in Hb. apply lookup_lt_Some in Hb'.
        rewrite release_owner_length in Hb'. lia. }
    destruct (Hlive _ _ Hb Hnb) as (sg2 & Hsg2 & Hsh2).
    rewrite Hpb in Hsg2. assert (sg2 = sg) as -> by congruence.
    destruct (Hown _ _ _ Hsg Hsh2) as [Hb1 _].
    rewrite Hsh2 in Hb'. simpl in Hb'. rewrite Hb1 in Hb'.
    rewrite list_lookup_insert_eq in Hb' by (by eapply lookup_lt_Some).
    injection Hb' as <-. simpl in Hn. lia.
Qed.

Lemma inv_connect m objs s sg (f : callable A R W) t :
  client_inv (Client m objs) → signals m !! s = Some sg →
  ∃ c m',
    connect s (Some f) m = Done (c, m')
    ∧ is_Some (signals m' !! s)
    ∧ ∀ o, held o = c → client_inv (Client m' (<[t := o]> objs)).
Proof.
  intros Hinv Hsg. pose proof Hinv as (Hwf & Hslot & _).
  cbn [heap objects] in *.
  destruct (connect_alive m s sg (Some f) Hsg) as (cb & bs & Hc & Hcb & Hbs).
  pose proof (wf_connect _ _ _ _ _ Hwf Hc) as Hwf'.
  eexists _, _. split; [exact Hc|].
  match type of Hc with _ = Done (_, ?x) => set (m' := x) in * end.
  assert (signals m' !! s
          = Some {| _slots := _slots sg ++ [Some f];
                    _disconnector :=
                      match _shared_disconnector sg with
                      | Some _ => _disconnector sg
                      | None => {| _ptr := Some s |}
                      end;
                    _shared_disconnector := Some cb |}) as Hsg'
    by (subst m'; simpl; by rewrite lookup_insert_eq).
  split; [by rewrite Hsg'|]. intros o Ho.
  apply (inv_insert_new m' objs t o cb).
  - apply (inv_heap m m' objs Hinv Hwf').
    + intros cb0 b Hb. eapply step_use_count; [by eapply step_connect|done].
    + intros x ox cb0 b' sg0 f0 _ _ _ _ Hsg0 Hf0.
      destruct (decide (pointee b' = s)) as [Heq|Hne].
      * rewrite Heq in *. rewrite Hsg'. eexists _, f0. split; [done|]. simpl.
        assert (sg0 = sg) as -> by congruence. by apply lookup_app_l_Some.
      * exists sg0, f0. split; [|done]. subst m'. simpl.
        by rewrite lookup_insert_ne.
  - by rewrite Ho.
  - destruct Hwf' as [Hown' _]. destruct (Hown' _ _ _ Hsg' eq_refl) as [Hb' _].
    eexists. split; [exact Hb'|]. intros _. cbn [pointee]. rewrite Hsg'.
    eexists _, f. split; [done|]. rewrite Ho. cbn [_slots _index].
    by apply list_lookup_middle.
  - intros y oy Hy _ Hwy. rewrite Ho. simpl.
    destruct (Hslot _ _ _ Hy Hwy) as (b & Hb & Hlive).
    destruct (_shared_disconnector sg) as [cb0|] eqn:Hsh; simpl in Hcb.
    + subst cb0. destruct Hwf as [Hown _].
      destruct (Hown _ _ _ Hsg Hsh) as [Hb0 _].
      assert (b = {| use_count := 1; pointee := s |}) as -> by congruence.
      destruct Hlive as (sg0 & f0 & Hsg0 & Hf0); [done|]. simpl in Hsg0.
      assert (sg0 = sg) as -> by congruence.
      apply lookup_lt_Some in Hf0. by apply Nat.lt_neq.
    + apply lookup_lt_Some in Hb. lia.
Qed.

Lemma inv_clear m objs x o' :
  client_inv (Client m objs) →
  _weak_disconnector (held o') = None →
  client_inv (Client m (<[x := o']> objs)).
Proof.
  intros Hinv Hw. apply (inv_relabel m objs _ id Hinv).
  - intros y oy. destruct (decide (y = x)) as [->|Hne].
    + rewrite lookup_insert_eq. intros [= <-]. by left.
    + rewrite lookup_insert_ne by done. intros Hy. right. by exists oy.
  - done.
Qed.

Lemma inv_delete m objs x :
  client_inv (Client m objs) → client_inv (Client m (delete x objs)).
Proof.
  intros Hinv. apply (inv_relabel m objs _ id Hinv).
  - intros y oy. destruct (decide (y = x)) as [->|Hne].
    + by rewrite lookup_delete_eq.
    + rewrite lookup_delete_ne by done. intros Hy. right. by exists oy.
  - done.
Qed.

(** Moving the connection of [x] into [y]: [y] holds what [x] held and
    [x] is left empty. *)
Lemma inv_move m objs x y ox ox' oy' :
  client_inv (Client m objs) → objs !! x = Some ox → x ≠ y →
  held oy' = held ox → _weak_disconnector (held ox') = None →
  client_inv (Client m (<[y := oy']> (<[x := ox']> objs))).
Proof.
  intros Hinv Hx Hne Hy' Hx'.
  apply (inv_relabel m objs _ (λ z, if decide (z = y) then x else z) Hinv).
  - intros z oz. destruct (decide (z = y)) as [->|Hzy].
    + rewrite lookup_insert_eq. intros [= <-]. right. by exists ox.
    + rewrite lookup_insert_ne by done.
      destruct (decide (z = x)) as [->|Hzx].
      * rewrite lookup_insert_eq. intros [= <-]. by left.
      * rewrite lookup_insert_ne by done. intros Hz. right. by exists oz.
  - intros z1 z2 o1 o2.
    destruct (decide (z1 = y)) as [->|H1], (decide (z2 = y)) as [->|H2];
      [done|..].
    + rewrite lookup_insert_eq, lookup_insert_ne by done.
      intros _ Hz2 _ Hw2 <-. rewrite lookup_insert_eq in Hz2.
      injection Hz2 as <-. done.
    + rewrite lookup_insert_eq, lookup_insert_ne by done.
      intros Hz1 _ Hw1 _ ->. rewrite lookup_insert_eq in Hz1.
      injection Hz1 as <-. done.
    + done.
Qed.

(** [disconnect] through a variable always returns, and leaves the
    invariant in place once the variable holds the cleared connection. *)
Lemma inv_disconnect m objs x o :
  client_inv (Client m objs) → objs !! x = Some o →
  ∃ m',
    connection_disconnect (held o) m = Done (cleared (held o), m')
    ∧ ∀ o', held o' = cleared (held o) →
            client_inv (Client m' (<[x := o']> objs)).
Proof.
  intros Hinv Hx. pose proof Hinv as (Hwf & Hslot & Huniq).
  cbn [heap objects] in *.
  destruct (lock (blocks m) (_weak_disconnector (held o))) as [cb|] eqn:Hl.
  - destruct (connection_disconnect_live _ m cb Hwf Hl)
      as (this & sg & Hb & Hsg & Hsh & Hrun).
    destruct (lock_Some _ _ _ Hl) as (Hw & _).
    destruct (Hslot _ _ _ Hx Hw) as (b & Hb' & Hlive).
    assert (b = {| use_count := 1; pointee := this |}) as -> by congruence.
    destruct Hlive as (sg0 & f & Hsg0 & Hf); [done|]. simpl in Hsg0.
    assert (sg0 = sg) as -> by congruence.
    assert (_index (held o) < length (_slots sg)) as Hlt
      by (by eapply lookup_lt_Some).
    unfold bind in Hrun.
    rewrite (signal_disconnect_in_bounds _ _ _ _ Hsg Hlt) in Hrun.
    unfold put_signal, ret in Hrun. eexists. split; [exact Hrun|].
    intros o' Ho'.
    assert (_weak_disconnector (held o') = None) as Hw' by (by rewrite Ho').
    apply (inv_heap m _ _ (inv_clear m objs x o' Hinv Hw')).
    + by apply wf_put_slots.
    + simpl. eauto.
    + simpl. intros y oy cby b' sgy fy Hy Hwy Hby Hn Hsgy Hfy.
      destruct (decide (y = x)) as [->|Hyx].
      { rewrite lookup_insert_eq in Hy. injection Hy as <-. congruence. }
      rewrite lookup_insert_ne in Hy by done.
      destruct (decide (pointee b' = this)) as [Heq|Hne].
      * rewrite Heq in *. rewrite lookup_insert_eq.
        assert (sgy = sg) as -> by congruence.
        destruct Hwf as [Hown Hlv].
        destruct (Hlv _ _ Hby Hn) as (sg2 & Hsg2 & Hsh2). rewrite Heq in Hsg2.
        assert (cby = cb) as -> by congruence.
        assert (_index (held oy) ≠ _index (held o)) as Hi.
        { intros Hi. apply Hyx. by apply (Huniq y x oy o cb). }
        eexists _, fy. split; [done|]. simpl.
        apply trim_back_lookup_live. by rewrite list_lookup_insert_ne.
      * rewrite lookup_insert_ne by done. eauto.
  - rewrite (connection_disconnect_expired _ _ Hl). eexists. split; [done|].
    intros o' Ho'. apply inv_clear; [done|]. by rewrite Ho'.
Qed.

(** Adopting a temporary: the connection [connect] returned, kept under
    a name of its own while the old content of [x] was disconnected,
    ends up in [x]. *)
Lemma inv_adopt m objs tmp x o0 c o' :
  client_inv (Client m (<[x := o0]> (<[tmp := Plain c]> objs))) →
  objs !! tmp = None → tmp ≠ x → held o' = c →
  client_inv (Client m (<[x := o']> objs)).
Proof.
  intros Hinv Htmp Hne Ho'.
  apply (inv_relabel m _ _ (λ z, if decide (z = x) then tmp else z) Hinv).
  - intros z oz. destruct (decide (z = x)) as [->|Hzx].
    + rewrite lookup_insert_eq. intros [= <-]. right. exists (Plain c).
      by rewrite lookup_insert_ne, lookup_insert_eq.
    + rewrite lookup_insert_ne by done. intros Hz. right. exists oz.
      rewrite !lookup_insert_ne; [done|congruence|done].
  - intros z1 z2 o1 o2.
    destruct (decide (z1 = x)) as [->|H1], (decide (z2 = x)) as [->|H2];
      [done|..].
    + rewrite lookup_insert_eq, lookup_insert_ne by done.
      intros _ Hz2 _ _ <-. congruence.
    + rewrite lookup_insert_eq, lookup_insert_ne by done.
      intros Hz1 _ _ _ ->. congruence.
    + done.
Qed.

(** Every event of a program keeps the invariant, and none fails. *)
Lemma client_step_inv (ev : event A R W) (cl : client_p) :
  client_inv cl →
  match client_step ev cl with
  | None => True
  | Some (Done cl') => client_inv cl'
  | Some (Failed _) => False
  end.
Proof.
  destruct cl as [m objs]. intros Hinv.
  destruct ev as [|s|s f x|s args|T U cv s init op args|x|y|x|x|x y|x y|y x|y|y x|x];
    unfold client_step; cbn [heap objects].
  - (* new_signal *)
    unfold on_heap, signal_new. cbn [heap].
    by eapply inv_signal_new.
  - (* destroy_signal *)
    destruct (signals m !! s) as [sg|] eqn:Hsg; [|done].
    destruct (inv_signal_destroy m objs s sg Hinv Hsg) as (m' & Hd & Hinv').
    unfold on_heap. cbn [heap]. by rewrite Hd.
  - (* call_connect *)
    destruct (signals m !! s) as [sg|] eqn:Hsg; [|done].
    destruct (objs !! x) as [[old|sc]|] eqn:Hx.
    + destruct (inv_connect m objs s sg f x Hinv Hsg) as (c & m' & Hc & _ & Hins).
      unfold on_heap. cbn [heap]. rewrite Hc. apply Hins. by destruct c.
    + set (tmp := fresh (dom objs)).
      assert (objs !! tmp = None) as Htmp by apply not_elem_of_dom, is_fresh.
      assert (tmp ≠ x) as Hne by congruence.
      destruct (inv_connect m objs s sg f tmp Hinv Hsg)
        as (c & m1 & Hc & _ & Hins).
      pose proof (Hins (Plain c) eq_refl) as Hinv1.
      destruct (inv_disconnect m1 _ x (Scoped sc) Hinv1) as (m2 & Hd & Hins2).
      { by rewrite lookup_insert_ne. }
      unfold on_heap, scoped_assign, scoped_reset, scoped_disconnect.
      cbn [heap]. unfold bind at 1. rewrite Hc.
      unfold bind at 1. unfold bind at 1. cbn [held] in Hd. rewrite Hd.
      unfold ret. cbn [fst snd connection_move_assign _connection].
      eapply (inv_adopt m2 objs tmp x _ c); [|done|done|by destruct c].
      apply (Hins2 (Scoped {| _connection := cleared (_connection sc) |})).
      done.
    + destruct (inv_connect m objs s sg f x Hinv Hsg) as (c & m' & Hc & _ & Hins).
      unfold on_heap. cbn [heap]. rewrite Hc. apply Hins. by destruct c.
  - (* call_signal *)
    destruct (signals m !! s) as [sg|] eqn:Hsg; [|done].
    unfold on_heap, signal_call, bind. cbn [heap].
    rewrite (get_signal_alive _ _ _ Hsg). by apply inv_world.
  - (* call_accumulate *)
    destruct (signals m !! s) as [sg|] eqn:Hsg; [|done].
    unfold on_heap, accumulator_call, accumulate, trigger_with_accumulator,
      bind. cbn [heap _signal _init _func].
    rewrite (get_signal_alive _ _ _ Hsg).
    destruct (accumulate_slots _ _ _ _ _ _) as [v w]. by apply inv_world.
  - (* declare_connection *)
    destruct (objs !! x); [done|]. by apply inv_clear.
  - (* declare_scoped *)
    destruct (objs !! y); [done|]. by apply inv_clear.
  - (* call_connected *)
    by destruct (objs !! x).
  - (* call_disconnect *)
    destruct (objs !! x) as [[c|sc]|] eqn:Hx; [| |done].
    + destruct (inv_disconnect m objs x _ Hinv Hx) as (m' & Hd & Hins).
      unfold on_heap. cbn [heap]. cbn [held] in Hd. rewrite Hd. by apply Hins.
    + destruct (inv_disconnect m objs x _ Hinv Hx) as (m' & Hd & Hins).
      unfold on_heap, scoped_disconnect, bind. cbn [heap]. cbn [held] in Hd.
      rewrite Hd. by apply Hins.
  - (* move_to *)
    case_decide as Hxy; [done|].
    destruct (objs !! x) as [[c|sc]|] eqn:Hx; [| |done].
    + destruct (objs !! y) as [[old|sc']|] eqn:Hy; [|done|];
        cbn [connection_move connection_move_assign];
        (apply (inv_move m objs x y (Plain c));
         [done|done|done|by destruct c|done]).
    + destruct (objs !! y) as [o|] eqn:Hy; [done|].
      unfold scoped_move. cbn [connection_move].
      apply (inv_move m objs x y (Scoped sc)); [done|done|done| |done].
      by destruct sc as [[]].
  - (* scoped_of *)
    case_decide as Hxy; [done|].
    destruct (objs !! x) as [[c|sc]|] eqn:Hx; [|done|done].
    destruct (objs !! y) as [o|] eqn:Hy; [done|].
    unfold scoped_from. cbn [connection_move].
    apply (inv_move m objs x y (Plain c)); [done|done|done|by destruct c|done].
  - (* call_reset *)
    case_decide as Hxy; [done|].
    destruct (objs !! y) as [[c'|sc]|] eqn:Hy; [done| |done].
    destruct (objs !! x) as [[c|sc']|] eqn:Hx; [|done|done].
    destruct (inv_disconnect m objs y _ Hinv Hy) as (m' & Hd & Hins).
    unfold on_heap, scoped_reset, scoped_disconnect. cbn [heap].
    unfold bind at 1. unfold bind at 1. cbn [held] in Hd. rewrite Hd.
    unfold ret. cbn [fst snd connection_move_assign _connection].
    pose proof (Hins (Scoped {| _connection := cleared (_connection sc) |})
                  eq_refl) as Hinv1.
    pose proof (inv_move m' _ x y (Plain c)
                  (Plain {| _weak_disconnector := None; _index := _index c |})
                  (Scoped {| _connection :=
                               {| _weak_disconnector := _weak_disconnector c;
                                  _index := _index c |} |}) Hinv1) as Hinv2.
    rewrite (insert_insert_ne _ x y) in Hinv2 by done.
    rewrite insert_insert_eq in Hinv2. apply Hinv2; [|done| |done].
    * by rewrite lookup_insert_ne by done.
    * by destruct c.
  - (* call_reset_default *)
    destruct (objs !! y) as [[c'|sc]|] eqn:Hy; [done| |done].
    destruct (inv_disconnect m objs y _ Hinv Hy) as (m' & Hd & Hins).
    unfold on_heap, scoped_reset, scoped_disconnect. cbn [heap].
    unfold bind at 1. unfold bind at 1. cbn [held] in Hd. rewrite Hd.
    unfold ret. cbn [fst snd connection_move_assign _connection].
    pose proof (Hins (Scoped {| _connection := cleared (_connection sc) |})
                  eq_refl) as Hinv1.
    rewrite <- (insert_insert_eq objs y _
                  (Scoped {| _connection := cleared (_connection sc) |})).
    by apply inv_clear.
  - (* call_release *)
    case_decide as Hxy; [done|].
    destruct (objs !! y) as [[c'|sc]|] eqn:Hy; [done| |done].
    destruct (objs !! x) as [[old|sc']|] eqn:Hx; [|done|].
    + destruct sc as [[weak index]].
      unfold scoped_release.
      cbn [connection_move connection_move_assign _connection fst snd].
      apply (inv_move m objs y x (Scoped (ScopedConnection
                                            (Connection weak index))));
        [done|done|congruence|done|done].
    + destruct sc as [[weak index]].
      unfold scoped_release.
      cbn [connection_move connection_move_assign _connection fst snd].
      apply (inv_move m objs y x (Scoped (ScopedConnection
                                            (Connection weak index))));
        [done|done|congruence|done|done].
  - (* end_of_scope *)
    destruct (objs !! x) as [[c|sc]|] eqn:Hx; [| |done].
    + by apply inv_delete.
    + destruct (inv_disconnect m objs x _ Hinv Hx) as (m' & Hd & Hins).
      unfold on_heap, scoped_destroy, scoped_disconnect. cbn [heap].
      unfold bind at 1. unfold bind at 1. cbn [held] in Hd. rewrite Hd.
      unfold ret. rewrite <- (delete_insert_eq objs x
                    (Scoped {| _connection := cleared (_connection sc) |})).
      apply inv_delete. by apply Hins.
Qed.

Lemma run_events_inv (evs : list (event A R W)) :
  ∀ cl : client_p,
    client_inv cl →
    match run_events evs cl with
    | None => True
    | Some (Done cl') => client_inv cl'
    | Some (Failed _) => False
    end.
Proof.
  induction evs as [|ev evs IH]; intros cl Hinv; simpl; [done|].
  pose proof (client_step_inv ev cl Hinv) as Hstep.
  destruct (client_step ev cl) as [[cl'|e]|]; [by apply IH|done|done].
Qed.

(** A program over the public interface that connects callables only
    never fails: the [assert] of [signal_type::disconnect] is not
    reached with an index out of bounds, no destroyed signal is used by
    a [disconnect], and no destructor waits forever. *)
Theorem callable_programs_never_fail (evs : list (event A R W)) (w : W) e :
  run_events evs (initial_client w) ≠ Some (Failed e).
Proof.
  pose proof (run_events_inv evs _ (inv_initial w)) as Hrun.
  destruct (run_events evs (initial_client w)) as [[cl'|e']|]; done.
Qed.

(** Whatever such a program has done, a connection that is still
    connected addresses a non-empty slot of its signal, and no other
    variable of the client holds the same block and index. *)
Theorem callable_programs_keep_invariant
    (evs : list (event A R W)) (w : W) cl :
  run_events evs (initial_client w) = Some (Done cl) → client_inv cl.
Proof.
  intros Hrun. pose proof (run_events_inv evs _ (inv_initial w)) as Hinv.
  by rewrite Hrun in Hinv.
Qed.

End ProgramFacts.

(** ** The destructor against [disconnect], step by step *)

Section TeardownFacts.
Context {A R W : Type}.
#[local] Abbreviation threads_t := (threads A R W).
Implicit Types (st : threads_t).

Lemma acquire_owned (blocks : list control_block) cb b :
  blocks !! cb = Some b → use_count b ≠ 0 →
  acquire blocks (Some cb)
  = (Some cb,
     <[cb := {| use_count := S (use_count b); pointee := pointee b |}]> blocks).
Proof.
  intros Hb Hn. unfold acquire. rewrite (lock_owned _ _ _ Hb Hn). by rewrite Hb.
Qed.

Lemma acquire_expired (blocks : list control_block) cb b :
  blocks !! cb = Some b → use_count b = 0 →
  acquire blocks (Some cb) = (None, blocks).
Proof.
  intros Hb Hz. unfold acquire, lock, expired, weak_use_count.
  by rewrite Hb, Hz.
Qed.

Lemma acquire_empty (blocks : list control_block) :
  acquire blocks None = (None, blocks).
Proof. reflexivity. Qed.

Lemma release_owner_owned (blocks : list control_block) cb b :
  blocks !! cb = Some b →
  release_owner blocks (Some cb)
  = <[cb := {| use_count := use_count b - 1; pointee := pointee b |}]> blocks.
Proof. intros Hb. simpl. by rewrite Hb. Qed.

(** A thread that holds a reference keeps the destructor waiting. *)
Lemma held_means_waiting cb slots st p :
  teardown_inv cb slots st →
  disconnect_holds (disconnecting st) = Some p →
  wait_is_over (destructor st) = false.
Proof.
  intros (_ & _ & _ & _ & _ & Hover & _) Hp.
  destruct (wait_is_over (destructor st)); [|done].
  rewrite Hover in Hp; done.
Qed.

(** While [disconnect] holds a reference the signal is there, bound to
    its disconnector. *)
Lemma held_means_alive cb slots st p :
  teardown_inv cb slots st →
  disconnect_holds (disconnecting st) = Some p →
  p = cb
  ∧ ∃ b sg,
      blocks (shared_memory st) !! cb = Some b
      ∧ pointee b = destroyed st
      ∧ signals (shared_memory st) !! destroyed st = Some sg
      ∧ _disconnector sg = {| _ptr := Some (destroyed st) |}
      ∧ (slot_pending (disconnecting st) = true → _slots sg = slots).
Proof.
  intros Hinv Hp. pose proof (held_means_waiting cb slots st p Hinv Hp) as Hw.
  destruct Hinv as ((b & Hb & Hpt & _) & Hsig & Hc & _).
  split; [by apply Hc|]. exists b.
  destruct (destructor st); try done;
    destruct Hsig as (sg & Hsg & Hd & _ & Hslot); exists sg; done.
Qed.

Lemma teardown_inv_start (m : memory A R W) this sg cb i :
  wf_memory m → signals m !! this = Some sg →
  _shared_disconnector sg = Some cb →
  teardown_inv cb (_slots sg) (teardown_start m this (Connection (Some cb) i)).
Proof.
  intros [Hown _] Hsg Hsh. destruct (Hown _ _ _ Hsg Hsh) as [Hb Hd].
  unfold teardown_inv, teardown_start. simpl. split_and!; try done.
  - by eexists.
  - exists sg. split_and!; eauto.
  - by intros p [= <-].
Qed.

Lemma destructor_step_inv cb slots st :
  teardown_inv cb slots st →
  match destructor_step st with
  | None => destructor st = d_done
  | Some (Done st') => teardown_inv cb slots st'
  | Some (Failed _) => False
  end.
Proof.
  destruct st as [m this dat c cat]. unfold teardown_inv, destructor_step.
  cbn [shared_memory destroyed destructor handle disconnecting].
  intros ((b & Hb & Hpt & Hcount) & Hsig & Hc & Hd & Hweak & Hover & Hh & Hin).
  destruct dat as [|w|w|w tmp|w| |]; cbn [signal_holds destructor_holds
    wait_is_over one_if] in *.
  - (* d_start *)
    destruct Hsig as (sg & Hsg & Hdis & Hsh & Hslot). rewrite Hsg.
    unfold teardown_inv, destructor_to. simpl. split_and!; try done.
    + by exists b.
    + by exists sg.
  - (* d_reset *)
    destruct Hsig as (sg & Hsg & Hdis & Hsh & Hslot). rewrite Hsg.
    unfold teardown_inv, destructor_to, with_memory. simpl.
    rewrite Hsh, (release_owner_owned _ _ _ Hb).
    split_and!; try done.
    + eexists. rewrite list_lookup_insert_eq by (by eapply lookup_lt_Some).
      split; [done|]. simpl. split; [done|lia].
    + eexists. rewrite lookup_insert_eq. done.
  - (* d_lock *)
    subst w. destruct (decide (use_count b = 0)) as [Hz|Hnz].
    + rewrite (acquire_expired _ _ _ Hb Hz).
      unfold teardown_inv, destructor_to, with_blocks, with_memory. simpl.
      split_and!; try done.
      * by exists b.
      * intros _. destruct (disconnect_holds cat); [simpl in *; lia|done].
    + rewrite (acquire_owned _ _ _ Hb Hnz).
      unfold teardown_inv, destructor_to, with_blocks, with_memory. simpl.
      split_and!; try done.
      * eexists. rewrite list_lookup_insert_eq by (by eapply lookup_lt_Some).
        split; [done|]. simpl. split; [done|lia].
      * by intros p [= <-].
  - (* d_test *)
    destruct tmp as [p|].
    + rewrite (Hd p eq_refl), (release_owner_owned _ _ _ Hb).
      unfold teardown_inv, destructor_to, with_blocks, with_memory. simpl.
      split_and!; try done.
      eexists. rewrite list_lookup_insert_eq by (by eapply lookup_lt_Some).
      split; [done|]. simpl. split; [done|]. simpl in Hcount. lia.
    + unfold teardown_inv, destructor_to, with_blocks, with_memory. simpl.
      split_and!; try done. by exists b.
  - (* d_yield *)
    unfold teardown_inv, destructor_to. simpl. split_and!; try done.
    by exists b.
  - (* d_members *)
    unfold teardown_inv, destructor_to, with_memory. simpl.
    split_and!; try done.
    + by exists b.
    + by rewrite lookup_delete_eq.
  - done.
Qed.

Lemma disconnect_step_inv cb slots st :
  teardown_inv cb slots st →
  match disconnect_step st with
  | None => disconnecting st = c_done
  | Some (Done st') => teardown_inv cb slots st'
  | Some (Failed e) =>
      e = assertion_failed
      ∧ length slots ≤ _index (handle st)
      ∧ ∃ p, disconnecting st = c_body p (destroyed st)
  end.
Proof.
  intros Hinv.
  pose proof (λ p, held_means_alive cb slots st p Hinv) as Halive.
  pose proof (λ p, held_means_waiting cb slots st p Hinv) as Hwaiting.
  destruct st as [m this dat c cat]. unfold teardown_inv, disconnect_step in *.
  cbn [shared_memory destroyed destructor handle disconnecting] in *.
  destruct Hinv
    as ((b & Hb & Hpt & Hcount) & Hsig & Hc & Hd & Hweak & Hover & Hh & Hin).
  destruct cat as [|ptr|p|p sig|p sig|p sig|ptr|ptr|];
    cbn [disconnect_holds slot_pending one_if] in *.
  - (* c_start *)
    assert (acquire (blocks m) (_weak_disconnector c) = (None, blocks m)
            ∨ (use_count b ≠ 0
               ∧ acquire (blocks m) (_weak_disconnector c)
                 = (Some cb,
                    <[cb := {| use_count := S (use_count b);
                               pointee := pointee b |}]> (blocks m))))
      as [->|[Hnz ->]].
    { destruct (_weak_disconnector c) as [p|]; [|by left].
      rewrite (Hh p eq_refl).
      destruct (decide (use_count b = 0)) as [Hz|Hnz].
      - left. by eapply acquire_expired.
      - right. split; [done|]. by eapply acquire_owned. }
    + unfold teardown_inv, disconnect_to, with_blocks, with_memory. simpl.
      split_and!; try done. by exists b.
    + unfold teardown_inv, disconnect_to, with_blocks, with_memory. simpl.
      split_and!; try done.
      * eexists. rewrite list_lookup_insert_eq by (by eapply lookup_lt_Some).
        split; [done|]. simpl. split; [done|]. simpl in Hcount. lia.
      * by intros p [= <-].
      * intros Hw. exfalso. apply Hnz. rewrite Hcount.
        destruct dat as [|w|w|w [tmp|]|w| |]; simpl in *; done.
  - (* c_test *)
    destruct ptr as [p|];
      unfold teardown_inv, disconnect_to; simpl; split_and!; try done;
      try (by exists b).
    destruct dat; try done;
      destruct Hsig as (sg & Hsg & Hdis & Hsh & Hslot); exists sg; done.
  - (* c_call *)
    destruct (Halive p eq_refl) as (-> & b' & sg & Hb' & Hpt' & Hsg & Hdis & Hslot).
    rewrite Hb', Hpt', Hsg, Hdis. simpl.
    unfold teardown_inv, disconnect_to. simpl. split_and!; try done.
    by exists b.
  - (* c_mutex *)
    destruct (Halive p eq_refl) as (-> & b' & sg & Hb' & Hpt' & Hsg & Hdis & Hslot).
    subst sig. rewrite Hsg.
    unfold teardown_inv, disconnect_to. simpl. split_and!; try done.
    by exists b.
  - (* c_body *)
    destruct (Halive p eq_refl) as (-> & b' & sg & Hb' & Hpt' & Hsg & Hdis & Hslot).
    subst sig. pose proof (Hslot eq_refl) as Hsame.
    destruct (decide (_index c < length (_slots sg))) as [Hlt|Hge]; last first.
    { rewrite (signal_disconnect_out_of_bounds m this sg (_index c) Hsg)
        by lia.
      split; [done|]. split; [rewrite <- Hsame; lia|by exists cb]. }
    rewrite (signal_disconnect_in_bounds m this sg (_index c) Hsg Hlt).
    unfold put_signal.
    unfold teardown_inv, disconnect_to, with_memory. simpl.
    split_and!; try done.
    + by exists b.
    + pose proof (Hwaiting cb eq_refl) as Hw.
      destruct dat as [|w|w|w [tmp|]|w| |]; try done;
        destruct Hsig as (sg' & Hsg' & Hdis' & Hsh' & _);
        rewrite lookup_insert_eq; eexists; split_and!; try done;
        simpl in *; congruence.
  - (* c_unlock *)
    destruct (Halive p eq_refl) as (-> & b' & sg & Hb' & Hpt' & Hsg & Hdis & Hslot).
    subst sig. rewrite Hsg.
    unfold teardown_inv, disconnect_to. simpl. split_and!; try done.
    by exists b.
  - (* c_reset *)
    unfold teardown_inv. simpl. split_and!; try done. by exists b.
  - (* c_release *)
    destruct ptr as [p|].
    + rewrite (Hc p eq_refl), (release_owner_owned _ _ _ Hb).
      unfold teardown_inv, disconnect_to, with_blocks, with_memory. simpl.
      split_and!; try done.
      eexists. rewrite list_lookup_insert_eq by (by eapply lookup_lt_Some).
      split; [done|]. simpl. split; [done|]. simpl in Hcount. lia.
    + unfold teardown_inv, disconnect_to, with_blocks, with_memory. simpl.
      split_and!; try done. by exists b.
  - done.
Qed.

Lemma destructor_step_destroyed st st' :
  destructor_step st = Some (Done st') → destroyed st' = destroyed st.
Proof.
  unfold destructor_step. destruct (destructor st) as [|w|w|w tmp|w| |].
  - destruct (signals _ !! _); [|done]. by intros [= <-].
  - destruct (signals _ !! _); [|done]. by intros [= <-].
  - destruct (acquire _ _). by intros [= <-].
  - by intros [= <-].
  - by intros [= <-].
  - by intros [= <-].
  - done.
Qed.

Lemma disconnect_step_destroyed st st' :
  disconnect_step st = Some (Done st') → destroyed st' = destroyed st.
Proof.
  unfold disconnect_step.
  destruct (disconnecting st) as [|ptr|p|p sig|p sig|p sig|ptr|ptr|].
  - destruct (acquire _ _). by intros [= <-].
  - by intros [= <-].
  - destruct (blocks _ !! _); [|done]. destruct (signals _ !! _); [|done].
    by intros [= <-].
  - destruct (signals _ !! _); [|done]. by intros [= <-].
  - destruct (signal_disconnect _ _ _) as [[[] m']|e]; [|done].
    by intros [= <-].
  - destruct (signals _ !! _); [|done]. by intros [= <-].
  - by intros [= <-].
  - by intros [= <-].
  - done.
Qed.

Lemma destructor_step_handle st st' :
  destructor_step st = Some (Done st') → handle st' = handle st.
Proof.
  unfold destructor_step. destruct (destructor st) as [|w|w|w tmp|w| |].
  - destruct (signals _ !! _); [|done]. by intros [= <-].
  - destruct (signals _ !! _); [|done]. by intros [= <-].
  - destruct (acquire _ _). by intros [= <-].
  - by intros [= <-].
  - by intros [= <-].
  - by intros [= <-].
  - done.
Qed.

Lemma disconnect_step_index st st' :
  disconnect_step st = Some (Done st') →
  _index (handle st') = _index (handle st).
Proof.
  unfold disconnect_step.
  destruct (disconnecting st) as [|ptr|p|p sig|p sig|p sig|ptr|ptr|].
  - destruct (acquire _ _). by intros [= <-].
  - by intros [= <-].
  - destruct (blocks _ !! _); [|done]. destruct (signals _ !! _); [|done].
    by intros [= <-].
  - destruct (signals _ !! _); [|done]. by intros [= <-].
  - destruct (signal_disconnect _ _ _) as [[[] m']|e]; [|done].
    by intros [= <-].
  - destruct (signals _ !! _); [|done]. by intros [= <-].
  - by intros [= <-].
  - by intros [= <-].
  - done.
Qed.

Lemma reachable_index st st' :
  rtc interleaved st st' → _index (handle st') = _index (handle st).
Proof.
  intros Hsteps. induction Hsteps as [|st1 st2 st3 H12 _ IH]; [done|].
  rewrite IH. destruct H12 as [sa sb Hstep|sa sb Hstep].
  - by rewrite (destructor_step_handle _ _ Hstep).
  - by apply disconnect_step_index.
Qed.

Lemma interleaved_inv cb slots st st' :
  teardown_inv cb slots st → interleaved st st' →
  teardown_inv cb slots st' ∧ destroyed st' = destroyed st.
Proof.
  intros Hinv Hrun. revert Hinv.
  destruct Hrun as [st1 st2 Hstep|st1 st2 Hstep]; intros Hinv.
  - pose proof (destructor_step_inv cb slots st1 Hinv) as Hnext.
    rewrite Hstep in Hnext. split; [done|].
    by apply destructor_step_destroyed.
  - pose proof (disconnect_step_inv cb slots st1 Hinv) as Hnext.
    rewrite Hstep in Hnext. split; [done|].
    by apply disconnect_step_destroyed.
Qed.

Lemma reachable_inv cb slots st st' :
  teardown_inv cb slots st → rtc interleaved st st' →
  teardown_inv cb slots st' ∧ destroyed st' = destroyed st.
Proof.
  intros Hinv Hsteps. induction Hsteps as [|st1 st2 st3 H12 _ IH]; [done|].
  destruct (interleaved_inv cb slots st1 st2 Hinv H12) as [Hinv2 Hd2].
  destruct (IH Hinv2) as [Hinv3 Hd3]. split; [done|congruence].
Qed.

Lemma run_schedule_reachable (schedule : list bool) :
  ∀ st st', run_schedule schedule st = Some st' → rtc interleaved st st'.
Proof.
  induction schedule as [|pick rest IH]; intros st st'; simpl.
  - intros [= <-]. apply rtc_refl.
  - destruct pick.
    + destruct (destructor_step st) as [[st1|e]|] eqn:Hstep; [|done|done].
      intros Hrest. eapply rtc_l; [by apply destructor_runs|by apply IH].
    + destruct (disconnect_step st) as [[st1|e]|] eqn:Hstep; [|done|done].
      intros Hrest. eapply rtc_l; [by apply disconnect_runs|by apply IH].
Qed.

(** X18. The destructor of a signal against [disconnect] on one of its
    connections, for the interleavings of two threads whose steps on
    the control block are atomic. From a well-formed memory in which
    the signal at [this] is alive, let one thread run the destructor of
    the signal and the other [c.disconnect()] for a connection [c] the
    signal returned, whatever its index, interleaved in any way. In
    every state they reach: no step of the destructor fails; no step of
    either thread uses a member of a destroyed signal; the only step
    that can fail is the [assert] of [signal_type::disconnect], which
    fails exactly when the index of [c] is outside the vector the signal
    started with; while [disconnect] is inside the signal the storage is
    there and the destructor has not left its wait loop; the destructor
    leaves the loop only when [disconnect] holds no strong reference;
    and when both are done the signal is gone, the control block has no
    owner and the connection is cleared. *)
Theorem teardown_keeps_the_signal_alive (m : memory A R W) this sg cb i st :
  wf_memory m → signals m !! this = Some sg →
  _shared_disconnector sg = Some cb →
  rtc interleaved (teardown_start m this (Connection (Some cb) i)) st →
  destroyed st = this
  ∧ (∀ e, destructor_step st ≠ Some (Failed e))
  ∧ disconnect_step st ≠ Some (Failed use_after_free)
  ∧ (∀ e, disconnect_step st = Some (Failed e) →
          e = assertion_failed ∧ length (_slots sg) ≤ i
          ∧ ∃ p, disconnecting st = c_body p this)
  ∧ (∀ p, length (_slots sg) ≤ i → disconnecting st = c_body p this →
          disconnect_step st = Some (Failed assertion_failed))
  ∧ (inside_signal (disconnecting st) = true →
     is_Some (signals (shared_memory st) !! this)
     ∧ wait_is_over (destructor st) = false)
  ∧ (wait_is_over (destructor st) = true →
     disconnect_holds (disconnecting st) = None)
  ∧ (destructor st = d_done → disconnecting st = c_done →
     signals (shared_memory st) !! this = None
     ∧ weak_use_count (blocks (shared_memory st)) (Some cb) = 0
     ∧ _weak_disconnector (handle st) = None).
Proof.
  intros Hwf Hsg Hsh Hreach.
  destruct (reachable_inv cb (_slots sg) _ st
              (teardown_inv_start m this sg cb i Hwf Hsg Hsh) Hreach)
    as [Hinv Hthis].
  simpl in Hthis. split; [done|].
  pose proof (reachable_index _ _ Hreach) as Hindex. simpl in Hindex.
  pose proof (destructor_step_inv cb _ st Hinv) as Hd.
  pose proof (disconnect_step_inv cb _ st Hinv) as Hc.
  split; [|split; [|split; [|split; [|split; [|split]]]]].
  - intros e He. by rewrite He in Hd.
  - intros He. rewrite He in Hc. by destruct Hc as [? _].
  - intros e He. rewrite He in Hc. rewrite Hindex, Hthis in Hc. done.
  - intros p Hout Hat.
    assert (disconnect_holds (disconnecting st) = Some p) as Hp
      by (by rewrite Hat).
    destruct (held_means_alive cb _ st p Hinv Hp)
      as (_ & b & sg' & _ & _ & Hsg' & _ & Hslot).
    unfold disconnect_step. rewrite Hat.
    rewrite Hat in Hslot. rewrite <- Hthis, Hindex.
    rewrite (signal_disconnect_out_of_bounds _ _ sg' i Hsg');
      [done|by rewrite (Hslot eq_refl)].
  - intros Hinside.
    assert (∃ p, disconnect_holds (disconnecting st) = Some p) as [p Hp]
      by (destruct (disconnecting st); try done; eauto).
    destruct (held_means_alive cb _ st p Hinv Hp)
      as (_ & b & sg' & _ & _ & Hsg' & _).
    rewrite <- Hthis. split; [by rewrite Hsg'|].
    by eapply held_means_waiting.
  - by destruct Hinv as (_ & _ & _ & _ & _ & Hover & _).
  - intros Hdd Hcd.
    destruct Hinv as ((b & Hb & _ & Hcount) & Hsig & _ & _ & _ & _ & _ & Hin).
    rewrite Hdd, Hcd in *. simpl in *. rewrite <- Hthis.
    split; [done|]. split; [by rewrite Hb|done].
Qed.

End TeardownFacts.

(** ** The order of calls *)

Section OrderFacts.
Context {A R W : Type}.
Implicit Types (slots : list (slot_type A R W)) (f : callable A R W).

Lemma live_from_app slots1 slots2 n :
  live_from n (slots1 ++ slots2)
  = live_from n slots1 ++ live_from (n + length slots1) slots2.
Proof.
  revert n. induction slots1 as [|[g|] slots1 IH]; intros n; simpl.
  - by rewrite Nat.add_0_r.
  - rewrite IH. by replace (S n + length slots1) with (n + S (length slots1)) by lia.
  - rewrite IH. by replace (S n + length slots1) with (n + S (length slots1)) by lia.
Qed.

Lemma live_from_tombstones n k :
  live_from n (replicate k (None : slot_type A R W)) = [].
Proof. revert n. induction k as [|k IH]; intros n; [done|]. simpl. apply IH. Qed.

Lemma live_from_trim_back slots n :
  live_from n (trim_back slots) = live_from n slots.
Proof.
  destruct (trim_back_tail slots) as [k Hk]. rewrite Hk at 2.
  by rewrite live_from_app, live_from_tombstones, app_nil_r.
Qed.

Lemma filter_all {X} (P : X → Prop) `{∀ x, Decision (P x)} (l : list X) :
  Forall P l → filter P l = l.
Proof.
  induction 1 as [|x l Hx _ IH]; [done|].
  by rewrite filter_cons_True, IH.
Qed.

Lemma live_from_erase slots n j :
  live_from n (<[j := None]> slots)
  = filter (λ p, p.1 ≠ n + j) (live_from n slots).
Proof.
  revert n j. induction slots as [|slot slots IH]; intros n j; [done|].
  assert (filter (λ p : nat * callable A R W, p.1 ≠ n) (live_from (S n) slots)
          = live_from (S n) slots) as Hall.
  { apply filter_all. pose proof (live_from_lower slots (S n)) as Hlow.
    rewrite Forall_fmap in Hlow. eapply Forall_impl; [exact Hlow|].
    intros [i g]; simpl. lia. }
  destruct j as [|j]; simpl.
  - rewrite Nat.add_0_r. destruct slot as [g|]; simpl; [|by rewrite Hall].
    rewrite filter_cons_False by (simpl; lia). by rewrite Hall.
  - replace (n + S j) with (S n + j) by lia.
    destruct slot as [g|]; simpl; [|apply IH].
    rewrite filter_cons_True by (simpl; lia). by rewrite IH.
Qed.

Lemma trim_back_tombstones slots k :
  trim_back (slots ++ replicate k (None : slot_type A R W)) = trim_back slots.
Proof.
  induction k as [|k IH]; [by rewrite app_nil_r|].
  rewrite replicate_S_end, app_assoc.
  etrans; [exact (trim_back_snoc_empty (slots ++ replicate k None))|exact IH].
Qed.

Lemma trim_back_id slots : back slots ≠ Some None → trim_back slots = slots.
Proof.
  destruct slots as [|slot slots _] using rev_ind; [done|].
  rewrite back_snoc. destruct slot as [f|]; [|done].
  intros _. apply trim_back_snoc_live.
Qed.

Lemma accumulate_slots_world {T U} (cv : conversions T U) slots (v : T)
    func args (w : W) :
  (accumulate_slots cv slots v func args w).2 = call_slots slots args w.
Proof.
  revert v w. induction slots as [|[f|] slots IH]; intros v w; simpl; [done| |apply IH].
  destruct (f args w) as [r w'] eqn:Hf. simpl. apply IH.
Qed.

Lemma accumulate_slots_tombstones {T U} (cv : conversions T U) slots
    (v : T) func args (w : W) :
  (∀ i f, slots !! i ≠ Some (Some f)) →
  accumulate_slots cv slots v func args w = (v, w).
Proof.
  induction slots as [|[f|] slots IH]; intros Hno; simpl; [done| |].
  - by destruct (Hno 0 f).
  - apply IH. intros i f. apply (Hno (S i) f).
Qed.

Lemma trim_loop_replicate slots k fuel :
  back slots ≠ Some None →
  trim_loop fuel (slots ++ replicate k (None : slot_type A R W))
  = slots ++ replicate (k - fuel) None.
Proof.
  intros Hback. revert k. induction fuel as [|fuel IH]; intros k.
  - by rewrite Nat.sub_0_r.
  - destruct k as [|k].
    + simpl. rewrite !app_nil_r. revert Hback.
      destruct slots as [|slot slots _] using rev_ind; [done|].
      rewrite back_snoc. by destruct slot.
    + rewrite replicate_S_end, app_assoc.
      pose proof (back_snoc (slots ++ replicate k None) None) as Hb.
      pose proof (pop_back_snoc (slots ++ replicate k None) None) as Hp.
      unfold slot_type in *. simpl. rewrite Hb, Hp. simpl. apply IH.
Qed.

End OrderFacts.

Section CallOrder.
Context {A R W : Type}.
#[local] Abbreviation mem_o := (memory A R W).

Lemma connected_lock c (m : mem_o) :
  connected c m = true →
  ∃ cb, _weak_disconnector c = Some cb
        ∧ lock (blocks m) (_weak_disconnector c) = Some cb.
Proof.
  unfold connected, lock.
  destruct (expired (blocks m) (_weak_disconnector c)) eqn:E; [done|].
  intros _. destruct (_weak_disconnector c) as [cb|]; [eauto|done].
Qed.

Lemma signal_call_live (m : mem_o) this sg args :
  signals m !! this = Some sg →
  signal_call this args m
  = Done (tt, {| signals := signals m; blocks := blocks m;
                 world := call_each (live_slots (_slots sg)) args (world m) |}).
Proof.
  intros Hsg. unfold signal_call, bind. rewrite (get_signal_alive _ _ _ Hsg).
  by rewrite (call_slots_live_from _ 0).
Qed.

(** X4. A connected connection names the control block of a live
    signal. When its index is in bounds, [disconnect] returns without
    calling a slot, and the slots a later trigger calls are the ones it
    called before without the slot at that index, in the same order. *)
Theorem disconnect_removes_one_call (m : mem_o) c (args : A) :
  wf_memory m → connected c m = true →
  ∃ cb this sg,
    _weak_disconnector c = Some cb
    ∧ blocks m !! cb = Some {| use_count := 1; pointee := this |}
    ∧ signals m !! this = Some sg
    ∧ (_index c < length (_slots sg) →
       ∃ m' sg',
         connection_disconnect c m = Done (cleared c, m')
         ∧ world m' = world m
         ∧ signals m' !! this = Some sg'
         ∧ live_slots (_slots sg')
           = filter (λ p, p.1 ≠ _index c) (live_slots (_slots sg))
         ∧ signal_call this args m'
           = Done (tt, {| signals := signals m'; blocks := blocks m';
                          world :=
                            call_each
                              (filter (λ p, p.1 ≠ _index c)
                                 (live_slots (_slots sg)))
                              args (world m) |})).
Proof.
  intros Hwf Hc. destruct (connected_lock c m Hc) as (cb & Hw & Hl).
  destruct (connection_disconnect_live c m cb Hwf Hl)
    as (this & sg & Hb & Hsg & _ & Hrun).
  exists cb, this, sg. split_and!; [done..|]. intros Hi.
  assert (live_slots (trim_back (<[_index c := None]> (_slots sg)))
          = filter (λ p, p.1 ≠ _index c) (live_slots (_slots sg))) as Hlive.
  { unfold live_slots. by rewrite live_from_trim_back, live_from_erase. }
  rewrite Hrun. unfold bind.
  rewrite (signal_disconnect_in_bounds m this sg _ Hsg Hi). simpl.
  eexists _, _. split; [reflexivity|]. split; [done|].
  split; [apply lookup_insert_eq|]. split; [exact Hlive|].
  erewrite signal_call_live by apply lookup_insert_eq.
  simpl. by rewrite Hlive.
Qed.

(** X5. [connect] appends: the connected callable is called after
    every slot connected before it, which are called as before. An empty
    function is stored as well and never called. *)
Theorem connect_is_called_last (m : mem_o) this sg
    (f : callable A R W) (args : A) :
  signals m !! this = Some sg →
  let before := call_each (live_slots (_slots sg)) args (world m) in
  (∃ c m' sg',
      connect this (Some f) m = Done (c, m')
      ∧ signals m' !! this = Some sg'
      ∧ _index c = length (_slots sg)
      ∧ live_slots (_slots sg') = live_slots (_slots sg) ++ [(_index c, f)]
      ∧ signal_call this args m'
        = Done (tt, {| signals := signals m'; blocks := blocks m';
                       world := (f args before).2 |}))
  ∧ (∃ c m' sg',
        connect this None m = Done (c, m')
        ∧ signals m' !! this = Some sg'
        ∧ live_slots (_slots sg') = live_slots (_slots sg)
        ∧ signal_call this args m'
          = Done (tt, {| signals := signals m'; blocks := blocks m';
                         world := before |})).
Proof.
  intros Hsg before. split.
  - destruct (connect_alive m this sg (Some f) Hsg)
      as (cb & blocks' & Hrun & _ & _).
    assert (live_slots (_slots sg ++ [Some f])
            = live_slots (_slots sg) ++ [(length (_slots sg), f)]) as Hlive.
    { unfold live_slots. by rewrite live_from_app. }
    eexists _, _, _. split; [exact Hrun|]. simpl.
    split; [apply lookup_insert_eq|]. split; [done|]. split; [exact Hlive|].
    erewrite signal_call_live by apply lookup_insert_eq.
    simpl. unfold slot_type in *. rewrite Hlive. unfold call_each. by rewrite foldl_app.
  - destruct (connect_alive m this sg None Hsg)
      as (cb & blocks' & Hrun & Hcb & Hblocks).
    assert (live_slots (_slots sg ++ [None]) = live_slots (_slots sg))
      as Hlive.
    { unfold live_slots. by rewrite live_from_app, app_nil_r. }
    eexists _, _, _. split; [exact Hrun|]. simpl.
    split; [apply lookup_insert_eq|]. split; [exact Hlive|].
    erewrite signal_call_live by apply lookup_insert_eq.
    simpl. unfold slot_type in *. by rewrite Hlive.
Qed.

End CallOrder.

Section MoreFacts.
Context {A R W : Type}.
#[local] Abbreviation mem_q := (memory A R W).
Implicit Types (slots : list (slot_type A R W)).

(** X6. An accumulator call leaves the memory a trigger with the same
    arguments leaves: it calls the same slots in the same order and
    changes nothing else. On a signal without a non-empty slot it returns
    the initial value, converted to the type of its result, and changes
    nothing. *)
Theorem accumulate_calls_like_trigger {T U : Type} (cv : conversions T U)
    (m : mem_q) this sg (init : T) (op : T → R → U) (args : A) :
  signals m !! this = Some sg →
  ∃ v m',
    accumulator_call cv (accumulate this init op) args m = Done (v, m')
    ∧ signal_call this args m = Done (tt, m')
    ∧ ((∀ i f, _slots sg !! i ≠ Some (Some f)) →
       v = to_result cv init ∧ m' = m).
Proof.
  intros Hsg.
  unfold accumulator_call, accumulate, trigger_with_accumulator, signal_call,
    bind; simpl.
  rewrite (get_signal_alive _ _ _ Hsg).
  pose proof (accumulate_slots_world cv (_slots sg) init op args (world m))
    as Hw.
  destruct (accumulate_slots cv (_slots sg) init op args (world m))
    as [v w] eqn:E.
  simpl in Hw. subst w. eexists _, _. split; [reflexivity|].
  split; [reflexivity|]. intros Hno.
  rewrite (accumulate_slots_tombstones cv _ _ _ _ _ Hno) in E.
  injection E as <- Hw. rewrite <- Hw. by destruct m.
Qed.

(** X8. On a signal that has connected before and whose vector does not
    end in an empty slot, [connect] followed by [disconnect] on the
    connection it returned gives the memory back as it was: the slot is
    pushed, emptied and popped again. *)
Theorem connect_disconnect_round_trip (m : mem_q) this sg cb
    (slot : slot_type A R W) :
  wf_memory m → signals m !! this = Some sg →
  _shared_disconnector sg = Some cb → back (_slots sg) ≠ Some None →
  (let* c := connect this slot in connection_disconnect c) m
  = Done ({| _weak_disconnector := None; _index := length (_slots sg) |}, m).
Proof.
  intros Hwf Hsg Hsh Hback.
  destruct (Hwf) as [Hown _]. destruct (Hown _ _ _ Hsg Hsh) as [Hb Hd].
  destruct (connect_alive m this sg slot Hsg) as (cb' & blocks' & Hrun & -> & ->).
  unfold bind at 1. rewrite Hrun, Hsh. simpl.
  erewrite connection_disconnect_locked;
    [|by apply (lock_owned _ _ _ Hb)|exact Hb|apply lookup_insert_eq].
  simpl. rewrite Hd. unfold bind, disconnector_call. simpl.
  erewrite signal_disconnect_in_bounds;
    [|apply lookup_insert_eq|simpl; rewrite length_app; simpl; lia].
  simpl. unfold cleared, ret. simpl.
  assert (trim_back (<[length (_slots sg) := None]> (_slots sg ++ [slot]))
          = _slots sg) as ->.
  { replace (length (_slots sg)) with (length (_slots sg) + 0) by lia.
    rewrite insert_app_r. simpl.
    etrans; [exact (trim_back_snoc_empty (_slots sg))|by apply trim_back_id]. }
  rewrite insert_insert_eq. destruct m as [sigs bs w]; simpl in *.
  do 3 f_equal. apply insert_id. rewrite Hsg. f_equal. destruct sg; simpl in *. congruence.
Qed.

(** X9. Moving a scoped connection, or building one from a connection,
    hands the duty to disconnect over: the target holds what the source
    held, the source is not connected, and destroying both, in either
    order, is destroying the original once. Wrapping what [release]
    returned gives the scoped connection back. *)
Theorem scoped_move_transfers_disconnect
    (sc : scoped_connection) (c : connection) (m : mem_q) :
  (scoped_move sc).1 = sc
  ∧ scoped_connected (scoped_move sc).2 m = false
  ∧ (run scoped_destroy (scoped_move sc).2 in scoped_destroy (scoped_move sc).1) m
    = scoped_destroy sc m
  ∧ (run scoped_destroy (scoped_move sc).1 in scoped_destroy (scoped_move sc).2) m
    = scoped_destroy sc m
  ∧ _connection (scoped_from c).1 = c
  ∧ connected (scoped_from c).2 m = false
  ∧ (let* c' := connection_disconnect (scoped_from c).2 in
     scoped_destroy (scoped_from c).1) m
    = (run connection_disconnect c in ret tt) m
  ∧ (scoped_from (scoped_release sc).1).1 = sc.
Proof.
  destruct sc as [[w i]], c as [wc ic].
  split; [done|]. split; [done|]. split; [done|]. split.
  { unfold scoped_move, scoped_destroy, scoped_disconnect, bind; simpl.
    destruct (connection_disconnect _ m) as [[c' m']|e]; done. }
  split; [done|]. split; [done|]. split; [|done].
  unfold scoped_from, scoped_destroy, scoped_disconnect, bind; simpl.
  by destruct (connection_disconnect _ m) as [[c' m']|e].
Qed.

(** X12. Every vector is a part that does not end in an empty slot
    followed by [k] empty slots. Each iteration of the trim loop pops one
    of them, so after [fuel] iterations [k - fuel] are left, and the
    [size()] iterations of [trim_back] leave none. *)
Theorem trim_loop_pops_the_empty_tail (vector : list (slot_type A R W)) :
  ∃ slots k,
    vector = slots ++ replicate k None
    ∧ back slots ≠ Some None
    ∧ trim_back vector = slots
    ∧ ∀ fuel, trim_loop fuel vector = slots ++ replicate (k - fuel) None.
Proof.
  destruct (trim_back_tail vector) as [k Hk].
  exists (trim_back vector), k. split; [exact Hk|].
  split; [apply trim_loop_exit|]. split; [done|].
  intros fuel. rewrite Hk at 1. apply trim_loop_replicate, trim_loop_exit.
Qed.

End MoreFacts.

(** ** What an operation leaves alone *)

Section FrameFacts.
Context {A R W : Type}.
#[local] Abbreviation mem_f := (memory A R W).
Implicit Types (slots : list (slot_type A R W)).

(** What a disconnect that locks does to the memory. *)
Lemma connection_disconnect_effect (m : mem_f) c :
  wf_memory m →
  (lock (blocks m) (_weak_disconnector c) = None
   ∧ connection_disconnect c m = Done (cleared c, m))
  ∨ ∃ cb this sg,
      _weak_disconnector c = Some cb
      ∧ blocks m !! cb = Some {| use_count := 1; pointee := this |}
      ∧ signals m !! this = Some sg
      ∧ _shared_disconnector sg = Some cb
      ∧ connection_disconnect c m
        = if decide (_index c < length (_slots sg)) then
            Done (cleared c,
                  {| signals :=
                       <[this := {| _slots :=
                                      trim_back
                                        (<[_index c := None]> (_slots sg));
                                    _disconnector := _disconnector sg;
                                    _shared_disconnector :=
                                      _shared_disconnector sg |}]>
                         (signals m);
                     blocks := blocks m; world := world m |})
          else Failed assertion_failed.
Proof.
  intros Hwf.
  destruct (lock (blocks m) (_weak_disconnector c)) as [cb|] eqn:Hl.
  - right. destruct (lock_Some _ _ _ Hl) as (Hw & _).
    destruct (connection_disconnect_live c m cb Hwf Hl)
      as (this & sg & Hb & Hsg & Hsh & Hrun).
    exists cb, this, sg. split_and!; [done..|]. rewrite Hrun. unfold bind.
    case_decide as Hi.
    + by rewrite (signal_disconnect_in_bounds m this sg _ Hsg Hi).
    + rewrite (signal_disconnect_out_of_bounds m this sg _ Hsg); [done|lia].
  - left. split; [done|]. by apply connection_disconnect_expired.
Qed.

(** X10. A [disconnect] that returns has called no slot and changed no
    control block, so every connection is as connected as before. No
    signal is created or destroyed, the pointers of each signal stay,
    no slot becomes non-empty, and every non-empty slot other than the
    one the connection addresses stays where it is. *)
Theorem disconnect_leaves_the_rest (m : mem_f) c c' m' :
  wf_memory m → connection_disconnect c m = Done (c', m') →
  world m' = world m
  ∧ blocks m' = blocks m
  ∧ (∀ c2, connected c2 m' = connected c2 m)
  ∧ (∀ a sg', signals m' !! a = Some sg' →
       ∃ sg, signals m !! a = Some sg
             ∧ _shared_disconnector sg' = _shared_disconnector sg
             ∧ _disconnector sg' = _disconnector sg
             ∧ ∀ i f, _slots sg' !! i = Some (Some f) →
                      _slots sg !! i = Some (Some f))
  ∧ (∀ a sg i f,
       signals m !! a = Some sg → _slots sg !! i = Some (Some f) →
       (∀ cb, _weak_disconnector c = Some cb →
              blocks m !! cb = Some {| use_count := 1; pointee := a |} →
              i ≠ _index c) →
       ∃ sg', signals m' !! a = Some sg'
              ∧ _slots sg' !! i = Some (Some f)).
Proof.
  intros Hwf Hrun.
  destruct (connection_disconnect_effect m c Hwf)
    as [[_ Hsame]|(cb & this & sg & Hw & Hb & Hsg & Hsh & Heff)].
  { rewrite Hsame in Hrun. injection Hrun as <- <-.
    split_and!; [done..| |]; eauto 10. }
  rewrite Heff in Hrun. case_decide as Hi; [|done].
  injection Hrun as <- <-. simpl.
  split; [done|]. split; [done|]. split; [done|]. split.
  - intros a sg' Ha. destruct (decide (a = this)) as [->|Hne].
    + rewrite lookup_insert_eq in Ha. injection Ha as <-. simpl.
      exists sg. split_and!; [done..|]. intros i f Hf.
      apply trim_back_lookup in Hf.
      destruct (decide (i = _index c)) as [->|Hne].
      * by rewrite list_lookup_insert_eq in Hf.
      * by rewrite list_lookup_insert_ne in Hf.
    + rewrite lookup_insert_ne in Ha by done. eauto 10.
  - intros a sg0 i f Ha Hf Hother. destruct (decide (a = this)) as [->|Hne].
    + rewrite lookup_insert_eq. eexists. split; [done|]. simpl.
      assert (sg0 = sg) as -> by congruence.
      apply trim_back_lookup_live. rewrite list_lookup_insert_ne; [done|].
      intros <-. by apply (Hother cb).
    + rewrite lookup_insert_ne by done. eauto.
Qed.

(** X11. In a well-formed memory the destructor of a live signal
    returns. It calls no slot and removes this signal only; the
    connections that are connected afterwards are the ones that were
    connected before and do not hold this signal's shared
    disconnector. *)
Theorem destroy_expires_own_connections (m : mem_f) this sg :
  wf_memory m → signals m !! this = Some sg →
  ∃ m',
    signal_destroy this m = Done (tt, m')
    ∧ world m' = world m
    ∧ signals m' = delete this (signals m)
    ∧ wf_memory m'
    ∧ ∀ c, connected c m' = true
           ↔ connected c m = true
             ∧ _weak_disconnector c ≠ _shared_disconnector sg.
Proof.
  intros Hwf Hsg. pose proof (signal_destroy_returns m this sg Hwf Hsg) as Hrun.
  eexists. split; [exact Hrun|]. split; [done|]. split; [done|].
  split; [by eapply wf_signal_destroy|]. simpl.
  intros c. unfold connected, expired, weak_use_count; simpl.
  destruct (_weak_disconnector c) as [cb|] eqn:Hw;
    [|simpl; split; [done|by intros [? _]]].
  destruct (_shared_disconnector sg) as [cb0|] eqn:Hsh;
    [|simpl; split; [by intros ?|by intros [? _]]].
  rewrite (release_owner_dead m this sg cb0 Hwf Hsg Hsh).
  destruct Hwf as [Hown _]. destruct (Hown _ _ _ Hsg Hsh) as [Hb _].
  destruct (decide (cb = cb0)) as [->|Hne].
  - rewrite list_lookup_insert_eq by (by eapply lookup_lt_Some). simpl.
    split; [done|by intros [_ ?]].
  - rewrite list_lookup_insert_ne by done.
    split; [intros ?; split; [done|congruence]|by intros [? _]].
Qed.

(** Two different slots of a vector can be erased in either order. *)
Lemma trim_erase_trim slots i j g :
  slots !! j = Some (Some g) → i ≠ j →
  trim_back (<[j := None]> (trim_back (<[i := None]> slots)))
  = trim_back (<[j := None]> (<[i := None]> slots)).
Proof.
  intros Hj Hne.
  destruct (trim_back_tail (<[i := None]> slots)) as [k Hk].
  assert (j < length (trim_back (<[i := None]> slots))) as Hlt.
  { eapply lookup_lt_Some, trim_back_lookup_live.
    by rewrite list_lookup_insert_ne. }
  rewrite Hk at 2. rewrite insert_app_l by done.
  symmetry. apply trim_back_tombstones.
Qed.

End FrameFacts.

(** ** Scoped connections *)

Section ScopedFacts.
Context {A R W : Type}.
#[local] Abbreviation mem_h := (memory A R W).

(** C9. A scoped connection disconnects what it holds exactly once when
    it is destroyed or reset: the destructor and [reset] are one call
    of [disconnect] on the held connection, after which [reset] holds
    the new connection and leaves its argument moved from. In a
    well-formed memory that call does the following. When the held
    connection is connected, its block belongs to a live signal; with
    the index inside the vector the slot at the index is emptied and
    the empty tail is popped, nothing else changes, the slot is no
    longer a callable, the other non-empty slots keep their order, and
    a trigger calls them and not the slot; with the index outside the
    vector the call stops at the [assert] of [signal_type::disconnect].
    When the held connection is not connected, no memory changes.
    [release] hands out the held connection untouched and leaves a
    default connection behind, so destroying the scoped connection
    afterwards changes no memory. *)
Theorem scoped_connection_disconnects_once
    (sc : scoped_connection) (new : connection) (m : mem_h) (args : A) :
  let held := _connection sc in
  scoped_destroy sc m = (run connection_disconnect held in ret tt) m
  ∧ scoped_reset sc new m
    = (run connection_disconnect held in
       ret ({| _connection := new |}, cleared new)) m
  ∧ (wf_memory m →
     if connected held m then
       ∃ cb this sg,
         _weak_disconnector held = Some cb
         ∧ blocks m !! cb = Some {| use_count := 1; pointee := this |}
         ∧ signals m !! this = Some sg
         ∧ if decide (_index held < length (_slots sg)) then
             let sg' := {| _slots :=
                             trim_back (<[_index held := None]> (_slots sg));
                           _disconnector := _disconnector sg;
                           _shared_disconnector := _shared_disconnector sg |} in
             let m' := {| signals := <[this := sg']> (signals m);
                          blocks := blocks m; world := world m |} in
             scoped_destroy sc m = Done (tt, m')
             ∧ scoped_reset sc new m
               = Done (({| _connection := new |}, cleared new), m')
             ∧ (∀ f, _slots sg' !! _index held ≠ Some (Some f))
             ∧ live_slots (_slots sg')
               = filter (λ p, p.1 ≠ _index held) (live_slots (_slots sg))
             ∧ signal_call this args m'
               = Done (tt, {| signals := signals m'; blocks := blocks m';
                              world :=
                                call_each
                                  (filter (λ p, p.1 ≠ _index held)
                                     (live_slots (_slots sg)))
                                  args (world m) |})
           else
             scoped_destroy sc m = Failed assertion_failed
             ∧ scoped_reset sc new m = Failed assertion_failed
     else
       scoped_destroy sc m = Done (tt, m)
       ∧ scoped_reset sc new m
         = Done (({| _connection := new |}, cleared new), m))
  ∧ scoped_release sc = (held, scoped_default)
  ∧ (∀ m' : mem_h,
        scoped_destroy (scoped_release sc).2 m' = Done (tt, m')
        ∧ connected (scoped_release sc).1 m' = scoped_connected sc m'
        ∧ scoped_connected (scoped_release sc).2 m' = false).
Proof.
  intros held.
  assert (scoped_destroy sc m
          = (run connection_disconnect held in ret tt) m) as Hd.
  { unfold scoped_destroy, scoped_disconnect, bind, held.
    by destruct (connection_disconnect (_connection sc) m) as [[c' m']|e]. }
  assert (scoped_reset sc new m
          = (run connection_disconnect held in
             ret ({| _connection := new |}, cleared new)) m) as Hr.
  { unfold scoped_reset, scoped_disconnect, bind, held.
    destruct (connection_disconnect (_connection sc) m) as [[c' m']|e];
      [|done].
    simpl. by destruct new. }
  split; [done|]. split; [done|]. split; [|split].
  - intros Hwf. rewrite Hd, Hr. unfold bind.
    destruct (connection_disconnect_effect m held Hwf)
      as [[Hl Hrun]|(cb & this & sg & Hweak & Hb & Hsg & Hsh & Hrun)].
    + assert (connected held m = false) as ->.
      { unfold connected. unfold lock in Hl.
        destruct (expired (blocks m) (_weak_disconnector held)) eqn:He;
          [done|].
        rewrite Hl in He. discriminate He. }
      by rewrite Hrun.
    + assert (connected held m = true) as ->.
      { unfold connected, expired, weak_use_count. by rewrite Hweak, Hb. }
      exists cb, this, sg. split; [done|]. split; [done|]. split; [done|].
      rewrite Hrun. case_decide as Hlt; [|done].
      split; [done|]. split; [done|]. cbn zeta.
      assert (live_slots (trim_back (<[_index held := None]> (_slots sg)))
              = filter (λ p, p.1 ≠ _index held) (live_slots (_slots sg)))
        as Hlive.
      { unfold live_slots. rewrite live_from_trim_back.
        apply (live_from_erase (_slots sg) 0). }
      split; [|split; [exact Hlive|]].
      * intros f Hf. apply trim_back_lookup in Hf.
        rewrite list_lookup_insert_eq in Hf by done. congruence.
      * etrans; [apply (signal_call_live _ this); simpl;
                 apply lookup_insert_eq|].
        simpl. by rewrite Hlive.
  - destruct sc as [[weak index]]. reflexivity.
  - intros m'. destruct sc as [[weak index]]. done.
Qed.

End ScopedFacts.

(** ** Disconnecting in either order *)

Section CommuteFacts.
Context {A R W : Type}.
#[local] Abbreviation mem_c := (memory A R W).
#[local] Abbreviation client_c := (client A R W).
Implicit Types (slots : list (slot_type A R W)).

(** [disconnect] on a connection of a non-empty slot. *)
Lemma connection_disconnect_at (m : mem_c) c cb this sg f :
  _weak_disconnector c = Some cb →
  blocks m !! cb = Some {| use_count := 1; pointee := this |} →
  signals m !! this = Some sg →
  _disconnector sg = {| _ptr := Some this |} →
  _slots sg !! _index c = Some (Some f) →
  connection_disconnect c m
  = Done (cleared c,
          {| signals :=
               <[this := {| _slots :=
                              trim_back (<[_index c := None]> (_slots sg));
                            _disconnector := _disconnector sg;
                            _shared_disconnector := _shared_disconnector sg |}]>
                 (signals m);
             blocks := blocks m; world := world m |}).
Proof.
  intros Hw Hb Hsg Hd Hf.
  erewrite connection_disconnect_locked;
    [|rewrite Hw; by apply (lock_owned _ _ _ Hb)|exact Hb|exact Hsg].
  unfold bind, disconnector_call. rewrite Hd. simpl.
  rewrite (signal_disconnect_in_bounds m this sg _ Hsg
             (lookup_lt_Some _ _ _ Hf)).
  simpl. by rewrite Hd.
Qed.

Lemma connection_disconnect_dead (m : mem_c) c :
  (∀ cb b, _weak_disconnector c = Some cb → blocks m !! cb = Some b →
           use_count b = 0) →
  connection_disconnect c m = Done (cleared c, m).
Proof.
  intros Hdead. apply connection_disconnect_expired.
  unfold lock, expired, weak_use_count.
  destruct (_weak_disconnector c) as [cb|]; [|done].
  destruct (blocks m !! cb) as [b|] eqn:Hb; [|done].
  by rewrite (Hdead cb b eq_refl Hb).
Qed.

(** Two connections that address different slots disconnect in either
    order with the same result. *)
Lemma disconnect_pair (m : mem_c) c1 c2 :
  wf_memory m →
  (∀ cb b, _weak_disconnector c1 = Some cb → blocks m !! cb = Some b →
           use_count b ≠ 0 →
           ∃ sg f, signals m !! pointee b = Some sg
                   ∧ _slots sg !! _index c1 = Some (Some f)) →
  (∀ cb b, _weak_disconnector c2 = Some cb → blocks m !! cb = Some b →
           use_count b ≠ 0 →
           ∃ sg f, signals m !! pointee b = Some sg
                   ∧ _slots sg !! _index c2 = Some (Some f)) →
  (∀ cb, _weak_disconnector c1 = Some cb → _weak_disconnector c2 = Some cb →
         _index c1 ≠ _index c2) →
  ∃ m1 m2 m',
    connection_disconnect c1 m = Done (cleared c1, m1)
    ∧ connection_disconnect c2 m1 = Done (cleared c2, m')
    ∧ connection_disconnect c2 m = Done (cleared c2, m2)
    ∧ connection_disconnect c1 m2 = Done (cleared c1, m').
Proof.
  intros Hwf Hlive1 Hlive2 Hdiff.
  assert (∀ c,
    (∀ cb b, _weak_disconnector c = Some cb → blocks m !! cb = Some b →
             use_count b ≠ 0 →
             ∃ sg f, signals m !! pointee b = Some sg
                     ∧ _slots sg !! _index c = Some (Some f)) →
    (∀ cb b, _weak_disconnector c = Some cb → blocks m !! cb = Some b →
             use_count b = 0)
    ∨ ∃ cb this sg f,
        _weak_disconnector c = Some cb
        ∧ blocks m !! cb = Some {| use_count := 1; pointee := this |}
        ∧ signals m !! this = Some sg
        ∧ _shared_disconnector sg = Some cb
        ∧ _disconnector sg = {| _ptr := Some this |}
        ∧ _slots sg !! _index c = Some (Some f)) as Hcase.
  { intros c Hlive.
    destruct (_weak_disconnector c) as [cb|] eqn:Hw; [|by left].
    destruct (blocks m !! cb) as [b|] eqn:Hb;
      [|left; intros cb' b' [= <-] Hb'; congruence].
    destruct (decide (use_count b = 0)) as [Hz|Hnz].
    { left. intros cb' b' [= <-] Hb'. congruence. }
    right. destruct (Hlive cb b eq_refl Hb Hnz) as (sg & f & Hsg & Hf).
    destruct Hwf as [Hown Hback].
    destruct (Hback cb b Hb Hnz) as (sg' & Hsg' & Hsh).
    assert (sg' = sg) as -> by congruence.
    destruct (Hown _ _ _ Hsg Hsh) as [Hb1 Hd].
    exists cb, (pointee b), sg, f. split_and!; [done|congruence|done..]. }
  destruct (Hcase c1 Hlive1)
    as [Hdead1|(cb1 & this1 & sg1 & f1 & Hw1 & Hb1 & Hsg1 & Hsh1 & Hd1 & Hf1)];
  destruct (Hcase c2 Hlive2)
    as [Hdead2|(cb2 & this2 & sg2 & f2 & Hw2 & Hb2 & Hsg2 & Hsh2 & Hd2 & Hf2)].
  - exists m, m, m. split_and!; by apply connection_disconnect_dead.
  - eexists m, _, _. split; [by apply connection_disconnect_dead|].
    split; [by eapply connection_disconnect_at|].
    split; [by eapply connection_disconnect_at|].
    by apply connection_disconnect_dead.
  - eexists _, m, _. split; [by eapply connection_disconnect_at|].
    split; [by apply connection_disconnect_dead|].
    split; [by apply connection_disconnect_dead|].
    by eapply connection_disconnect_at.
  - destruct (decide (this1 = this2)) as [<-|Hne].
    + assert (sg2 = sg1) as -> by congruence.
      assert (cb2 = cb1) as -> by congruence.
      pose proof (Hdiff cb1 Hw1 Hw2) as Hi.
      eexists _, _, _.
      split; [by eapply connection_disconnect_at|].
      split.
      { erewrite connection_disconnect_at;
          [|exact Hw2|exact Hb2|apply lookup_insert_eq|exact Hd1|].
        - simpl. rewrite insert_insert_eq. reflexivity.
        - simpl. apply trim_back_lookup_live.
          rewrite list_lookup_insert_ne; [exact Hf2|done]. }
      split; [by eapply connection_disconnect_at|].
      erewrite connection_disconnect_at;
        [|exact Hw1|exact Hb1|apply lookup_insert_eq|exact Hd1|].
      * simpl. rewrite insert_insert_eq.
        rewrite (trim_erase_trim _ _ _ f2 Hf2 Hi).
        rewrite (trim_erase_trim _ _ _ f1 Hf1) by done.
        by rewrite list_insert_insert_ne.
      * simpl. apply trim_back_lookup_live.
        rewrite list_lookup_insert_ne; [exact Hf1|done].
    + eexists _, _, _.
      split; [by eapply connection_disconnect_at|].
      split.
      { erewrite connection_disconnect_at;
          [|exact Hw2|exact Hb2| |exact Hd2|exact Hf2].
        - simpl. reflexivity.
        - simpl. by rewrite lookup_insert_ne. }
      split; [by eapply connection_disconnect_at|].
      erewrite connection_disconnect_at;
        [|exact Hw1|exact Hb1| |exact Hd1|exact Hf1].
      * simpl. by rewrite insert_insert_ne.
      * simpl. by rewrite lookup_insert_ne.
Qed.

Lemma client_step_disconnect (cl : client_c) x o m' :
  objects cl !! x = Some o →
  connection_disconnect (held o) (heap cl) = Done (cleared (held o), m') →
  client_step (call_disconnect x) cl
  = Some (Done (Client m'
                  (<[x := match o with
                          | Plain c => Plain (cleared c)
                          | Scoped sc =>
                              Scoped {| _connection :=
                                          cleared (_connection sc) |}
                          end]> (objects cl)))).
Proof.
  intros Hx Hrun. unfold client_step. rewrite Hx.
  destruct o as [c|sc]; simpl in *.
  - unfold on_heap. by rewrite Hrun.
  - unfold on_heap, scoped_disconnect, bind. by rewrite Hrun.
Qed.

Lemma run_events_two (e1 e2 : event A R W) (cl cl1 cl2 : client_c) :
  client_step e1 cl = Some (Done cl1) →
  client_step e2 cl1 = Some (Done cl2) →
  run_events [e1; e2] cl = Some (Done cl2).
Proof.
  intros H1 H2. cbv beta iota delta [run_events]. by rewrite H1, H2.
Qed.

(** X7. In a state that satisfies the invariant of the protocol, the
    variables [x] and [y] can call [disconnect] in either order: both
    orders return and end in the same state. *)
Theorem disconnects_commute (cl : client_c) x y :
  client_inv cl → x ≠ y →
  is_Some (objects cl !! x) → is_Some (objects cl !! y) →
  ∃ cl',
    run_events [call_disconnect x; call_disconnect y] cl = Some (Done cl')
    ∧ run_events [call_disconnect y; call_disconnect x] cl = Some (Done cl').
Proof.
  intros (Hwf & Hnames & Hdiff) Hxy [ox Hx] [oy Hy].
  destruct (disconnect_pair (heap cl) (held ox) (held oy) Hwf)
    as (m1 & m2 & m' & H1 & H12 & H2 & H21).
  - intros cb b Hw Hb Hnz. destruct (Hnames x ox cb Hx Hw) as (b' & Hb' & Hl).
    assert (b' = b) as -> by congruence. by apply Hl.
  - intros cb b Hw Hb Hnz. destruct (Hnames y oy cb Hy Hw) as (b' & Hb' & Hl).
    assert (b' = b) as -> by congruence. by apply Hl.
  - intros cb Hwx Hwy Hi. apply Hxy. by eapply Hdiff.
  - eexists. split.
    + eapply run_events_two.
      * eapply client_step_disconnect; [exact Hx|exact H1].
      * eapply client_step_disconnect;
          [simpl; by rewrite lookup_insert_ne|exact H12].
    + etrans.
      * eapply run_events_two.
        -- eapply client_step_disconnect; [exact Hy|exact H2].
        -- eapply client_step_disconnect;
             [simpl; by rewrite lookup_insert_ne|exact H21].
      * simpl. by rewrite insert_insert_ne.
Qed.

End CommuteFacts.

(** ** Two threads on one signal *)

Section BlockFacts.

Lemma release_acquire (bs : list control_block) w :
  release_owner (acquire bs w).2 (acquire bs w).1 = bs.
Proof.
  unfold acquire. destruct (lock bs w) as [cb|] eqn:Hl; [|done].
  destruct (bs !! cb) as [b|] eqn:Hb; [|done]. simpl.
  rewrite list_lookup_insert_eq by (by eapply lookup_lt_Some). simpl.
  rewrite list_insert_insert_eq. apply list_insert_id.
  rewrite Hb, Nat.sub_0_r. by destruct b.
Qed.

Lemma release_owner_comm (bs : list control_block) a b :
  release_owner (release_owner bs a) b = release_owner (release_owner bs b) a.
Proof.
  destruct a as [x|], b as [y|]; try done.
  destruct (decide (x = y)) as [->|Hne]; [done|]. simpl.
  destruct (bs !! x) as [bx|] eqn:Hx, (bs !! y) as [by_|] eqn:Hy; simpl;
    rewrite ?list_lookup_insert_ne by done; rewrite ?Hx, ?Hy; try done.
  by rewrite list_insert_insert_ne.
Qed.

Lemma release_owner_snoc (bs : list control_block) h x :
  (∀ cb, h = Some cb → cb < length bs) →
  release_owner (bs ++ [x]) h = release_owner bs h ++ [x].
Proof.
  intros Hlt. destruct h as [cb|]; [|done]. simpl.
  specialize (Hlt cb eq_refl). rewrite lookup_app_l by done.
  destruct (bs !! cb) as [b|]; [|done]. by rewrite insert_app_l.
Qed.

Lemma release_owner_lookup_inv (bs : list control_block) h cb b' :
  release_owner bs h !! cb = Some b' →
  ∃ b, bs !! cb = Some b ∧ use_count b' ≤ use_count b
       ∧ pointee b = pointee b'.
Proof.
  intros Hb'. pose proof (lookup_lt_Some _ _ _ Hb') as Hlt.
  rewrite release_owner_length in Hlt.
  destruct (lookup_lt_is_Some_2 bs cb Hlt) as [b Hb].
  destruct (release_owner_use_count bs h cb b Hb) as (b'' & Hb'' & Hle & Hp).
  exists b. split; [done|]. assert (b'' = b') as -> by congruence. done.
Qed.

(** A block that has an owner once the locals are dropped can be
    locked. *)
Lemma acquire_settled (bs : list control_block) h1 h2 cb b :
  release_owner (release_owner bs h1) h2 !! cb = Some b → use_count b ≠ 0 →
  ∃ b0, bs !! cb = Some b0 ∧ pointee b0 = pointee b
        ∧ acquire bs (Some cb)
          = (Some cb,
             <[cb := {| use_count := S (use_count b0);
                        pointee := pointee b0 |}]> bs).
Proof.
  intros Hb Hnz.
  destruct (release_owner_lookup_inv _ _ _ _ Hb) as (b1 & Hb1 & Hle1 & Hp1).
  destruct (release_owner_lookup_inv _ _ _ _ Hb1) as (b0 & Hb0 & Hle0 & Hp0).
  exists b0. split; [done|]. split; [congruence|].
  apply acquire_owned; [done|lia].
Qed.

End BlockFacts.

Section PoolFacts.
Context {A R W : Type}.
#[local] Abbreviation task_p := (task A R W).
#[local] Abbreviation pool_p := (pool A R W).
#[local] Abbreviation mem_p2 := (memory A R W).
Implicit Types (t : task_p) (st : pool_p) (m : mem_p2).
#[local] Arguments settled : simpl never.

Lemma atomically_restart t : atomically (restart t) = atomically t.
Proof. by destruct t. Qed.

Lemma settled_swap st : settled (swap st) = settled st.
Proof. unfold settled, swap; simpl. by rewrite release_owner_comm. Qed.

Lemma apart_sym t1 t2 : apart t1 t2 → apart t2 t1.
Proof. destruct t1, t2; simpl; auto. Qed.

Lemma pool_inv_swap m0 this j1 j2 st :
  pool_inv m0 this j1 j2 st → pool_inv m0 this j2 j1 (swap st).
Proof.
  unfold pool_inv. rewrite settled_swap. simpl.
  intros (Hapart & Hmx & Hexcl & Hj1 & Hj2
          & (sg & Hsg & Hown & Hok1 & Hok2) & (mb & Hcom & Hmid)).
  split; [by apply apart_sym|].
  split; [by rewrite orb_comm|]. split; [by rewrite andb_comm|].
  split; [done|]. split; [done|]. split; [by exists sg|].
  exists mb. split.
  - unfold committed in *.
    destruct (is_after (first st)), (is_after (second st)); try done.
    destruct Hcom as [?|?]; [by right|by left].
  - destruct (is_inside (first st)), (is_inside (second st)); done.
Qed.

(** A step of the first thread outside its critical section. *)
Lemma inv_outside_step m0 this j1 j2 m l t1 t2 m' t1' :
  pool_inv m0 this j1 j2 (Pool m l t1 t2) →
  is_inside t1 = false → is_inside t1' = false →
  is_after t1' = is_after t1 →
  (is_after t1 = false → restart t1' = restart t1) →
  (is_after t1 = true → as_returned t1' = as_returned t1) →
  apart t1' t2 →
  settled (Pool m' l t1' t2) = settled (Pool m l t1 t2) →
  (∀ sg, task_ok this sg t1 → task_ok this sg t1') →
  pool_inv m0 this j1 j2 (Pool m' l t1' t2).
Proof.
  intros (Hapart & Hmx & Hexcl & Hj1 & Hj2
          & (sg & Hsg & Hown & Hok1 & Hok2) & (mb & Hcom & Hmid))
    Hin Hin' Haft Hre Hret Hapart' Hset Hok.
  unfold pool_inv. rewrite Hset. cbn [first second mutexes pool_memory orb andb] in *.
  rewrite Hin in *. rewrite Hin'. rewrite Haft.
  split; [done|]. split; [done|]. split; [done|].
  split; [intros Hf; rewrite (Hre Hf); by apply Hj1|].
  split; [done|].
  split; [exists sg; split_and!;
          [exact Hsg|exact Hown|by apply Hok|exact Hok2]|].
  exists mb. split; [|done].
  unfold committed in *. rewrite Haft.
  destruct (is_after t1); [rewrite (Hret eq_refl)|]; done.
Qed.

(** The first thread takes the mutex. *)
Lemma inv_lock_step m0 this j1 j2 m l l' t1 t2 t1' :
  pool_inv m0 this j1 j2 (Pool m l t1 t2) →
  lock_guard multithread_policy this l = Some l' →
  is_inside t1 = false → is_after t1 = false →
  is_inside t1' = true → is_after t1' = false →
  restart t1' = restart t1 → task_holds t1' = task_holds t1 →
  apart t1' t2 →
  (∀ sg, task_ok this sg t1 → task_ok this sg t1') →
  (∀ sg, signals m !! this = Some sg →
         (∀ cb, _shared_disconnector sg = Some cb →
                blocks (settled (Pool m l t1 t2)) !! cb
                = Some {| use_count := 1; pointee := this |}
                ∧ _disconnector sg = {| _ptr := Some this |}) →
         task_ok this sg t1 →
         midway this t1' (settled (Pool m l t1 t2))
           (settled (Pool m l t1 t2))) →
  pool_inv m0 this j1 j2 (Pool m l' t1' t2).
Proof.
  intros (Hapart & Hmx & Hexcl & Hj1 & Hj2
          & (sg & Hsg & Hown & Hok1 & Hok2) & (mb & Hcom & Hmid))
    Hlock Hin Haft Hin' Haft' Hre Hholds Hapart' Hok Hstart.
  cbn [first second mutexes pool_memory orb andb] in *. rewrite Hin in *. cbn [first second mutexes pool_memory orb andb] in *.
  unfold lock_guard in Hlock. case_decide as Hfree; [done|].
  injection Hlock as <-.
  destruct (is_inside t2) eqn:Hin2.
  { exfalso. apply Hfree. rewrite Hmx. by apply elem_of_singleton. }
  assert (settled (Pool m l t1' t2) = settled (Pool m l t1 t2)) as Hset.
  { unfold settled; simpl. by rewrite Hholds. }
  unfold pool_inv. cbn [first second mutexes pool_memory orb andb]. rewrite Hin', Hin2, Haft'. cbn [orb andb].
  assert (settled (Pool m ({[this]} ∪ l) t1' t2) = settled (Pool m l t1 t2))
    as -> by (unfold settled; simpl; by rewrite Hholds).
  split; [done|]. split; [rewrite Hmx; by rewrite union_empty_r_L|].
  split; [done|].
  split; [intros _; rewrite Hre; by apply Hj1|].
  split; [done|]. split.
  { exists sg. split_and!; [exact Hsg|exact Hown|by apply Hok|exact Hok2]. }
  exists mb. split.
  - unfold committed in *. by rewrite Haft, Haft' in *.
  - subst mb. by eapply Hstart.
Qed.

(** A step of the first thread inside its critical section. *)
Lemma inv_inside_step m0 this j1 j2 m l t1 t2 m' t1' sg' :
  pool_inv m0 this j1 j2 (Pool m l t1 t2) →
  is_inside t1 = true → is_inside t1' = true →
  is_after t1 = false → is_after t1' = false →
  restart t1' = restart t1 →
  apart t1' t2 →
  signals m' !! this = Some sg' →
  (∀ cb, _shared_disconnector sg' = Some cb →
         blocks (settled (Pool m' l t1' t2)) !! cb
         = Some {| use_count := 1; pointee := this |}
         ∧ _disconnector sg' = {| _ptr := Some this |}) →
  task_ok this sg' t1' →
  (∀ sg, signals m !! this = Some sg → task_ok this sg t2 →
         task_ok this sg' t2) →
  (∀ mb, midway this t1 mb (settled (Pool m l t1 t2)) →
         midway this t1' mb (settled (Pool m' l t1' t2))) →
  pool_inv m0 this j1 j2 (Pool m' l t1' t2).
Proof.
  intros (Hapart & Hmx & Hexcl & Hj1 & Hj2
          & (sg & Hsg & Hown & Hok1 & Hok2) & (mb & Hcom & Hmid))
    Hin Hin' Haft Haft' Hre Hapart' Hsg' Hown' Hok1' Hok2' Hmid'.
  cbn [first second mutexes pool_memory orb andb] in *. rewrite Hin in *. cbn [first second mutexes pool_memory orb andb] in *.
  unfold pool_inv. cbn [first second mutexes pool_memory orb andb]. rewrite Hin', Haft'. cbn [orb andb].
  split; [done|]. split; [done|]. split; [done|].
  split; [intros _; rewrite Hre; by apply Hj1|].
  split; [done|].
  split; [exists sg'; split_and!;
          [exact Hsg'|exact Hown'|exact Hok1'|by eapply Hok2']|].
  exists mb. split; [|by apply Hmid'].
  unfold committed in *. by rewrite Haft, Haft' in *.
Qed.

(** The first thread gives the mutex back. *)
Lemma inv_unlock_step m0 this j1 j2 m l t1 t2 t1' :
  pool_inv m0 this j1 j2 (Pool m l t1 t2) →
  is_inside t1 = true → is_after t1 = false →
  is_inside t1' = false → is_after t1' = true →
  task_holds t1' = task_holds t1 →
  apart t1' t2 →
  (∀ sg, task_ok this sg t1 → task_ok this sg t1') →
  (∀ mb, midway this t1 mb (settled (Pool m l t1 t2)) →
         atomically (restart t1) mb
         = Done (as_returned t1', settled (Pool m l t1 t2))) →
  pool_inv m0 this j1 j2
    (Pool m (unlock_guard multithread_policy this l) t1' t2).
Proof.
  intros (Hapart & Hmx & Hexcl & Hj1 & Hj2
          & (sg & Hsg & Hown & Hok1 & Hok2) & (mb & Hcom & Hmid))
    Hin Haft Hin' Haft' Hholds Hapart' Hok Hdone.
  cbn [first second mutexes pool_memory orb andb] in *. rewrite Hin in *. cbn [first second mutexes pool_memory orb andb] in *.
  assert (settled (Pool m (unlock_guard multithread_policy this l) t1' t2)
          = settled (Pool m l t1 t2))
    as Hset by (unfold settled; simpl; by rewrite Hholds).
  unfold pool_inv. cbn [first second mutexes pool_memory orb andb]. rewrite Hset, Hin', Hexcl, Haft'. cbn [orb andb].
  split; [done|]. split; [rewrite Hmx; unfold unlock_guard; by rewrite difference_diag_L|].
  split; [done|]. split; [done|]. split; [done|].
  split; [exists sg; split_and!;
          [exact Hsg|exact Hown|by apply Hok|exact Hok2]|].
  exists (settled (Pool m l t1 t2)). split; [|done].
  specialize (Hdone mb Hmid). rewrite (Hj1 Haft) in Hdone.
  unfold committed in *. rewrite Haft in Hcom. rewrite Haft'.
  destruct (is_after t2).
  - right. by exists mb.
  - by subst mb.
Qed.

End PoolFacts.

Section PoolSteps.
Context {A R W : Type}.
#[local] Abbreviation task_s := (task A R W).
#[local] Abbreviation pool_s := (pool A R W).
#[local] Abbreviation mem_s2 := (memory A R W).
Implicit Types (t : task_s) (st : pool_s) (m : mem_s2).
#[local] Arguments settled : simpl never.
#[local] Arguments pool_inv : simpl never.
#[local] Arguments lock_guard : simpl never.
#[local] Arguments unlock_guard : simpl never.

Lemma task_ok_mono this (sg sg' : signal_type A R W) t :
  task_ok this sg t →
  (∀ p, _shared_disconnector sg = Some p → _shared_disconnector sg' = Some p) →
  (∀ c at_ f, t = in_disconnect c at_ →
              _slots sg !! _index c = Some (Some f) →
              ∃ f', _slots sg' !! _index c = Some (Some f')) →
  task_ok this sg' t.
Proof.
  intros Hok Hsh Hlive.
  destruct t as [s slot at_|s args at_|c at_]; [done|done|].
  assert (addresses c sg → addresses c sg') as Haddr.
  { intros (cb & f & Hw & Hs & Hf).
    destruct (Hlive c at_ f eq_refl Hf) as [f' Hf']. exists cb, f'. auto. }
  destruct at_; simpl in *; try done.
  - by apply Haddr.
  - destruct Hok as [? ?]. auto.
  - destruct Hok as [? ?]. auto.
  - destruct Hok as (? & ? & ?). auto.
  - destruct Hok as (? & ? & ?). auto.
  - destruct Hok as (? & ? & ?). auto.
  - destruct Hok as [? ?]. auto.
  - destruct Hok as [? ?]. auto.
  - destruct Hok as (p & ? & ?). exists p. auto.
  - destruct Hok as (p & ? & ?). exists p. auto.
Qed.

Lemma blocked_means_inside m0 this j1 j2 m l t1 t2 :
  pool_inv m0 this j1 j2 (Pool m l t1 t2) →
  is_inside t1 = false →
  lock_guard multithread_policy this l = None →
  is_inside t2 = true.
Proof.
  intros (_ & Hmx & _) Hin Hlock. cbn [first second mutexes] in Hmx.
  rewrite Hin in Hmx. simpl in Hmx.
  unfold lock_guard in Hlock. case_decide as Hl; [|done].
  destruct (is_inside t2); [done|]. subst l. set_solver.
Qed.

Lemma settled_set_signal m l t1 t2 t1' this (sg : signal_type A R W) :
  task_holds t1' = task_holds t1 →
  settled (Pool (set_signal m this sg) l t1' t2)
  = set_signal (settled (Pool m l t1 t2)) this sg.
Proof. intros Hh. unfold settled, set_signal; simpl. by rewrite Hh. Qed.

Lemma settled_same m l l' t1 t2 t1' :
  task_holds t1' = task_holds t1 →
  settled (Pool m l' t1' t2) = settled (Pool m l t1 t2).
Proof. intros Hh. unfold settled; simpl. by rewrite Hh. Qed.

Lemma holds_shared this (sg : signal_type A R W) t p :
  task_ok this sg t → task_holds t = Some p →
  _shared_disconnector sg = Some p.
Proof.
  destruct t as [s slot at_|s args at_|c at_]; [done|done|].
  destruct at_; simpl; intros Hok Hp; try done.
  - destruct Hok as ((cb & f & Hw & Hs & _) & ->). congruence.
  - destruct Hok as ((cb & f & Hw & Hs & _) & Hq). congruence.
  - destruct Hok as ((cb & f & Hw & Hs & _) & Hq & _). congruence.
  - destruct Hok as ((cb & f & Hw & Hs & _) & Hq & _). congruence.
  - destruct Hok as ((cb & f & Hw & Hs & _) & Hq & _). congruence.
  - destruct Hok as [Hs _]. congruence.
  - destruct Hok as [Hs _]. congruence.
  - destruct Hok as (q & -> & Hs). congruence.
  - destruct Hok as (q & -> & Hs). congruence.
Qed.

Lemma connect_task_step m0 this j1 j2 m l s slot at_ t2 :
  pool_inv m0 this j1 j2 (Pool m l (in_connect s slot at_) t2) →
  match task_step multithread_policy (in_connect s slot at_) m l with
  | Some (Goes t1' m' l') => pool_inv m0 this j1 j2 (Pool m' l' t1' t2)
  | Some (Breaks _) => False
  | None => has_returned (in_connect s slot at_) = true
            ∨ is_inside t2 = true
  end.
Proof.
  intros Hinv.
  pose proof Hinv as (Hapart & Hmx & Hexcl & Hj1 & Hj2
                      & (sg & Hsg & Hown & Hok1 & Hok2) & (mb0 & _ & Hmid0)).
  cbn [first second mutexes pool_memory] in *.
  simpl in Hok1. subst s.
  assert (signals m !! this = Some sg) as Hsgm by exact Hsg.
  destruct at_; simpl; unfold on_signal; rewrite ?Hsgm.
  - (* k_lock *)
    destruct (lock_guard multithread_policy this l) as [l'|] eqn:Hlock.
    + eapply inv_lock_step; [exact Hinv|exact Hlock|done..| |].
      * by intros sg0 H.
      * intros sg0 Hsg0 _ _. exists sg0. by split.
    + right. by eapply blocked_means_inside.
  - (* k_push *)
    eapply inv_inside_step with (sg' := with_slots sg (push_back (_slots sg) slot));
      [exact Hinv|done..|apply lookup_insert_eq|exact Hown|done| |].
    + intros sg0 Hsg0 Hok. assert (sg0 = sg) as -> by congruence.
      eapply task_ok_mono; [exact Hok|done|].
      intros c at_ f _ Hf. exists f. simpl. unfold push_back.
      by apply lookup_app_l_Some.
    + intros mb (sgb & Hsgb & Hb). simpl in Hb.
      rewrite (settled_set_signal m l (in_connect this slot k_push)) by done.
      rewrite Hb.
      exists sgb. split; [done|]. simpl.
      assert (sgb = sg) as -> by (rewrite <- Hb in Hsgb; congruence).
      done.
  - (* k_index *)
    eapply inv_inside_step with (sg' := sg);
      [exact Hinv|done..|exact Hown|done|by intros sg0 ? ?; simplify_eq| ].
    intros mb (sgb & Hsgb & Hb). simpl in Hb.
    exists sgb. split; [done|]. simpl. split; [done|].
    rewrite Hb in Hsg. simpl in Hsg. rewrite lookup_insert_eq in Hsg.
    injection Hsg as <-. simpl. rewrite length_app. simpl. lia.
  - (* k_test *)
    destruct (_shared_disconnector sg) as [cb|] eqn:Hsh.
    + eapply inv_inside_step with (sg' := sg);
        [exact Hinv|done..|rewrite Hsh; exact Hown|done
        |by intros sg0 ? ?; simplify_eq| ].
      intros mb (sgb & Hsgb & Hb & Hidx). simpl in Hb.
      exists sgb. split; [done|]. simpl.
      rewrite (settled_same m l l (in_connect this slot (k_test index))) by done.
      rewrite Hb in Hsg. simpl in Hsg. rewrite lookup_insert_eq in Hsg.
      injection Hsg as <-. simpl in Hsh.
      destruct (connect_alive mb this sgb slot Hsgb)
        as (cb' & blocks' & Hrun & -> & ->).
      rewrite Hsh in Hrun. simpl in Hrun.
      eexists. split.
      * rewrite Hrun, Hb. do 2 f_equal.
        unfold set_signal, with_slots. by rewrite Hsh.
      * done.
    + eapply inv_inside_step with (sg' := sg);
        [exact Hinv|done..|rewrite Hsh; exact Hown|done
        |by intros sg0 ? ?; simplify_eq| ].
      intros mb (sgb & Hsgb & Hb & Hidx). simpl in Hb.
      exists sgb. split; [done|]. simpl.
      rewrite (settled_same m l l (in_connect this slot (k_test index))) by done.
      split; [done|]. split; [done|].
      rewrite Hb in Hsg. simpl in Hsg. rewrite lookup_insert_eq in Hsg.
      by injection Hsg as <-.
  - (* k_bind *)
    eapply inv_inside_step
      with (sg' := {| _slots := _slots sg;
                      _disconnector := {| _ptr := Some this |};
                      _shared_disconnector := _shared_disconnector sg |});
      [exact Hinv|done..|apply lookup_insert_eq| |done| |].
    + intros cb Hcb. split; [|done].
      rewrite (settled_set_signal m l (in_connect this slot (k_bind index)))
        by done.
      by apply Hown.
    + intros sg0 Hsg0 Hok. assert (sg0 = sg) as -> by congruence.
      eapply task_ok_mono; [exact Hok|done|].
      intros c at_ f _ Hf. by exists f.
    + intros mb (sgb & Hsgb & Hb & Hidx & Hnone). simpl in Hb.
      exists sgb. split; [done|]. simpl.
      rewrite (settled_set_signal m l (in_connect this slot (k_bind index)))
        by done.
      rewrite Hb. split; [|done].
      rewrite Hb in Hsg. simpl in Hsg. rewrite lookup_insert_eq in Hsg.
      injection Hsg as <-.
      unfold set_signal; simpl. rewrite insert_insert_eq. by rewrite Hnone.
  - (* k_share *)
    simpl in Hmid0. destruct Hmid0 as (sgb0 & Hsgb0 & Hb0 & _ & Hnone0).
    assert (sg = {| _slots := _slots sgb0 ++ [slot];
                    _disconnector := {| _ptr := Some this |};
                    _shared_disconnector := None |}) as Hsgeq.
    { rewrite Hb0 in Hsg. simpl in Hsg. rewrite lookup_insert_eq in Hsg.
      by injection Hsg as <-. }
    assert (_shared_disconnector sg = None) as Hshn by (by rewrite Hsgeq).
    assert (task_holds t2 = None) as Hh2.
    { destruct (task_holds t2) as [p|] eqn:Hh2; [|done].
      pose proof (holds_shared _ _ _ _ Hok2 Hh2). congruence. }
    rewrite Hshn.
    eapply inv_inside_step
      with (sg' := {| _slots := _slots sg; _disconnector := _disconnector sg;
                      _shared_disconnector := Some (length (blocks m)) |});
      [exact Hinv|done..|apply lookup_insert_eq| |done| |].
    + intros cb [= <-]. split; [|by rewrite Hsgeq].
      unfold settled; simpl. rewrite Hh2. simpl.
      by apply list_lookup_middle.
    + intros sg0 Hsg0 Hok. assert (sg0 = sg) as -> by congruence.
      eapply task_ok_mono; [exact Hok|intros p Hp; congruence|].
      intros c at_ f _ Hf. by exists f.
    + intros mb (sgb & Hsgb & Hb & Hidx & Hnone).
      exists sgb. split; [done|]. simpl.
      destruct (connect_alive mb this sgb slot Hsgb)
        as (cb' & blocks' & Hrun & -> & ->).
      rewrite Hnone in Hrun. simpl in Hrun.
      exists {| _weak_disconnector := Some (length (blocks mb));
                _index := length (_slots sgb) |}.
      split; [|by rewrite Hidx].
      rewrite Hrun. do 2 f_equal.
      unfold settled, set_signal in Hb |- *. simpl in Hb |- *.
      rewrite Hh2 in Hb |- *. simpl in Hb |- *.
      injection Hb as Hs Hbl Hw.
      assert (sg = {| _slots := _slots sgb ++ [slot];
                      _disconnector := {| _ptr := Some this |};
                      _shared_disconnector := None |}) as ->.
      { rewrite Hs, lookup_insert_eq in Hsgm. by injection Hsgm as <-. }
      by rewrite Hs, Hbl, Hw, insert_insert_eq.
  - (* k_return *)
    eapply inv_inside_step with (sg' := sg);
      [exact Hinv|done..|exact Hown|done|by intros sg0 ? ?; simplify_eq| ].
    intros mb (sgb & Hsgb & c & Hrun & Hidx).
    exists sgb. split; [done|]. simpl.
    rewrite (settled_same m l l (in_connect this slot (k_return index)))
      by done.
    rewrite Hrun. do 2 f_equal.
    destruct (connect_alive mb this sgb slot Hsgb)
      as (cb' & blocks' & Hrun' & _ & _).
    rewrite Hrun' in Hrun.
    set (b := settled (Pool m l (in_connect this slot (k_return index)) t2))
      in *.
    clearbody b. injection Hrun as Hc Hb.
    rewrite <- Hb in Hsg. simpl in Hsg. rewrite lookup_insert_eq in Hsg.
    injection Hsg as <-. simpl. subst c. simpl in Hidx. by rewrite Hidx.
  - (* k_unlock *)
    eapply inv_unlock_step; [exact Hinv|done..|by intros sg0 ?|].
    intros mb (sgb & Hsgb & Hrun). simpl. unfold bind. by rewrite Hrun.
  - by left.
Qed.

Lemma call_slots_snoc (slots : list (slot_type A R W))
    (slot : slot_type A R W) args (w : W) :
  call_slots (slots ++ [slot]) args w
  = match slot with
    | Some f => (f args (call_slots slots args w)).2
    | None => call_slots slots args w
    end.
Proof.
  revert w. induction slots as [|[g|] slots IH]; intros w; simpl; auto.
Qed.

Lemma call_task_step m0 this j1 j2 m l s args at_ t2 :
  pool_inv m0 this j1 j2 (Pool m l (in_call s args at_) t2) →
  match task_step multithread_policy (in_call s args at_) m l with
  | Some (Goes t1' m' l') => pool_inv m0 this j1 j2 (Pool m' l' t1' t2)
  | Some (Breaks _) => False
  | None => has_returned (in_call s args at_ : task_s) = true
            ∨ is_inside t2 = true
  end.
Proof.
  intros Hinv.
  pose proof Hinv as (Hapart & Hmx & Hexcl & Hj1 & Hj2
                      & (sg & Hsg & Hown & Hok1 & Hok2) & (mb0 & _ & Hmid0)).
  cbn [first second mutexes pool_memory] in *.
  simpl in Hok1. subst s.
  assert (signals m !! this = Some sg) as Hsgm by exact Hsg.
  destruct at_; simpl; unfold on_signal; rewrite ?Hsgm.
  - (* t_lock *)
    destruct (lock_guard multithread_policy this l) as [l'|] eqn:Hlock.
    + eapply inv_lock_step; [exact Hinv|exact Hlock|done..| |].
      * by intros sg0 H.
      * intros sg0 Hsg0 _ _. exists sg0. split; [done|]. simpl.
        reflexivity.
    + right. by eapply blocked_means_inside.
  - (* t_loop *)
    destruct (_slots sg !! i) as [[f|]|] eqn:Hi.
    + eapply inv_inside_step with (sg' := sg);
        [exact Hinv|done..|exact Hown|done|by intros sg0 ? ?; simplify_eq| ].
      intros mb (sgb & Hsgb & Hb). exists sgb. split; [done|].
      assert (sgb = sg) as -> by (rewrite Hb in Hsg; simpl in Hsg; congruence).
      erewrite take_S_r by exact Hi. rewrite call_slots_snoc.
      unfold settled in Hb |- *. simpl in Hb |- *.
      injection Hb as Hs Hbl Hw. by rewrite Hs, Hbl, Hw.
    + eapply inv_inside_step with (sg' := sg);
        [exact Hinv|done..|exact Hown|done|by intros sg0 ? ?; simplify_eq| ].
      intros mb (sgb & Hsgb & Hb). exists sgb. split; [done|].
      assert (sgb = sg) as -> by (rewrite Hb in Hsg; simpl in Hsg; congruence).
      erewrite take_S_r by exact Hi. rewrite call_slots_snoc.
      by rewrite (settled_same m l l (in_call this args (t_loop i))).
    + eapply inv_inside_step with (sg' := sg);
        [exact Hinv|done..|exact Hown|done|by intros sg0 ? ?; simplify_eq| ].
      intros mb (sgb & Hsgb & Hb). exists sgb. split; [done|]. simpl.
      assert (sgb = sg) as -> by (rewrite Hb in Hsg; simpl in Hsg; congruence).
      rewrite (settled_same m l l (in_call this args (t_loop i))) by done.
      unfold signal_call, bind. rewrite (get_signal_alive _ _ _ Hsgb).
      rewrite Hb. do 3 f_equal.
      rewrite take_ge; [done|]. by apply lookup_ge_None.
  - (* t_unlock *)
    eapply inv_unlock_step; [exact Hinv|done..|by intros sg0 ?|].
    intros mb (sgb & Hsgb & Hrun). simpl. unfold bind. by rewrite Hrun.
  - by left.
Qed.


Lemma settled_block st cb b :
  blocks (settled st) !! cb = Some b →
  ∃ b0, blocks (pool_memory st) !! cb = Some b0
        ∧ pointee b0 = pointee b ∧ use_count b ≤ use_count b0.
Proof.
  unfold settled; simpl. intros Hb.
  destruct (release_owner_lookup_inv _ _ _ _ Hb) as (b1 & Hb1 & Hle1 & Hp1).
  destruct (release_owner_lookup_inv _ _ _ _ Hb1) as (b0 & Hb0 & Hle0 & Hp0).
  exists b0. split; [done|]. split; [congruence|lia].
Qed.

Lemma pop_back_live (slots : list (slot_type A R W)) i f :
  back slots = Some None → slots !! i = Some (Some f) →
  pop_back slots !! i = Some (Some f).
Proof.
  intros Hback Hi. apply last_Some in Hback as [l' ->].
  rewrite pop_back_snoc.
  apply lookup_app_Some in Hi as [Hi|[_ Hi]]; [done|].
  by apply list_lookup_singleton_Some in Hi as [_ ?].
Qed.

Lemma trim_done this c (mb b : mem_s2) (sg : signal_type A R W) :
  midway this (in_disconnect c (p_trim 0 0)) mb b →
  signals b !! this = Some sg → back (_slots sg) ≠ Some None →
  connection_disconnect c mb = Done (cleared c, b).
Proof.
  intros ((cb & sgb' & f & Hw & Hblk & Hsgb' & Hd & Hf)
          & sgb & slots0 & k & Hsgb & Hb & Heq) Hsg Hback.
  assert (sgb' = sgb) as -> by congruence.
  rewrite (connection_disconnect_at mb c cb this sgb f Hw Hblk Hsgb Hd Hf).
  rewrite Hb in Hsg |- *. simpl in Hsg. rewrite lookup_insert_eq in Hsg.
  injection Hsg as <-. simpl in Hback.
  do 2 f_equal. unfold set_signal, with_slots. do 3 f_equal.
  rewrite Heq. etrans; [exact (trim_back_tombstones slots0 k)|].
  by apply trim_back_id.
Qed.

Lemma trim_once this c (mb b : mem_s2) (sg : signal_type A R W) :
  midway this (in_disconnect c (p_trim 0 0)) mb b →
  signals b !! this = Some sg → back (_slots sg) = Some None →
  midway this (in_disconnect c (p_trim 0 0)) mb
    (set_signal b this (with_slots sg (pop_back (_slots sg)))).
Proof.
  intros (Hlive & sgb & slots0 & k & Hsgb & Hb & Heq) Hsg Hback.
  split; [done|]. rewrite Hb in Hsg |- *. simpl in Hsg.
  rewrite lookup_insert_eq in Hsg. injection Hsg as <-. simpl in *.
  apply last_Some in Hback as [l' ->].
  exists sgb, l', (S k). split; [done|]. split.
  - unfold set_signal, with_slots; simpl.
    rewrite insert_insert_eq.
    by rewrite (pop_back_snoc l' None).
  - rewrite Heq, <- app_assoc. done.
Qed.

Lemma disconnect_task_step m0 this j1 j2 m l c at_ t2 :
  pool_inv m0 this j1 j2 (Pool m l (in_disconnect c at_) t2) →
  match task_step multithread_policy (in_disconnect c at_) m l with
  | Some (Goes t1' m' l') => pool_inv m0 this j1 j2 (Pool m' l' t1' t2)
  | Some (Breaks _) => False
  | None => has_returned (in_disconnect c at_ : task_s) = true
            ∨ is_inside t2 = true
  end.
Proof.
  intros Hinv.
  pose proof Hinv as (Hapart & Hmx & Hexcl & Hj1 & Hj2
                      & (sg & Hsg & Hown & Hok1 & Hok2) & (mb0 & _ & Hmid0)).
  cbn [first second mutexes pool_memory] in *.
  assert (signals m !! this = Some sg) as Hsgm by exact Hsg.
  destruct at_; simpl; simpl in Hok1.
  - (* p_start *)
    destruct Hok1 as (cb & f & Hw & Hs & Hf).
    destruct (Hown cb Hs) as [Hblk Hd].
    destruct (acquire_settled (blocks m) None (task_holds t2) cb _ Hblk)
      as (b0 & Hb0 & Hp0 & Hacq); [done|].
    rewrite Hw, Hacq.
    eapply inv_outside_step; [exact Hinv|done..|exact Hapart| |].
    + unfold settled; simpl. do 2 f_equal.
      pose proof (release_acquire (blocks m) (Some cb)) as Hra.
      by rewrite Hacq in Hra.
    + intros sg0 Hok. by split.
  - (* p_test *)
    destruct Hok1 as [(cb & f & Hw & Hs & Hf) ->]. rewrite Hw.
    eapply inv_outside_step; [exact Hinv|done..|exact Hapart| |].
    + unfold settled; simpl. by rewrite Hw.
    + intros sg0 [Ha Hp]. by split.
  - (* p_call *)
    destruct Hok1 as [(cb & f & Hw & Hs & Hf) Hp].
    assert (ptr = cb) as -> by congruence.
    destruct (Hown cb Hs) as [Hblk Hd].
    destruct (settled_block _ _ _ Hblk) as (b0 & Hb0 & Hp0 & _).
    simpl in Hb0, Hp0. rewrite Hb0, Hp0. unfold on_signal.
    rewrite Hsgm, Hd. simpl.
    eapply inv_outside_step; [exact Hinv|done..|exact Hapart|done|].
    intros sg0 [Ha Hq]. by split.
  - (* p_lock *)
    destruct Hok1 as (Ha & Hp & ->). rewrite Hsgm.
    destruct (lock_guard multithread_policy this l) as [l'|] eqn:Hlock.
    + eapply inv_lock_step; [exact Hinv|exact Hlock|done..|exact Hapart| |].
      * by intros sg0 H.
      * intros sg0 Hsg0 Hown0 (Ha0 & _ & _). split; [done|].
        destruct Ha0 as (cb & f & Hw & Hs & Hf).
        destruct (Hown0 cb Hs) as [Hblk Hd].
        exists cb, sg0, f. by split_and!.
    + right. by eapply blocked_means_inside.
  - (* p_assert *)
    destruct Hok1 as (Ha & Hp & ->). unfold on_signal. rewrite Hsgm.
    destruct Ha as (cb & f & Hw & Hs & Hf).
    case_decide as Hi; [|by apply Hi; eapply lookup_lt_Some].
    eapply inv_inside_step with (sg' := sg);
      [exact Hinv|done..|exact Hapart|done|exact Hown| |
       by intros sg0 ? ?; simplify_eq|by intros mb ?].
    split_and!; [|done..]. by exists cb, f.
  - (* p_assign *)
    destruct Hok1 as (Ha & Hp & ->). unfold on_signal. rewrite Hsgm.
    destruct Ha as (cb & f & Hw & Hs & Hf).
    case_decide as Hi; [|by apply Hi; eapply lookup_lt_Some].
    eapply inv_inside_step
      with (sg' := with_slots sg (<[_index c := None]> (_slots sg)));
      [exact Hinv|done..|exact Hapart|apply lookup_insert_eq| | | |].
    + intros cb' Hcb'.
      rewrite (settled_set_signal m l (in_disconnect c (p_assign ptr this)))
        by done.
      by apply Hown.
    + split; [|done]. simpl. congruence.
    + intros sg0 Hsg0 Hok. assert (sg0 = sg) as -> by congruence.
      eapply task_ok_mono; [exact Hok|done|].
      intros c2 at2 f2 -> Hf2. exists f2. simpl.
      rewrite list_lookup_insert_ne; [done|]. exact Hapart.
    + intros mb [Hb Hlive]. split; [done|].
      exists sg, (<[_index c := None]> (_slots sg)), 0.
      rewrite (settled_set_signal m l (in_disconnect c (p_assign ptr this)))
        by done.
      rewrite Hb in *. split; [done|]. split; [done|]. by rewrite app_nil_r.
  - (* p_trim *)
    destruct Hok1 as (Hs & ->). unfold on_signal. rewrite Hsgm.
    destruct (back (_slots sg)) as [[g|]|] eqn:Hback.
    + eapply inv_inside_step with (sg' := sg);
        [exact Hinv|done..|exact Hapart|done|exact Hown|by split
        |by intros sg0 ? ?; simplify_eq|].
      intros mb Hmid. eapply (trim_done this c mb _ sg Hmid); [exact Hsg|].
      by rewrite Hback.
    + eapply inv_inside_step
        with (sg' := with_slots sg (pop_back (_slots sg)));
        [exact Hinv|done..|exact Hapart|apply lookup_insert_eq| |by split| |].
      * intros cb' Hcb'.
        rewrite (settled_set_signal m l (in_disconnect c (p_trim ptr this)))
          by done.
        by apply Hown.
      * intros sg0 Hsg0 Hok. assert (sg0 = sg) as -> by congruence.
        eapply task_ok_mono; [exact Hok|done|].
        intros c2 at2 f2 _ Hf2. exists f2. simpl. by apply pop_back_live.
      * intros mb Hmid.
        rewrite (settled_set_signal m l (in_disconnect c (p_trim ptr this)))
          by done.
        by apply (trim_once this c mb _ sg Hmid).
    + eapply inv_inside_step with (sg' := sg);
        [exact Hinv|done..|exact Hapart|done|exact Hown|by split
        |by intros sg0 ? ?; simplify_eq|].
      intros mb Hmid. eapply (trim_done this c mb _ sg Hmid); [exact Hsg|].
      by rewrite Hback.
  - (* p_unlock *)
    destruct Hok1 as (Hs & ->). unfold on_signal. rewrite Hsgm.
    eapply inv_unlock_step; [exact Hinv|done..|exact Hapart| |].
    + intros sg0 [Hs0 _]. by exists ptr.
    + intros mb Hrun. simpl. unfold bind. by rewrite Hrun.
  - (* p_reset *)
    eapply inv_outside_step; [exact Hinv|done..|exact Hapart|done|].
    by intros sg0 Hok.
  - (* p_release *)
    eapply inv_outside_step; [exact Hinv|done..|exact Hapart|done|].
    by intros sg0 Hok.
  - by left.
Qed.

End PoolSteps.

Section PoolRuns.
Context {A R W : Type}.
#[local] Abbreviation task_r := (task A R W).
#[local] Abbreviation pool_r := (pool A R W).
#[local] Abbreviation mem_r := (memory A R W).
Implicit Types (t : task_r) (st : pool_r) (m : mem_r).

Lemma first_step m0 this j1 j2 st :
  pool_inv m0 this j1 j2 st →
  match thread_step multithread_policy false st with
  | Some (inr st') => pool_inv m0 this j1 j2 st'
  | Some (inl _) => False
  | None => has_returned (first st) = true ∨ is_inside (second st) = true
  end.
Proof.
  destruct st as [m l t1 t2]. intros Hinv. unfold thread_step; simpl.
  destruct t1 as [s slot at_|s args at_|c at_].
  - pose proof (connect_task_step _ _ _ _ _ _ _ _ _ _ Hinv) as H.
    by destruct (task_step _ _ _ _) as [[t' m' l'|what]|].
  - pose proof (call_task_step _ _ _ _ _ _ _ _ _ _ Hinv) as H.
    by destruct (task_step _ _ _ _) as [[t' m' l'|what]|].
  - pose proof (disconnect_task_step _ _ _ _ _ _ _ _ _ Hinv) as H.
    by destruct (task_step _ _ _ _) as [[t' m' l'|what]|].
Qed.

Lemma thread_step_swap P st :
  thread_step P true st
  = match thread_step P false (swap st) with
    | Some (inr st') => Some (inr (swap st'))
    | Some (inl what) => Some (inl what)
    | None => None
    end.
Proof.
  unfold thread_step, swap; simpl.
  by destruct (task_step _ _ _ _) as [[t' m' l'|what]|].
Qed.

Lemma second_step m0 this j1 j2 st :
  pool_inv m0 this j1 j2 st →
  match thread_step multithread_policy true st with
  | Some (inr st') => pool_inv m0 this j1 j2 st'
  | Some (inl _) => False
  | None => has_returned (second st) = true ∨ is_inside (first st) = true
  end.
Proof.
  intros Hinv. rewrite thread_step_swap.
  pose proof (first_step _ _ _ _ _ (pool_inv_swap _ _ _ _ _ Hinv)) as H.
  destruct (thread_step multithread_policy false (swap st))
    as [[what|st']|]; [done| |done].
  by apply pool_inv_swap in H.
Qed.

Lemma pool_inv_start m this (sg : signal_type A R W) j1 j2 :
  wf_memory m → signals m !! this = Some sg →
  restart j1 = j1 → restart j2 = j2 →
  ready m this j1 → ready m this j2 → apart j1 j2 →
  pool_inv m this j1 j2 (Pool m ∅ j1 j2).
Proof.
  intros [Hown _] Hsg Hs1 Hs2 Hr1 Hr2 Hapart.
  assert (∀ j, restart j = j → ready m this j →
               is_inside j = false ∧ is_after j = false
               ∧ task_holds j = None ∧ task_ok this sg j) as Hstart.
  { intros j Hs Hr. destruct j as [s slot at_|s args at_|c at_];
      simpl in Hs; injection Hs as <-; simpl; split_and!; try done.
    destruct Hr as (sg' & Hsg' & Ha). congruence. }
  destruct (Hstart j1 Hs1 Hr1) as (Hin1 & Haf1 & Hh1 & Hok1).
  destruct (Hstart j2 Hs2 Hr2) as (Hin2 & Haf2 & Hh2 & Hok2).
  assert (settled (Pool m ∅ j1 j2) = m) as Hset.
  { unfold settled; simpl. rewrite Hh1, Hh2. by destruct m. }
  unfold pool_inv. rewrite Hset. simpl. rewrite Hin1, Hin2. simpl.
  split; [done|]. split; [done|]. split; [done|]. split; [done|].
  split; [done|]. split.
  - exists sg. split; [done|]. split; [|done]. intros cb Hcb.
    by apply Hown.
  - exists m. split; [|done]. unfold committed. by rewrite Haf1, Haf2.
Qed.

Lemma pool_step_inv m0 this j1 j2 st st' :
  pool_inv m0 this j1 j2 st → pool_step multithread_policy st st' →
  pool_inv m0 this j1 j2 st'.
Proof.
  intros Hinv [[|] Hstep].
  - pose proof (second_step _ _ _ _ _ Hinv) as H. by rewrite Hstep in H.
  - pose proof (first_step _ _ _ _ _ Hinv) as H. by rewrite Hstep in H.
Qed.

Lemma pool_reachable_inv m0 this j1 j2 st st' :
  pool_inv m0 this j1 j2 st → rtc (pool_step multithread_policy) st st' →
  pool_inv m0 this j1 j2 st'.
Proof. intros Hinv Hs. induction Hs; eauto using pool_step_inv. Qed.

Lemma run_pool_reachable P (schedule : list bool) :
  ∀ st st', run_pool P schedule st = Some st' → rtc (pool_step P) st st'.
Proof.
  induction schedule as [|who rest IH]; intros st st'; simpl.
  - intros [= <-]. apply rtc_refl.
  - destruct (thread_step P who st) as [[what|st1]|] eqn:Hstep; try done.
    intros Hrun. eapply rtc_l; [by exists who|by apply IH].
Qed.

Lemma inside_not_returned t : is_inside t = true → has_returned t = false.
Proof. destruct t as [? ? []|? ? []|? []]; simpl; congruence. Qed.

Lemma returned_settled t :
  has_returned t = true →
  is_after t = true ∧ is_inside t = false ∧ task_holds t = None
  ∧ as_returned t = t.
Proof. destruct t as [? ? []|? ? []|? []]; simpl; try done. Qed.

(** X13. [signal] is [signal_type<multithread_policy,T>]. Two threads
    each run one call of [connect], [operator()] or
    [connection::disconnect] on the same live signal, the disconnects on
    connections of different non-empty slots, and the scheduler
    interleaves their statements in any way. No step breaks; the threads
    are never both between the constructor and the destructor of their
    lock guard; as long as one has not returned some thread can take a
    step; and when both have returned, no mutex is held and the results
    and the memory are those of running the two calls one after the
    other, in one of the two orders. *)
Theorem mutex_serializes m this (sg : signal_type A R W) j1 j2 st :
  wf_memory m → signals m !! this = Some sg →
  restart j1 = j1 → restart j2 = j2 →
  ready m this j1 → ready m this j2 → apart j1 j2 →
  rtc (pool_step multithread_policy) (Pool m ∅ j1 j2) st →
  (∀ who what, thread_step multithread_policy who st ≠ Some (inl what))
  ∧ is_inside (first st) && is_inside (second st) = false
  ∧ (has_returned (first st) && has_returned (second st) = true
     ∨ ∃ who st', thread_step multithread_policy who st = Some (inr st'))
  ∧ (has_returned (first st) = true → has_returned (second st) = true →
     mutexes st = ∅
     ∧ ((let* r1 := atomically j1 in
         let* r2 := atomically j2 in ret (r1, r2)) m
        = Done ((first st, second st), pool_memory st)
        ∨ (let* r2 := atomically j2 in
           let* r1 := atomically j1 in ret (r1, r2)) m
          = Done ((first st, second st), pool_memory st))).
Proof.
  intros Hwf Hsg Hs1 Hs2 Hr1 Hr2 Hapart Hrun.
  pose proof (pool_reachable_inv _ _ _ _ _ _
                (pool_inv_start m this sg j1 j2 Hwf Hsg Hs1 Hs2 Hr1 Hr2 Hapart)
                Hrun) as Hinv.
  pose proof (first_step _ _ _ _ _ Hinv) as H1.
  pose proof (second_step _ _ _ _ _ Hinv) as H2.
  pose proof Hinv as (_ & Hmx & Hexcl & _ & _ & _ & (mb & Hcom & Hmid)).
  split.
  { intros [|] what Hstep; [by rewrite Hstep in H2|by rewrite Hstep in H1]. }
  split; [exact Hexcl|]. split.
  - destruct (has_returned (first st)) eqn:Hret1,
      (has_returned (second st)) eqn:Hret2; [by left|right..].
    + destruct (thread_step multithread_policy true st) as [[what|st']|]
        eqn:Hstep2; [done|by exists true, st'|].
      destruct H2 as [?|Hin]; [congruence|].
      apply inside_not_returned in Hin. congruence.
    + destruct (thread_step multithread_policy false st) as [[what|st']|]
        eqn:Hstep1; [done|by exists false, st'|].
      destruct H1 as [?|Hin]; [congruence|].
      apply inside_not_returned in Hin. congruence.
    + destruct (thread_step multithread_policy false st) as [[what|st']|]
        eqn:Hstep1; [done|by exists false, st'|].
      destruct H1 as [?|Hin]; [congruence|].
      destruct (thread_step multithread_policy true st) as [[what|st']|]
        eqn:Hstep2; [done|by exists true, st'|].
      destruct H2 as [?|Hin1]; [congruence|].
      rewrite Hin, Hin1 in Hexcl. done.
  - intros Hret1 Hret2.
    destruct (returned_settled _ Hret1) as (Haf1 & Hin1 & Hh1 & Has1).
    destruct (returned_settled _ Hret2) as (Haf2 & Hin2 & Hh2 & Has2).
    rewrite Hin1, Hin2 in Hmx, Hmid. simpl in Hmx, Hmid.
    split; [exact Hmx|].
    assert (settled st = pool_memory st) as Hset.
    { unfold settled. rewrite Hh1, Hh2. simpl. by destruct (pool_memory st). }
    rewrite Hset in Hmid. subst mb.
    unfold committed in Hcom. rewrite Haf1, Haf2, Has1, Has2 in Hcom.
    destruct Hcom as [(ma & Ha & Hb)|(ma & Ha & Hb)]; [left|right];
      unfold bind; rewrite Ha, Hb; done.
Qed.

End PoolRuns.

Section Unsafe.
Context {A R W : Type}.

Lemma thread_step_goes (P : policy) (who : bool) (st : pool A R W) t m l :
  task_step P (if who then second st else first st)
    (pool_memory st) (mutexes st) = Some (Goes t m l) →
  thread_step P who st
  = Some (inr {| pool_memory := m; mutexes := l;
                 first := if who then first st else t;
                 second := if who then t else second st |}).
Proof. intros H. unfold thread_step. by rewrite H. Qed.

(** X14. [unsafe_signal] is [signal_type<singlethread_policy,T>]: its
    lock guard takes nothing. Two threads that call [connect] on the
    same signal can then both push their slot before either reads
    [_slots.size()]: both calls return the connection of the last slot,
    and the slot pushed first has no connection. One after the other the
    two calls return two different indices, and under
    [multithread_policy] the same schedule cannot run: the second thread
    waits for the mutex. *)
Theorem unsafe_signal_connects_race (m : memory A R W) this sg cb
    (f g : callable A R W) :
  signals m !! this = Some sg → _shared_disconnector sg = Some cb →
  let start := Pool m ∅ (in_connect this (Some f) k_lock)
                 (in_connect this (Some g) k_lock) in
  let c := {| _weak_disconnector := Some cb;
              _index := S (length (_slots sg)) |} in
  (∃ st sg',
      run_pool singlethread_policy racing_connects start = Some st
      ∧ first st = in_connect this (Some f) (k_done c)
      ∧ second st = in_connect this (Some g) (k_done c)
      ∧ signals (pool_memory st) !! this = Some sg'
      ∧ _slots sg' = _slots sg ++ [Some f; Some g])
  ∧ run_pool multithread_policy racing_connects start = None
  ∧ (∀ c1 c2 m',
       (let* c1 := connect this (Some f) in
        let* c2 := connect this (Some g) in ret (c1, c2)) m
       = Done ((c1, c2), m') →
       _index c1 = length (_slots sg) ∧ _index c2 = S (length (_slots sg))).
Proof.
  intros Hsg Hsh start c. split; [|split].
  - unfold start, racing_connects.
    cbn [run_pool].
    repeat (erewrite thread_step_goes;
            [|cbn [first second pool_memory mutexes task_step];
              unfold on_signal, set_signal; cbn [signals blocks world];
              rewrite ?lookup_insert_eq, ?Hsg; cbn [lock_guard unlock_guard];
              reflexivity];
            cbn [first second pool_memory mutexes with_slots push_back
                 _shared_disconnector _slots _disconnector];
            rewrite ?Hsh).
    eexists _, _. split; [reflexivity|]. cbn [first second pool_memory].
    assert (length (push_back (push_back (_slots sg) (Some f)) (Some g)) - 1
            = S (length (_slots sg))) as ->.
    { unfold push_back. rewrite !length_app. simpl. lia. }
    split; [done|]. split; [done|]. split; [apply lookup_insert_eq|].
    simpl. unfold push_back. by rewrite <- app_assoc.
  - unfold start, racing_connects. cbn [run_pool].
    do 2 (erewrite thread_step_goes;
          [|cbn [first second pool_memory mutexes task_step];
            unfold on_signal, set_signal; cbn [signals blocks world];
            rewrite ?lookup_insert_eq, ?Hsg; cbn [lock_guard];
            rewrite ?decide_False by set_solver;
            reflexivity];
          cbn [first second pool_memory mutexes]).
    unfold thread_step. cbn [first second pool_memory mutexes task_step].
    unfold set_signal; cbn [signals]. rewrite lookup_insert_eq.
    cbn [lock_guard]. rewrite decide_True by set_solver. done.
  - intros c1 c2 m'. unfold bind.
    destruct (connect_alive m this sg (Some f) Hsg)
      as (cb1 & bl1 & Hrun1 & _ & _).
    rewrite Hrun1.
    match goal with
    | |- context [connect this (Some g) ?m1] =>
        destruct (connect_alive m1 this _ (Some g) (lookup_insert_eq _ _ _))
          as (cb2 & bl2 & Hrun2 & _ & _)
    end.
    rewrite Hrun2. intros [= <- <- _]. simpl. split; [done|].
    rewrite length_app. simpl. lia.
Qed.

End Unsafe.

Section WorkFacts.
Context {A R W : Type}.
#[local] Abbreviation task_w := (task A R W).
#[local] Abbreviation pool_w := (pool A R W).
#[local] Abbreviation mem_w := (memory A R W).
Implicit Types (t u : task_w) (st : pool_w) (m : mem_w).
#[local] Arguments lock_guard : simpl never.
#[local] Arguments unlock_guard : simpl never.

Lemma steps_left_mono t n n' : n ≤ n' → steps_left t n ≤ steps_left t n'.
Proof. destruct t as [? ? []|? ? []|? []]; simpl; lia. Qed.

Lemma steps_left_succ t n : steps_left t (S n) ≤ S (steps_left t n).
Proof. destruct t as [? ? []|? ? []|? []]; simpl; lia. Qed.

Lemma task_step_work this m l t t' m' l' (sg : signal_type A R W) u :
  signals m !! this = Some sg → task_ok this sg t →
  task_step multithread_policy t m l = Some (Goes t' m' l') →
  ∃ sg', signals m' !! this = Some sg'
         ∧ steps_left t' (length (_slots sg'))
           + steps_left u (length (_slots sg'))
           < steps_left t (length (_slots sg))
             + steps_left u (length (_slots sg)).
Proof.
  intros Hsg Hok Hstep.
  pose proof (steps_left_succ u (length (_slots sg))) as Hsucc.
  destruct t as [s slot at_|s args at_|c at_]; simpl in Hok.
  - subst s. destruct at_; simpl in Hstep; unfold on_signal in Hstep;
      rewrite ?Hsg in Hstep.
    + destruct (lock_guard _ _ _); [|done]. injection Hstep as <- <- <-.
      exists sg. split; [done|]. simpl. (unfold slot_type, callable in *; lia).
    + injection Hstep as <- <- <-. eexists. split; [apply lookup_insert_eq|].
      simpl. unfold push_back. rewrite length_app. simpl.
      rewrite Nat.add_1_r. (unfold slot_type, callable in *; lia).
    + injection Hstep as <- <- <-. exists sg. split; [done|]. simpl. (unfold slot_type, callable in *; lia).
    + injection Hstep as <- <- <-. exists sg. split; [done|].
      destruct (_shared_disconnector sg); simpl; (unfold slot_type, callable in *; lia).
    + injection Hstep as <- <- <-. eexists. split; [apply lookup_insert_eq|].
      simpl. (unfold slot_type, callable in *; lia).
    + injection Hstep as <- <- <-. eexists. split; [apply lookup_insert_eq|].
      simpl. (unfold slot_type, callable in *; lia).
    + injection Hstep as <- <- <-. exists sg. split; [done|]. simpl. (unfold slot_type, callable in *; lia).
    + injection Hstep as <- <- <-. exists sg. split; [done|]. simpl. (unfold slot_type, callable in *; lia).
    + done.
  - subst s. destruct at_; simpl in Hstep; unfold on_signal in Hstep;
      rewrite ?Hsg in Hstep.
    + destruct (lock_guard _ _ _); [|done]. injection Hstep as <- <- <-.
      exists sg. split; [done|]. simpl. (unfold slot_type, callable in *; lia).
    + destruct (_slots sg !! i) as [[f|]|] eqn:Hi;
        injection Hstep as <- <- <-; exists sg; (split; [done|]);
        cbn [steps_left].
      * apply lookup_lt_Some in Hi. (unfold slot_type, callable in *; lia).
      * apply lookup_lt_Some in Hi. (unfold slot_type, callable in *; lia).
      * (unfold slot_type, callable in *; lia).
    + injection Hstep as <- <- <-. exists sg. split; [done|]. simpl. (unfold slot_type, callable in *; lia).
    + done.
  - destruct at_; simpl in Hstep.
    + destruct (acquire _ _) as [ptr bs]. injection Hstep as <- <- <-.
      exists sg. split; [done|]. simpl. (unfold slot_type, callable in *; lia).
    + injection Hstep as <- <- <-. exists sg. split; [done|].
      destruct ptr; simpl; (unfold slot_type, callable in *; lia).
    + destruct (blocks m !! ptr) as [b|]; [|done]. unfold on_signal in Hstep.
      destruct (signals m !! pointee b) as [sg0|]; [|done].
      injection Hstep as <- <- <-. exists sg. split; [done|].
      destruct (_ptr (_disconnector sg0)); simpl; (unfold slot_type, callable in *; lia).
    + destruct Hok as (_ & _ & ->). rewrite Hsg in Hstep.
      destruct (lock_guard _ _ _); [|done]. injection Hstep as <- <- <-.
      exists sg. split; [done|]. simpl. (unfold slot_type, callable in *; lia).
    + destruct Hok as (_ & _ & ->). unfold on_signal in Hstep.
      rewrite Hsg in Hstep. case_decide; [|done].
      injection Hstep as <- <- <-. exists sg. split; [done|]. simpl. (unfold slot_type, callable in *; lia).
    + destruct Hok as (_ & _ & ->). unfold on_signal in Hstep.
      rewrite Hsg in Hstep. case_decide; [|done].
      injection Hstep as <- <- <-. eexists. split; [apply lookup_insert_eq|].
      simpl. rewrite length_insert. (unfold slot_type, callable in *; lia).
    + destruct Hok as (_ & ->). unfold on_signal in Hstep.
      rewrite Hsg in Hstep.
      destruct (back (_slots sg)) as [[g|]|] eqn:Hback;
        injection Hstep as <- <- <-.
      * exists sg. split; [done|]. simpl. (unfold slot_type, callable in *; lia).
      * eexists. split; [apply lookup_insert_eq|]. simpl.
        apply last_Some in Hback as [l0 Hl0]. rewrite Hl0.
        rewrite (pop_back_snoc l0 None), length_app. simpl.
        pose proof (steps_left_mono u (length l0) (length l0 + 1)). (unfold slot_type, callable in *; lia).
      * exists sg. split; [done|]. simpl. (unfold slot_type, callable in *; lia).
    + destruct Hok as (_ & ->). unfold on_signal in Hstep.
      rewrite Hsg in Hstep. injection Hstep as <- <- <-.
      exists sg. split; [done|]. simpl. (unfold slot_type, callable in *; lia).
    + injection Hstep as <- <- <-. exists sg. split; [done|]. simpl. (unfold slot_type, callable in *; lia).
    + injection Hstep as <- <- <-. exists sg. split; [done|]. simpl. (unfold slot_type, callable in *; lia).
    + done.
Qed.

Lemma run_pool_nsteps P (schedule : list bool) :
  ∀ st st' : pool_w,
    run_pool P schedule st = Some st' →
    nsteps (pool_step P) (length schedule) st st'.
Proof.
  induction schedule as [|who rest IH]; intros st st'; simpl.
  - intros [= <-]. apply nsteps_O.
  - destruct (thread_step P who st) as [[what|st1]|] eqn:Hstep; try done.
    intros Hrun. eapply nsteps_l; [by exists who|by apply IH].
Qed.

Lemma pool_step_work m0 this j1 j2 st st' :
  pool_inv m0 this j1 j2 st → pool_step multithread_policy st st' →
  pool_work this st' < pool_work this st.
Proof.
  intros (_ & _ & _ & _ & _ & (sg & Hsg & _ & Hok1 & Hok2) & _) [who Hstep].
  destruct st as [m l t1 t2]. unfold thread_step in Hstep.
  cbn [first second pool_memory mutexes] in *.
  change (signals m !! this = Some sg) in Hsg.
  destruct who.
  - destruct (task_step multithread_policy t2 m l) as [[t' m' l'|what]|]
      eqn:Hts; [|done..]. injection Hstep as <-.
    destruct (task_step_work this m l t2 t' m' l' sg t1 Hsg Hok2 Hts)
      as (sg' & Hsg' & Hlt).
    unfold pool_work. simpl. rewrite Hsg, Hsg'. lia.
  - destruct (task_step multithread_policy t1 m l) as [[t' m' l'|what]|]
      eqn:Hts; [|done..]. injection Hstep as <-.
    destruct (task_step_work this m l t1 t' m' l' sg t2 Hsg Hok1 Hts)
      as (sg' & Hsg' & Hlt).
    unfold pool_work. simpl. rewrite Hsg, Hsg'. lia.
Qed.

(** X15. Under [multithread_policy] the two threads of X13 take at
    most [steps_left j1 n + steps_left j2 n] steps between them, [n]
    being the number of slots at the start, whatever the scheduler
    does; and a run in which a thread has not returned can go on. So
    every run that cannot go on has both calls returned. *)
Theorem mutex_runs_terminate m this (sg : signal_type A R W) j1 j2 k st :
  wf_memory m → signals m !! this = Some sg →
  restart j1 = j1 → restart j2 = j2 →
  ready m this j1 → ready m this j2 → apart j1 j2 →
  nsteps (pool_step multithread_policy) k (Pool m ∅ j1 j2) st →
  k + pool_work this st
  ≤ steps_left j1 (length (_slots sg)) + steps_left j2 (length (_slots sg))
  ∧ (has_returned (first st) && has_returned (second st) = true
     ∨ ∃ st', pool_step multithread_policy st st').
Proof.
  intros Hwf Hsg Hs1 Hs2 Hr1 Hr2 Hapart Hrun.
  pose proof (pool_inv_start m this sg j1 j2 Hwf Hsg Hs1 Hs2 Hr1 Hr2 Hapart)
    as Hinv.
  assert (pool_work this (Pool m ∅ j1 j2)
          = steps_left j1 (length (_slots sg))
            + steps_left j2 (length (_slots sg))) as <-.
  { unfold pool_work. simpl. by rewrite Hsg. }
  assert (∀ st0, pool_inv m this j1 j2 st0 →
                 nsteps (pool_step multithread_policy) k st0 st →
                 k + pool_work this st ≤ pool_work this st0
                 ∧ pool_inv m this j1 j2 st) as Hbound.
  { clear Hrun Hinv. induction k as [|k IH]; intros st0 Hinv0 Hrun.
    - inversion Hrun; subst. split; [lia|done].
    - inversion Hrun as [|? ? st1 ? Hstep Hrest]; subst.
      pose proof (pool_step_work _ _ _ _ _ _ Hinv0 Hstep) as Hlt.
      destruct (IH st1 (pool_step_inv _ _ _ _ _ _ Hinv0 Hstep) Hrest)
        as [Hle Hinv']. split; [lia|done]. }
  destruct (Hbound _ Hinv Hrun) as [Hle Hinv']. split; [exact Hle|].
  pose proof (first_step _ _ _ _ _ Hinv') as H1.
  pose proof (second_step _ _ _ _ _ Hinv') as H2.
  pose proof Hinv' as (_ & _ & Hexcl & _).
  destruct (has_returned (first st)) eqn:Hret1,
    (has_returned (second st)) eqn:Hret2; [by left|right..].
  - destruct (thread_step multithread_policy true st) as [[what|st']|]
      eqn:Hstep2; [done|by exists st', true|].
    destruct H2 as [?|Hin]; [congruence|].
    apply inside_not_returned in Hin. congruence.
  - destruct (thread_step multithread_policy false st) as [[what|st']|]
      eqn:Hstep1; [done|by exists st', false|].
    destruct H1 as [?|Hin]; [congruence|].
    apply inside_not_returned in Hin. congruence.
  - destruct (thread_step multithread_policy false st) as [[what|st']|]
      eqn:Hstep1; [done|by exists st', false|].
    destruct H1 as [?|Hin]; [congruence|].
    destruct (thread_step multithread_policy true st) as [[what|st']|]
      eqn:Hstep2; [done|by exists st', true|].
    destruct H2 as [?|Hin1]; [congruence|].
    rewrite Hin, Hin1 in Hexcl. done.
Qed.

End WorkFacts.

(** ** Vectors stay trimmed *)

Section TrimmedFacts.
Context {A R W : Type}.
#[local] Abbreviation mem_t := (memory A R W).
#[local] Abbreviation client_t := (client A R W).
Implicit Types (m : mem_t) (cl : client_t).

Lemma trimmed_signals m m' :
  signals m' = signals m → trimmed m → trimmed m'.
Proof. intros Heq Ht a sg. rewrite Heq. apply Ht. Qed.

Lemma trimmed_insert m a (sg : signal_type A R W) bs (w : W) :
  trimmed m → back (_slots sg) ≠ Some None →
  trimmed {| signals := <[a := sg]> (signals m); blocks := bs; world := w |}.
Proof.
  intros Ht Hsg a' sg'. simpl. destruct (decide (a = a')) as [<-|Hne].
  - rewrite lookup_insert_eq. by intros [= <-].
  - rewrite lookup_insert_ne by done. apply Ht.
Qed.

Lemma trimmed_new m a m' :
  signal_new m = Done (a, m') → trimmed m → trimmed m'.
Proof.
  unfold signal_new. intros [= <- <-] Ht. by apply trimmed_insert.
Qed.

Lemma trimmed_connect m s (f : callable A R W) c m' :
  connect s (Some f) m = Done (c, m') → trimmed m → trimmed m'.
Proof.
  intros Hrun Ht. destruct (signals m !! s) as [sg|] eqn:Hsg.
  - destruct (connect_alive m s sg (Some f) Hsg) as (cb & bs & Hc & _ & _).
    rewrite Hc in Hrun. injection Hrun as <- <-.
    apply trimmed_insert; [done|]. simpl.
    rewrite (back_snoc (_slots sg) (Some f)). congruence.
  - unfold connect, bind, get_signal in Hrun. by rewrite Hsg in Hrun.
Qed.

Lemma trimmed_signal_disconnect m s index m' :
  signal_disconnect s index m = Done (tt, m') → trimmed m → trimmed m'.
Proof.
  unfold signal_disconnect, bind, get_signal.
  destruct (signals m !! s) as [sg|] eqn:Hsg; [|done].
  case_decide; [|done]. unfold put_signal. intros [= <-] Ht.
  apply trimmed_insert; [done|]. simpl. apply trim_loop_exit.
Qed.

Lemma trimmed_disconnect m c c' m' :
  connection_disconnect c m = Done (c', m') → trimmed m → trimmed m'.
Proof.
  unfold connection_disconnect, bind.
  destruct (lock (blocks m) (_weak_disconnector c)) as [cb|];
    [|by intros [= <- <-]].
  destruct (blocks m !! cb) as [b|]; [|by intros [= <- <-]].
  unfold get_signal. destruct (signals m !! pointee b) as [sg|]; [|done].
  unfold disconnector_call. destruct (_ptr (_disconnector sg)) as [ptr|];
    [|by intros [= <- <-]].
  destruct (signal_disconnect ptr (_index c) m) as [[[] m1]|e] eqn:Hd; [|done].
  intros [= <- <-]. by eapply trimmed_signal_disconnect.
Qed.

Lemma trimmed_destroy m s m' :
  signal_destroy s m = Done (tt, m') → trimmed m → trimmed m'.
Proof.
  unfold signal_destroy, bind, get_signal.
  destruct (signals m !! s) as [sg|]; [|done].
  destruct (lock _ _); [done|]. intros [= <-] Ht a sg'. simpl.
  intros Ha. apply lookup_delete_Some in Ha as [_ Ha]. by eapply Ht.
Qed.

Lemma trimmed_call m s (args : A) m' :
  signal_call s args m = Done (tt, m') → trimmed m → trimmed m'.
Proof.
  unfold signal_call, bind, get_signal.
  destruct (signals m !! s) as [sg|]; [|done]. intros [= <-].
  by apply trimmed_signals.
Qed.

Lemma trimmed_accumulate {T U} (cv : conversions T U) m
    (acc : signal_accumulator R T U) (args : A) v m' :
  accumulator_call cv acc args m = Done (v, m') → trimmed m → trimmed m'.
Proof.
  unfold accumulator_call, trigger_with_accumulator, bind, get_signal.
  destruct (signals m !! _signal acc) as [sg|]; [|done].
  destruct (accumulate_slots _ _ _ _ _ _) as [v' w']. intros [= <- <-].
  by apply trimmed_signals.
Qed.

Lemma trimmed_scoped_disconnect m sc sc' m' :
  scoped_disconnect sc m = Done (sc', m') → trimmed m → trimmed m'.
Proof.
  unfold scoped_disconnect, bind.
  destruct (connection_disconnect (_connection sc) m) as [[c' m1]|e] eqn:Hd;
    [|done].
  intros [= <- <-]. by eapply trimmed_disconnect.
Qed.

Lemma trimmed_scoped_reset m sc c r m' :
  scoped_reset sc c m = Done (r, m') → trimmed m → trimmed m'.
Proof.
  unfold scoped_reset, bind.
  destruct (scoped_disconnect sc m) as [[sc' m1]|e] eqn:Hd; [|done].
  intros [= <- <-]. by eapply trimmed_scoped_disconnect.
Qed.

Lemma client_step_trimmed (ev : event A R W) cl cl' :
  client_step ev cl = Some (Done cl') →
  trimmed (heap cl) → trimmed (heap cl').
Proof.
  destruct cl as [m objs].
  destruct ev as [|s|s f x|s args|T U cv s init op args|x|y|x|x|x y|x y|y x|y|y x|x];
    unfold client_step, on_heap; cbn [heap objects].
  - destruct (signal_new m) as [[a m1]|e] eqn:H; [|done].
    intros [= <-]. by eapply trimmed_new.
  - destruct (signals m !! s); [|done].
    destruct (signal_destroy s m) as [[[] m1]|e] eqn:H; [|done].
    intros [= <-]. by eapply trimmed_destroy.
  - destruct (signals m !! s); [|done].
    destruct (objs !! x) as [[old|sc]|].
    + destruct (connect s (Some f) m) as [[c m1]|e] eqn:H; [|done].
      intros [= <-]. by eapply trimmed_connect.
    + unfold scoped_assign, bind at 1.
      destruct (connect s (Some f) m) as [[c m1]|e] eqn:H; [|done].
      destruct (scoped_reset sc c m1) as [[r m2]|e] eqn:H2; [|done].
      intros [= <-] Ht. eapply trimmed_scoped_reset; [exact H2|].
      by eapply trimmed_connect.
    + destruct (connect s (Some f) m) as [[c m1]|e] eqn:H; [|done].
      intros [= <-]. by eapply trimmed_connect.
  - destruct (signals m !! s); [|done].
    destruct (signal_call s args m) as [[[] m1]|e] eqn:H; [|done].
    intros [= <-]. by eapply trimmed_call.
  - destruct (signals m !! s); [|done].
    destruct (accumulator_call _ _ args m) as [[v m1]|e] eqn:H; [|done].
    intros [= <-]. by eapply trimmed_accumulate.
  - destruct (objs !! x); [done|]. by intros [= <-].
  - destruct (objs !! y); [done|]. by intros [= <-].
  - destruct (objs !! x); [|done]. by intros [= <-].
  - destruct (objs !! x) as [[c|sc]|]; [| |done].
    + destruct (connection_disconnect c m) as [[c' m1]|e] eqn:H; [|done].
      intros [= <-]. by eapply trimmed_disconnect.
    + destruct (scoped_disconnect sc m) as [[c' m1]|e] eqn:H; [|done].
      intros [= <-]. by eapply trimmed_scoped_disconnect.
  - case_decide as Hxy; [done|].
    destruct (objs !! x) as [[c|sc]|]; [| |done].
    + destruct (objs !! y) as [[old|sc']|]; [|done|]; by intros [= <-].
    + destruct (objs !! y); [done|]. by intros [= <-].
  - case_decide as Hxy; [done|].
    destruct (objs !! x) as [[c|sc]|]; [|done|done].
    destruct (objs !! y); [done|]. by intros [= <-].
  - case_decide as Hxy; [done|].
    destruct (objs !! y) as [[c'|sc]|]; [done| |done].
    destruct (objs !! x) as [[c|sc']|]; [|done|done].
    destruct (scoped_reset sc c m) as [[r m1]|e] eqn:H; [|done].
    intros [= <-]. by eapply trimmed_scoped_reset.
  - destruct (objs !! y) as [[c'|sc]|]; [done| |done].
    destruct (scoped_reset sc connection_default m) as [[r m1]|e] eqn:H;
      [|done].
    intros [= <-]. by eapply trimmed_scoped_reset.
  - case_decide as Hxy; [done|].
    destruct (objs !! y) as [[c'|sc]|]; [done| |done].
    destruct (objs !! x) as [[old|sc']|]; [|done|]; by intros [= <-].
  - destruct (objs !! x) as [[c|sc]|]; [| |done].
    + by intros [= <-].
    + unfold scoped_destroy, bind.
      destruct (scoped_disconnect sc m) as [[sc' m1]|e] eqn:H; [|done].
      intros [= <-]. by eapply trimmed_scoped_disconnect.
Qed.

Lemma run_events_trimmed (evs : list (event A R W)) :
  ∀ cl cl', run_events evs cl = Some (Done cl') →
            trimmed (heap cl) → trimmed (heap cl').
Proof.
  induction evs as [|ev evs IH]; intros cl cl'; simpl.
  - by intros [= <-].
  - destruct (client_step ev cl) as [[cl1|e]|] eqn:Hstep; [|done..].
    intros Hrun Ht. eapply IH; [exact Hrun|].
    by eapply client_step_trimmed.
Qed.

(** X16. After any program that connects callables, no slot vector of
    a live signal ends in an empty slot: the vector is as short as its
    last non-empty slot allows, and a signal without a non-empty slot
    has an empty vector. *)
Theorem callable_programs_keep_vectors_trimmed
    (evs : list (event A R W)) (w : W) cl a sg :
  run_events evs (initial_client w) = Some (Done cl) →
  signals (heap cl) !! a = Some sg →
  back (_slots sg) ≠ Some None
  ∧ ((∀ i f, _slots sg !! i ≠ Some (Some f)) → _slots sg = []).
Proof.
  intros Hrun Ha.
  assert (back (_slots sg) ≠ Some None) as Hback.
  { eapply (run_events_trimmed evs _ _ Hrun); [|exact Ha].
    intros a' sg'. simpl. by rewrite lookup_empty. }
  split; [exact Hback|]. intros Hno. by apply trimmed_tombstones.
Qed.

End TrimmedFacts.

(** ** Connecting an empty function *)

(** C6, at the failing client. [connect] accepts an empty
    [std::function]; the slot it pushes is a tombstone from the start,
    and the trim of [c1.disconnect()] pops it together with the slot of
    [c1]. The connection [c0] is still connected and holds index 0 of a
    vector that is now empty, so [c0.disconnect()] reaches the [assert]
    of [signal_type::disconnect] out of bounds. *)
Theorem empty_function_client_asserts :
  ∃ m sg,
    empty_function_client (empty_memory [])
    = Done ({| _weak_disconnector := Some 0; _index := 0 |}, m)
    ∧ signals m !! 0 = Some sg
    ∧ _slots sg = []
    ∧ connected {| _weak_disconnector := Some 0; _index := 0 |} m = true
    ∧ connection_disconnect {| _weak_disconnector := Some 0; _index := 0 |} m
      = Failed assertion_failed.
Proof.
  eexists _, _. split; [vm_compute; reflexivity|].
  split; [reflexivity|]. by vm_compute.
Qed.

(** C1, at the failing client. After the trim has popped the tombstone
    of [c0], the next [connect] reuses index 0: [c0] and [c2] are both
    connected and hold the same block and the same index. The slot at
    index 0 is the callable of [c2]; [c0.disconnect()] returns and
    erases it. Afterwards [c2] is still connected, its index addresses
    nothing, and a trigger no longer calls its callable. *)
Theorem empty_function_aliases_live_slot :
  ∃ m sg m' sg',
    empty_function_alias_client (empty_memory [])
    = Done (({| _weak_disconnector := Some 0; _index := 0 |},
             {| _weak_disconnector := Some 0; _index := 0 |}), m)
    ∧ signals m !! 0 = Some sg
    ∧ _slots sg = [Some (tagged_slot 2)]
    ∧ connected {| _weak_disconnector := Some 0; _index := 0 |} m = true
    ∧ connection_disconnect {| _weak_disconnector := Some 0; _index := 0 |} m
      = Done ({| _weak_disconnector := None; _index := 0 |}, m')
    ∧ signals m' !! 0 = Some sg'
    ∧ _slots sg' = []
    ∧ connected {| _weak_disconnector := Some 0; _index := 0 |} m' = true
    ∧ signal_call 0 7 m' = Done (tt, m')
    ∧ world m' = [].
Proof.
  eexists _, _, _, _. split; [vm_compute; reflexivity|].
  split; [reflexivity|]. split; [reflexivity|]. split; [reflexivity|].
  split; [vm_compute; reflexivity|]. split; [reflexivity|].
  by vm_compute.
Qed.

(** C7, at the failing client. Two slots are connected to a signal
    without slots, the first of them an empty [std::function]; both
    connections are connected. When the second disconnects first, its
    trim pops both slots and the vector is empty while the first
    connection is still connected; the first connection then calls
    [disconnect] with index 0 on the empty vector and the [assert] of
    [signal_type::disconnect] fires. In the other order both calls
    return and the vector is empty. *)
Theorem empty_function_stops_the_last_disconnect :
  ∃ c0 c1 m,
    connect_all 0 [None; Some (tagged_slot 1)] fresh_memory
    = Done ([c0; c1], m)
    ∧ connected c0 m = true
    ∧ connected c1 m = true
    ∧ (∃ cs m1 sg1,
         disconnect_in_order [c0; c1] [1] m = Done (cs, m1)
         ∧ signals m1 !! 0 = Some sg1
         ∧ _slots sg1 = []
         ∧ connected c0 m1 = true)
    ∧ disconnect_in_order [c0; c1] [1; 0] m = Failed assertion_failed
    ∧ ∃ cs m' sg',
        disconnect_in_order [c0; c1] [0; 1] m = Done (cs, m')
        ∧ signals m' !! 0 = Some sg'
        ∧ _slots sg' = [].
Proof.
  eexists _, _, _. split; [vm_compute; reflexivity|].
  split; [reflexivity|]. split; [reflexivity|]. split; [|split].
  - eexists _, _, _. split; [vm_compute; reflexivity|]. by vm_compute.
  - by vm_compute.
  - eexists _, _, _. split; [vm_compute; reflexivity|]. by vm_compute.
Qed.

(** C8, at the failing client. The connection [c0] of
    [empty_function_client] is connected and holds index 0 of a vector
    without slots. One thread destroys the signal, the other calls
    [c0.disconnect()]: [disconnect] locks the weak pointer, reads the
    disconnector, takes the mutex and reaches the [assert] of
    [signal_type::disconnect] out of bounds, whether the destructor has
    not started or already waits in its loop. *)
Theorem teardown_meets_the_assert :
  ∃ m st st',
    empty_function_client (empty_memory [])
    = Done ({| _weak_disconnector := Some 0; _index := 0 |}, m)
    ∧ is_Some (signals m !! 0)
    ∧ connected {| _weak_disconnector := Some 0; _index := 0 |} m = true
    ∧ run_schedule [false; false; false; false]
        (teardown_start m 0 {| _weak_disconnector := Some 0; _index := 0 |})
      = Some st
    ∧ destructor st = d_start
    ∧ disconnect_step st = Some (Failed assertion_failed)
    ∧ run_schedule [false; true; true; true; true; true; false; false; false]
        (teardown_start m 0 {| _weak_disconnector := Some 0; _index := 0 |})
      = Some st'
    ∧ destructor st' = d_lock (Some 0)
    ∧ disconnect_step st' = Some (Failed assertion_failed).
Proof.
  eexists _, _, _. split; [vm_compute; reflexivity|].
  split; [by eexists|]. split; [reflexivity|].
  split; [vm_compute; reflexivity|]. split; [reflexivity|].
  split; [reflexivity|]. split; [vm_compute; reflexivity|].
  split; reflexivity.
Qed.

(** ** The operations on the example signals *)

Lemma disconnect_and_connect_keep_indices_witness :
  signals holed_memory !! 0 = Some holed_signal
  ∧ 0 < length (_slots holed_signal)
  ∧ (∃ m', signal_disconnect 0 0 holed_memory = Done (tt, m')
           ∧ _slots <$> signals m' !! 0
             = Some [None; None; Some (tagged_slot 3)]).
Proof.
  split; [reflexivity|]. split; [simpl; lia|].
  destruct (disconnect_and_connect_keep_indices
              holed_memory 0 holed_signal 0) as [Hrun _];
    [reflexivity | simpl; lia |].
  eexists. split; [exact Hrun|]. reflexivity.
Defined.

Lemma trigger_calls_live_slots_in_order_witness :
  signals holed_memory !! 0 = Some holed_signal
  ∧ signal_call 0 5 holed_memory
    = Done (tt, {| signals := signals holed_memory;
                   blocks := blocks holed_memory;
                   world := [1; 3] |}).
Proof.
  split; [reflexivity|].
  destruct (trigger_calls_live_slots_in_order
              holed_memory 0 holed_signal 5) as [Hrun _];
    [reflexivity|].
  exact Hrun.
Defined.

Lemma accumulate_folds_in_type_of_init_witness :
  signals counting_memory !! 0 = Some counting_signal
  ∧ accumulator_call (same_type nat) (accumulate 0 0 Nat.add) 7
      counting_memory
    = Done (6, counting_memory)
  ∧ accumulator_call (same_type nat) (accumulate 0 0 Nat.max) 7
      counting_memory
    = Done (3, counting_memory)
  ∧ accumulator_call unsigned_char_unsigned
      (accumulate 0 0%Z add_unsigned) 7%Z wide_memory
    = Done (44%Z, wide_memory).
Proof.
  split; [reflexivity|].
  destruct (accumulate_folds_in_type_of_init (same_type nat)
              counting_memory 0 counting_signal 0 Nat.add 7 eq_refl)
    as (_ & Hsame & _).
  destruct (accumulate_folds_in_type_of_init unsigned_char_unsigned
              wide_memory 0 wide_signal 0%Z add_unsigned 7%Z eq_refl)
    as (Hrun & _).
  split; [exact (Hsame Nat.add)|]. split; [exact (Hsame Nat.max)|].
  exact Hrun.
Defined.

(** The left fold of C3 is not what the proxy returns when the calls
    of the operator have a wider type than the initial value. A
    [signal<unsigned(unsigned)>] has two slots that return 200 and 100;
    [accumulate( (unsigned char)0, add )] with [add] on [unsigned]
    stores 200, then 300 converted to [unsigned char], and returns 44;
    the left fold [add( add( 0, 200 ), 100 )] is 300. *)
Lemma accumulate_is_not_left_fold :
  let results :=
    returned (live_slots (_slots wide_signal)) 7%Z (world wide_memory) in
  results = [200; 100]%Z
  ∧ left_fold add_unsigned 0%Z results = 300%Z
  ∧ accumulator_call unsigned_char_unsigned
      (accumulate 0 0%Z add_unsigned) 7%Z wide_memory
    = Done (44%Z, wide_memory)
  ∧ ∀ v m',
      accumulator_call unsigned_char_unsigned
        (accumulate 0 0%Z add_unsigned) 7%Z wide_memory
      = Done (v, m') →
      v ≠ left_fold add_unsigned 0%Z results.
Proof.
  split; [reflexivity|]. split; [reflexivity|]. split; [reflexivity|].
  intros v m' Hrun. vm_compute in Hrun. injection Hrun as <- _.
  vm_compute. discriminate.
Qed.

Lemma wf_fresh_memory : wf_memory fresh_memory.
Proof.
  split; simpl.
  - intros a sg cb Ha. apply lookup_singleton_Some in Ha as [_ <-]. done.
  - intros cb b. by rewrite lookup_nil.
Qed.

Lemma wf_holed_memory : wf_memory holed_memory.
Proof.
  split; simpl.
  - intros a sg cb Ha. apply lookup_singleton_Some in Ha as [<- <-].
    simpl. by intros [= <-].
  - intros cb b Hb _. apply list_lookup_singleton_Some in Hb as [-> <-].
    simpl. exists holed_signal. by rewrite lookup_singleton_eq.
Qed.

Lemma connection_disconnect_idempotent_witness :
  (let* c' := connection_disconnect (Connection (Some 0) 2) in
   connection_disconnect c') holed_memory
  = connection_disconnect (Connection (Some 0) 2) holed_memory
  ∧ ∃ m', connection_disconnect (Connection (Some 0) 2) holed_memory
          = Done (Connection None 2, m')
          ∧ _slots <$> signals m' !! 0 = Some [Some (tagged_slot 1)]
          ∧ connection_disconnect (Connection None 2) m'
            = Done (Connection None 2, m').
Proof.
  destruct (connection_disconnect_idempotent
              (Connection (Some 0) 2) holed_memory) as (Htwice & _ & _ & Hlater).
  split; [exact Htwice|].
  eexists. split; [reflexivity|]. split; [reflexivity|].
  eapply Hlater. reflexivity.
Defined.

Lemma connected_follows_signal_life_witness :
  wf_memory fresh_memory
  ∧ signals fresh_memory !! 0 = Some signal_default
  ∧ ∃ c m1, connect 0 (Some (tagged_slot 1)) fresh_memory = Done (c, m1)
            ∧ connected c m1 = true.
Proof.
  split; [exact wf_fresh_memory|]. split; [reflexivity|].
  destruct (connected_follows_signal_life
              fresh_memory 0 signal_default (Some (tagged_slot 1))
              wf_fresh_memory eq_refl) as (c & m1 & Hc & Hlive & _).
  exists c, m1. split; [exact Hc|exact Hlive].
Defined.

Lemma tombstones_settle_to_zero_witness :
  wf_memory fresh_memory
  ∧ signals fresh_memory !! 0 = Some signal_default
  ∧ _slots (signal_default (A:=nat) (R:=nat) (W:=list nat)) = []
  ∧ (∀ i, i < 3 → i ∈ [1; 2; 0])
  ∧ ∃ cs m' sg',
      (let* cs := connect_all 0 (Some <$> [tagged_slot 1; tagged_slot 2;
                                           tagged_slot 3]) in
       disconnect_in_order cs [1; 2; 0]) fresh_memory = Done (cs, m')
      ∧ signals m' !! 0 = Some sg'
      ∧ length (_slots sg') = 0.
Proof.
  assert (∀ i, i < 3 → i ∈ [1; 2; 0]) as Hall.
  { intros i Hi. destruct i as [|[|[|i]]]; [| | |lia];
      repeat first [apply list_elem_of_here | apply list_elem_of_further]. }
  split; [exact wf_fresh_memory|]. split; [reflexivity|].
  split; [reflexivity|]. split; [exact Hall|].
  destruct (tombstones_settle_to_zero
              fresh_memory 0 signal_default
              [tagged_slot 1; tagged_slot 2; tagged_slot 3] [1; 2; 0] 0
              wf_fresh_memory eq_refl eq_refl Hall)
    as (_ & _ & cs & m' & sg' & Hrun & Hsg' & _ & Hlen & _).
  exists cs, m', sg'. split; [exact Hrun|]. split; [exact Hsg'|exact Hlen].
Defined.

Lemma scoped_connection_disconnects_once_witness :
  wf_memory holed_memory
  ∧ scoped_connected holed_scoped holed_memory = true
  ∧ (∃ m' sg' m2,
       scoped_destroy holed_scoped holed_memory = Done (tt, m')
       ∧ signals m' !! 0 = Some sg'
       ∧ _slots sg' = [Some (tagged_slot 1)]
       ∧ signal_call 0 5 m' = Done (tt, m2)
       ∧ world m2 = [1])
  ∧ scoped_destroy (scoped_release holed_scoped).2 holed_memory
    = Done (tt, holed_memory).
Proof.
  split; [exact wf_holed_memory|]. split; [reflexivity|].
  destruct (scoped_connection_disconnects_once
              holed_scoped connection_default holed_memory 5)
    as (_ & _ & Hlive & _ & Hreleased).
  split; [|apply Hreleased].
  destruct (Hlive wf_holed_memory)
    as (cb & this & sg & Hweak & Hb & Hsg & Heffect).
  injection Hweak as <-. injection Hb as <-. injection Hsg as <-.
  destruct Heffect as (Hd & _ & _ & _ & Hcall).
  eexists _, _, _. split; [exact Hd|]. split; [reflexivity|].
  split; [reflexivity|]. split; [exact Hcall|reflexivity].
Defined.

Lemma moved_from_connection_is_disconnected_witness :
  connected (connection_move (Connection (Some 0) 2)).2 holed_memory = false
  ∧ connected (connection_move (Connection (Some 0) 2)).1 holed_memory = true.
Proof.
  destruct (moved_from_connection_is_disconnected
              connection_default (Connection (Some 0) 2) holed_memory)
    as (_ & _ & _ & _ & Hfrom & _ & _ & _ & Hto & _).
  split; [exact Hfrom|]. rewrite Hto. reflexivity.
Defined.

Lemma teardown_keeps_the_signal_alive_witness :
  wf_memory holed_memory
  ∧ signals holed_memory !! 0 = Some holed_signal
  ∧ _shared_disconnector holed_signal = Some 0
  ∧ ∃ st,
      run_schedule crossing_schedule
        (teardown_start holed_memory 0 (Connection (Some 0) 2)) = Some st
      ∧ destructor st = d_done
      ∧ disconnecting st = c_done
      ∧ signals (shared_memory st) !! 0 = None
      ∧ _weak_disconnector (handle st) = None.
Proof.
  split; [exact wf_holed_memory|]. split; [reflexivity|].
  split; [reflexivity|].
  destruct (run_schedule crossing_schedule
              (teardown_start holed_memory 0 (Connection (Some 0) 2)))
    as [st|] eqn:Hrun; [|by vm_compute in Hrun].
  exists st. split; [reflexivity|].
  assert (destructor st = d_done ∧ disconnecting st = c_done) as [Hd Hc].
  { vm_compute in Hrun. injection Hrun as <-. by split. }
  split; [exact Hd|]. split; [exact Hc|].
  destruct (teardown_keeps_the_signal_alive holed_memory 0 holed_signal 0 2 st
              wf_holed_memory eq_refl eq_refl
              (run_schedule_reachable _ _ _ Hrun))
    as (_ & _ & _ & _ & _ & _ & _ & Hend).
  destruct (Hend Hd Hc) as (Hgone & _ & Hcleared).
  split; [exact Hgone|exact Hcleared].
Defined.

Lemma callable_programs_keep_invariant_witness :
  ∃ cl,
    run_events callable_client (initial_client []) = Some (Done cl)
    ∧ world (heap cl) = [1; 2]
    ∧ client_inv cl.
Proof.
  destruct (run_events callable_client (initial_client [])) as [[cl|e]|]
    eqn:Hrun; [|by vm_compute in Hrun..].
  exists cl. split; [reflexivity|]. split.
  - vm_compute in Hrun. by injection Hrun as <-.
  - exact (callable_programs_keep_invariant callable_client [] cl Hrun).
Defined.

Lemma disconnect_removes_one_call_witness :
  wf_memory holed_memory
  ∧ connected (Connection (Some 0) 2) holed_memory = true
  ∧ ∃ m', connection_disconnect (Connection (Some 0) 2) holed_memory
          = Done (Connection None 2, m')
          ∧ signal_call 0 5 m'
            = Done (tt, {| signals := signals m'; blocks := blocks m';
                           world := [1] |}).
Proof.
  split; [exact wf_holed_memory|]. split; [reflexivity|].
  destruct (disconnect_removes_one_call
              holed_memory (Connection (Some 0) 2) 5 wf_holed_memory eq_refl)
    as (cb & this & sg & Hw & Hb & Hsg & Hrest).
  injection Hw as <-. injection Hb as <-.
  change (Some holed_signal = Some sg) in Hsg. injection Hsg as <-.
  destruct Hrest as (m' & sg' & Hrun & _ & _ & _ & Hcall); [simpl; lia|].
  exists m'. split; [exact Hrun|exact Hcall].
Defined.

Lemma connect_is_called_last_witness :
  signals holed_memory !! 0 = Some holed_signal
  ∧ ∃ c m', connect 0 (Some (tagged_slot 4)) holed_memory = Done (c, m')
            ∧ _index c = 3
            ∧ signal_call 0 5 m'
              = Done (tt, {| signals := signals m'; blocks := blocks m';
                             world := [1; 3; 4] |}).
Proof.
  split; [reflexivity|].
  destruct (connect_is_called_last
              holed_memory 0 holed_signal (tagged_slot 4) 5 eq_refl)
    as [(c & m' & sg' & Hrun & _ & Hi & _ & Hcall) _].
  exists c, m'. split; [exact Hrun|]. split; [exact Hi|exact Hcall].
Defined.

Lemma accumulate_calls_like_trigger_witness :
  signals holed_memory !! 0 = Some holed_signal
  ∧ ∃ v m', accumulator_call (same_type nat) (accumulate 0 0 Nat.add) 5
              holed_memory
            = Done (v, m')
            ∧ signal_call 0 5 holed_memory = Done (tt, m').
Proof.
  split; [reflexivity|].
  destruct (accumulate_calls_like_trigger (same_type nat)
              holed_memory 0 holed_signal 0 Nat.add 5 eq_refl)
    as (v & m' & Hacc & Hcall & _).
  exists v, m'. split; [exact Hacc|exact Hcall].
Defined.

Lemma disconnects_commute_witness :
  ∃ cl cl',
    run_events (take 4 callable_client) (initial_client []) = Some (Done cl)
    ∧ run_events [call_disconnect 0; call_disconnect 2] cl = Some (Done cl')
    ∧ run_events [call_disconnect 2; call_disconnect 0] cl = Some (Done cl').
Proof.
  destruct (run_events (take 4 callable_client) (initial_client []))
    as [[cl|e]|] eqn:Hrun; [|by vm_compute in Hrun..].
  pose proof (run_events_inv (take 4 callable_client) (initial_client [])
                (inv_initial [])) as Hinv.
  rewrite Hrun in Hinv.
  assert (is_Some (objects cl !! 0) ∧ is_Some (objects cl !! 2)) as [H0 H2].
  { vm_compute in Hrun. injection Hrun as <-. split; eexists; reflexivity. }
  destruct (disconnects_commute cl 0 2 Hinv) as (cl' & H02 & H20);
    [lia|exact H0|exact H2|].
  exists cl, cl'. split; [reflexivity|]. split; [exact H02|exact H20].
Defined.

Lemma connect_disconnect_round_trip_witness :
  wf_memory holed_memory
  ∧ signals holed_memory !! 0 = Some holed_signal
  ∧ _shared_disconnector holed_signal = Some 0
  ∧ back (_slots holed_signal) ≠ Some None
  ∧ (let* c := connect 0 (Some (tagged_slot 4)) in connection_disconnect c)
      holed_memory
    = Done (Connection None 3, holed_memory).
Proof.
  split; [exact wf_holed_memory|]. split; [reflexivity|].
  split; [reflexivity|]. split; [discriminate|].
  apply (connect_disconnect_round_trip
           holed_memory 0 holed_signal 0 (Some (tagged_slot 4))
           wf_holed_memory eq_refl eq_refl).
  discriminate.
Defined.

Lemma disconnect_leaves_the_rest_witness :
  wf_memory holed_memory
  ∧ ∃ m', connection_disconnect (Connection (Some 0) 2) holed_memory
          = Done (Connection None 2, m')
          ∧ world m' = []
          ∧ connected (Connection (Some 0) 0) m' = true.
Proof.
  split; [exact wf_holed_memory|].
  destruct (connection_disconnect (Connection (Some 0) 2) holed_memory)
    as [[c' m']|e] eqn:Hrun; [|by vm_compute in Hrun].
  destruct (disconnect_leaves_the_rest
              holed_memory (Connection (Some 0) 2) c' m' wf_holed_memory Hrun)
    as (Hworld & _ & Hconn & _).
  exists m'. split.
  - vm_compute in Hrun. by injection Hrun as <- <-.
  - split; [exact Hworld|]. rewrite Hconn. reflexivity.
Defined.

Lemma destroy_expires_own_connections_witness :
  wf_memory holed_memory
  ∧ signals holed_memory !! 0 = Some holed_signal
  ∧ ∃ m', signal_destroy 0 holed_memory = Done (tt, m')
          ∧ signals m' !! 0 = None
          ∧ connected (Connection (Some 0) 2) m' = false.
Proof.
  split; [exact wf_holed_memory|]. split; [reflexivity|].
  destruct (destroy_expires_own_connections
              holed_memory 0 holed_signal wf_holed_memory eq_refl)
    as (m' & Hrun & _ & Hsigs & _ & Hconn).
  exists m'. split; [exact Hrun|]. split.
  - rewrite Hsigs. apply lookup_delete_eq.
  - destruct (connected (Connection (Some 0) 2) m') eqn:E; [|reflexivity].
    apply Hconn in E as [_ Hne]. by destruct Hne.
Defined.

Lemma mutex_serializes_witness :
  wf_memory holed_memory
  ∧ signals holed_memory !! 0 = Some holed_signal
  ∧ ready holed_memory 0
      (in_disconnect (Connection (Some 0) 2) p_start
         : task nat nat (list nat))
  ∧ ∃ st sg',
      run_pool multithread_policy mixed_schedule
        (Pool holed_memory ∅
           (in_connect 0 (Some (tagged_slot 4)) k_lock)
           (in_disconnect (Connection (Some 0) 2) p_start)) = Some st
      ∧ first st = in_connect 0 (Some (tagged_slot 4))
                     (k_done (Connection (Some 0) 3))
      ∧ second st = in_disconnect (Connection None 2) p_done
      ∧ signals (pool_memory st) !! 0 = Some sg'
      ∧ _slots sg' = [Some (tagged_slot 1); None; None; Some (tagged_slot 4)]
      ∧ mutexes st = ∅
      ∧ (let* r1 := atomically (in_connect 0 (Some (tagged_slot 4)) k_lock) in
         let* r2 := atomically (in_disconnect (Connection (Some 0) 2) p_start) in
         ret (r1, r2)) holed_memory
        = Done ((first st, second st), pool_memory st).
Proof.
  assert (ready holed_memory 0
            (in_disconnect (Connection (Some 0) 2) p_start
               : task nat nat (list nat))) as Hready.
  { exists holed_signal. split; [reflexivity|].
    exists 0, (tagged_slot 3). by split_and!. }
  split; [exact wf_holed_memory|]. split; [reflexivity|].
  split; [exact Hready|].
  destruct (run_pool multithread_policy mixed_schedule
              (Pool holed_memory ∅
                 (in_connect 0 (Some (tagged_slot 4)) k_lock)
                 (in_disconnect (Connection (Some 0) 2) p_start)))
    as [st|] eqn:Hrun; [|by vm_compute in Hrun].
  assert (first st = in_connect 0 (Some (tagged_slot 4))
                       (k_done (Connection (Some 0) 3))
          ∧ second st = in_disconnect (Connection None 2) p_done
          ∧ ∃ sg', signals (pool_memory st) !! 0 = Some sg'
                   ∧ _slots sg'
                     = [Some (tagged_slot 1); None; None;
                        Some (tagged_slot 4)])
    as (Hfirst & Hsecond & sg' & Hsg' & Hslots).
  { vm_compute in Hrun. injection Hrun as <-.
    split; [reflexivity|]. split; [reflexivity|].
    eexists. split; reflexivity. }
  destruct (mutex_serializes holed_memory 0 holed_signal
              (in_connect 0 (Some (tagged_slot 4)) k_lock)
              (in_disconnect (Connection (Some 0) 2) p_start) st
              wf_holed_memory eq_refl eq_refl eq_refl eq_refl Hready I
              (run_pool_reachable _ _ _ _ Hrun))
    as (_ & _ & _ & Hend).
  destruct Hend as [Hfree Horder];
    [by rewrite Hfirst|by rewrite Hsecond|].
  exists st, sg'. split; [reflexivity|]. split; [exact Hfirst|].
  split; [exact Hsecond|]. split; [exact Hsg'|]. split; [exact Hslots|].
  split; [exact Hfree|].
  destruct Horder as [Horder|Horder]; [exact Horder|].
  exfalso. rewrite Hfirst, Hsecond in Horder.
  vm_compute in Horder. discriminate Horder.
Defined.

Lemma unsafe_signal_connects_race_witness :
  signals holed_memory !! 0 = Some holed_signal
  ∧ _shared_disconnector holed_signal = Some 0
  ∧ ∃ st,
      run_pool singlethread_policy racing_connects
        (Pool holed_memory ∅
           (in_connect 0 (Some (tagged_slot 4)) k_lock)
           (in_connect 0 (Some (tagged_slot 5)) k_lock)) = Some st
      ∧ first st = in_connect 0 (Some (tagged_slot 4))
                     (k_done (Connection (Some 0) 4))
      ∧ second st = in_connect 0 (Some (tagged_slot 5))
                      (k_done (Connection (Some 0) 4)).
Proof.
  split; [reflexivity|]. split; [reflexivity|].
  destruct (unsafe_signal_connects_race
              holed_memory 0 holed_signal 0 (tagged_slot 4) (tagged_slot 5)
              eq_refl eq_refl)
    as [(st & sg' & Hrun & Hfirst & Hsecond & _) _].
  exists st. split; [exact Hrun|]. split; [exact Hfirst|exact Hsecond].
Defined.

Lemma mutex_runs_terminate_witness :
  wf_memory holed_memory
  ∧ signals holed_memory !! 0 = Some holed_signal
  ∧ ∃ st,
      run_pool multithread_policy mixed_schedule
        (Pool holed_memory ∅
           (in_connect 0 (Some (tagged_slot 4)) k_lock)
           (in_disconnect (Connection (Some 0) 2) p_start)) = Some st
      ∧ length mixed_schedule + pool_work 0 st ≤ 10 + 13.
Proof.
  assert (ready holed_memory 0
            (in_disconnect (Connection (Some 0) 2) p_start
               : task nat nat (list nat))) as Hready.
  { exists holed_signal. split; [reflexivity|].
    exists 0, (tagged_slot 3). by split_and!. }
  split; [exact wf_holed_memory|]. split; [reflexivity|].
  destruct (run_pool multithread_policy mixed_schedule
              (Pool holed_memory ∅
                 (in_connect 0 (Some (tagged_slot 4)) k_lock)
                 (in_disconnect (Connection (Some 0) 2) p_start)))
    as [st|] eqn:Hrun; [|by vm_compute in Hrun].
  exists st. split; [reflexivity|].
  exact (proj1 (mutex_runs_terminate holed_memory 0 holed_signal
                  (in_connect 0 (Some (tagged_slot 4)) k_lock)
                  (in_disconnect (Connection (Some 0) 2) p_start)
                  (length mixed_schedule) st
                  wf_holed_memory eq_refl eq_refl eq_refl eq_refl Hready I
                  (run_pool_nsteps _ _ _ _ Hrun))).
Defined.

Lemma callable_programs_keep_vectors_trimmed_witness :
  ∃ cl sg,
    run_events (take 9 callable_client) (initial_client []) = Some (Done cl)
    ∧ signals (heap cl) !! 0 = Some sg
    ∧ _slots sg = [Some (tagged_slot 3)]
    ∧ back (_slots sg) ≠ Some None.
Proof.
  destruct (run_events (take 9 callable_client) (initial_client []))
    as [[cl|e]|] eqn:Hrun; [|by vm_compute in Hrun..].
  assert (∃ sg, signals (heap cl) !! 0 = Some sg
                ∧ _slots sg = [Some (tagged_slot 3)]) as (sg & Hsg & Hslots).
  { vm_compute in Hrun. injection Hrun as <-. eexists. split; reflexivity. }
  exists cl, sg. split; [reflexivity|]. split; [exact Hsg|].
  split; [exact Hslots|].
  exact (proj1 (callable_programs_keep_vectors_trimmed
                  (take 9 callable_client) [] cl 0 sg Hrun Hsg)).
Defined.
